(** * AgentTools: the Spotify search-and-play tool

    A shallow embedding of [MiscellaneousTools/SpotifyTools/playback_tools.py]
    and of the part of Python's [difflib] it calls, with the properties of
    query parsing, candidate ranking, device dispatch and the launch of the
    application.

    Conventions.
    - A Python [str] is a Rocq [string]; its characters are the code points
      below 256 (Latin-1), which [str.lower], [str.isspace] and the regular
      expressions of the tool map into themselves.  On these [str.lower]
      keeps the length of a string; on other code points it may not, and the
      properties below that speak of a length speak of the length of the
      lower-cased string, which is what [SequenceMatcher] is given.
    - Python integers are [Z]; a [dict] is a [gmap]; a [list] is a [list].
    - [SequenceMatcher.ratio] is a float obtained by one correctly rounded
      division of two integers; it is computed here as the exact rational
      ([Q]) of the same two integers, and the comparisons are those of [Q].
      Two such rationals with denominators below 2^26 differ by more than
      the spacing of doubles, so the comparisons agree with those of the
      floats for strings of less than 2^26 characters together.
    - The collaborators ([sp.search], [sp.devices], [sp.start_playback],
      [subprocess.run]) are oracles over an abstract world; every call is
      appended to a log, together with what [print] and [time.sleep] receive.
    - The decorator [@tool] of langchain binds the name [search_and_play] to
      a tool object that wraps the function; the call of line 132 is a call
      of that object, which raises a [TypeError]. *)

From Stdlib Require Import ZArith QArith Ascii String List Lia.
From stdpp Require Import base option list gmap sorting strings.

Close Scope Q_scope.
Open Scope Z_scope.

(** ** Python's [difflib.SequenceMatcher] (the standard library, [Lib/difflib.py]),
    restricted to what [SequenceMatcher(None, a, b).ratio()] runs: [isjunk] is
    [None] and [autojunk] is [True]. *)
Module Difflib.

(** [while cond: body], unrolled at most [n] times.  Every use below comes with
    a lemma that the state returned falsifies [cond]: the loop has really
    been left. *)
Fixpoint while {S : Type} (n : nat) (cond : S → bool) (body : S → S) (s : S) : S :=
  match n with
  | O => s
  | Datatypes.S n' => if cond s then while n' cond body (body s) else s
  end.

Section SequenceMatcher.
Context `{Countable A}.

(** [Match = namedtuple('Match', 'a b size')] *)
Definition Match : Type := Z * Z * Z.
Definition size (m : Match) : Z := m.2.

Record SequenceMatcher : Type := mkSequenceMatcher {
  sm_a : list A;
  sm_b : list A;
  b2j : gmap A (list Z);
  bjunk : gset A;
  bpopular : gset A
}.

(** [s[i]] for an index that is not negative; the loops below only index
    inside the sequence. *)
Definition item (s : list A) (i : Z) : option A :=
  if bool_decide (0 ≤ i) then s !! Z.to_nat i else None.

Definition enumerate (b : list A) : list (Z * A) :=
  imap (λ i elt, (Z.of_nat i, elt)) b.

(** [for i, elt in enumerate(b): b2j.setdefault(elt, []).append(i)] *)
Definition index_elements (b : list A) : gmap A (list Z) :=
  foldl (λ (b2j : gmap A (list Z)) '(i, elt),
           <[elt := default [] (b2j !! elt) ++ [i]]> b2j) ∅ (enumerate b).

(** [for elt, idxs in b2j.items(): if len(idxs) > ntest: popular.add(elt)] *)
Definition popular_elements (b2j : gmap A (list Z)) (ntest : Z) : gset A :=
  dom (filter (λ p : A * list Z, ntest < Z.of_nat (length p.2)) b2j).

(** [for elt in popular: del b2j[elt]] *)
Definition purge (popular : gset A) (b2j : gmap A (list Z)) : gmap A (list Z) :=
  filter (λ p : A * list Z, p.1 ∉ popular) b2j.

(** [__chain_b] with [isjunk = None] (no junk to purge) and [autojunk = True]. *)
Definition chain_b (a b : list A) : SequenceMatcher :=
  let b2j := index_elements b in
  let junk : gset A := ∅ in
  let n := Z.of_nat (length b) in
  if bool_decide (200 ≤ n) then
    let ntest := n / 100 + 1 in
    let popular := popular_elements b2j ntest in
    mkSequenceMatcher a b (purge popular b2j) junk popular
  else mkSequenceMatcher a b b2j junk ∅.

(** [SequenceMatcher(None, a, b)] *)
Definition new (a b : list A) : SequenceMatcher := chain_b a b.

Section find_longest_match.
Variable self : SequenceMatcher.
Variables alo ahi blo bhi : Z.

(** The inner loop [for j in b2j.get(a[i], nothing)], with its [continue]
    and its [break]. *)
Fixpoint scan_row (i : Z) (j2len : gmap Z Z) (js : list Z)
    (newj2len : gmap Z Z) (best : Match) : gmap Z Z * Match :=
  match js with
  | [] => (newj2len, best)
  | j :: js' =>
      if bool_decide (j < blo) then scan_row i j2len js' newj2len best
      else if bool_decide (bhi ≤ j) then (newj2len, best)
      else
        let k := default 0 (j2len !! (j - 1)) + 1 in
        let newj2len := <[j := k]> newj2len in
        let best := if bool_decide (size best < k)
                    then (i - k + 1, j - k + 1, k) else best in
        scan_row i j2len js' newj2len best
  end.

(** The outer loop [for i in range(alo, ahi)]. *)
Definition scan_rows (rows : list Z) (st : gmap Z Z * Match) : gmap Z Z * Match :=
  foldl (λ '(j2len, best) i,
           scan_row i j2len (default [] (item (sm_a self) i ≫= (b2j self !!.))) ∅ best)
        st rows.

Definition isbjunk (x : option A) : bool :=
  match x with Some e => bool_decide (e ∈ bjunk self) | None => false end.

Definition same_item (x y : option A) : bool :=
  match x, y with Some u, Some v => bool_decide (u = v) | _, _ => false end.

(** The guards of the four extension loops; [junk] is [false] for the two
    loops over non-junk elements ([not isbjunk(...)]) and [true] for the
    two loops over junk. *)
Definition back_cond (junk : bool) (m : Match) : bool :=
  let '(besti, bestj, bestsize) := m in
  bool_decide (alo < besti) && bool_decide (blo < bestj)
  && eqb (isbjunk (item (sm_b self) (bestj - 1))) junk
  && same_item (item (sm_a self) (besti - 1)) (item (sm_b self) (bestj - 1)).

Definition back_body (m : Match) : Match :=
  let '(besti, bestj, bestsize) := m in (besti - 1, bestj - 1, bestsize + 1).

Definition forth_cond (junk : bool) (m : Match) : bool :=
  let '(besti, bestj, bestsize) := m in
  bool_decide (besti + bestsize < ahi) && bool_decide (bestj + bestsize < bhi)
  && eqb (isbjunk (item (sm_b self) (bestj + bestsize))) junk
  && same_item (item (sm_a self) (besti + bestsize)) (item (sm_b self) (bestj + bestsize)).

Definition forth_body (m : Match) : Match :=
  let '(besti, bestj, bestsize) := m in (besti, bestj, bestsize + 1).

Definition extend_back (junk : bool) (m : Match) : Match :=
  while (Z.to_nat (m.1.1 - alo)) (back_cond junk) back_body m.

Definition extend_forth (junk : bool) (m : Match) : Match :=
  while (Z.to_nat (ahi - (m.1.1 + size m))) (forth_cond junk) forth_body m.

Definition find_longest_match : Match :=
  let best := (scan_rows (seqZ alo (ahi - alo)) (∅, (alo, blo, 0))).2 in
  let best := extend_back false best in
  let best := extend_forth false best in
  let best := extend_back true best in
  let best := extend_forth true best in
  best.
End find_longest_match.

(** One turn of [while queue:].  The queue is a stack: [queue.pop()] takes
    the entry appended last, which is kept at the head. *)
Definition queue_step (self : SequenceMatcher)
    (st : list (Z * Z * Z * Z) * list Match) : list (Z * Z * Z * Z) * list Match :=
  match st with
  | ([], _) => st
  | ((alo, ahi, blo, bhi) :: queue, matching_blocks) =>
      let x := find_longest_match self alo ahi blo bhi in
      let '(i, j, k) := x in
      if bool_decide (k ≠ 0) then
        let matching_blocks := matching_blocks ++ [x] in
        let queue := if bool_decide (alo < i ∧ blo < j)
                     then (alo, i, blo, j) :: queue else queue in
        let queue := if bool_decide (i + k < ahi ∧ j + k < bhi)
                     then (i + k, ahi, j + k, bhi) :: queue else queue in
        (queue, matching_blocks)
      else (queue, matching_blocks)
  end.

Definition queue_nonempty (st : list (Z * Z * Z * Z) * list Match) : bool :=
  match st.1 with [] => false | _ => true end.

(** The order of tuples: [matching_blocks.sort()]. *)
Definition Match_le (x y : Match) : Prop :=
  let '(i1, j1, k1) := x in
  let '(i2, j2, k2) := y in
  i1 < i2 ∨ (i1 = i2 ∧ (j1 < j2 ∨ (j1 = j2 ∧ k1 ≤ k2))).

#[global] Instance Match_le_dec : RelDecision Match_le.
Proof. intros [[i1 j1] k1] [[i2 j2] k2]. unfold Match_le. apply _. Defined.

(** The loop that collapses adjacent equal blocks; its state is
    [(i1, j1, k1)] and [non_adjacent]. *)
Definition collapse_step (st : Match * list Match) (x : Match) : Match * list Match :=
  let '((i1, j1, k1), non_adjacent) := st in
  let '(i2, j2, k2) := x in
  if bool_decide (i1 + k1 = i2 ∧ j1 + k1 = j2) then ((i1, j1, k1 + k2), non_adjacent)
  else ((i2, j2, k2),
        if bool_decide (k1 ≠ 0) then non_adjacent ++ [(i1, j1, k1)] else non_adjacent).

Definition get_matching_blocks (self : SequenceMatcher) : list Match :=
  let la := Z.of_nat (length (sm_a self)) in
  let lb := Z.of_nat (length (sm_b self)) in
  let '(_, matching_blocks) :=
    while (Z.to_nat (2 * la + 1)) queue_nonempty (queue_step self) ([(0, la, 0, lb)], []) in
  let matching_blocks := merge_sort Match_le matching_blocks in
  let '((i1, j1, k1), non_adjacent) := foldl collapse_step ((0, 0, 0), []) matching_blocks in
  let non_adjacent :=
    if bool_decide (k1 ≠ 0) then non_adjacent ++ [(i1, j1, k1)] else non_adjacent in
  non_adjacent ++ [(la, lb, 0)].

(** [_calculate_ratio(matches, length)]: [2.0 * matches / length], or [1.0]
    when [length] is 0. *)
Definition calculate_ratio (matches length : Z) : Q :=
  if bool_decide (length ≠ 0) then Qmake (2 * matches) (Z.to_pos length) else 1%Q.

Definition sum_sizes (blocks : list Match) : Z := foldr (λ m acc, size m + acc) 0 blocks.

Definition ratio (self : SequenceMatcher) : Q :=
  let matches := sum_sizes (get_matching_blocks self) in
  calculate_ratio matches (Z.of_nat (length (sm_a self)) + Z.of_nat (length (sm_b self))).

End SequenceMatcher.
End Difflib.

(** ** Python strings *)
Module Str.

Definition chars (s : string) : list ascii := list_ascii_of_string s.
Definition of_chars (l : list ascii) : string := string_of_list_ascii l.

(** The double quote, which the messages of the tool contain. *)
Definition dquote : string := String (ascii_of_N 34) EmptyString.

Definition newline : ascii := ascii_of_N 10.

(** [str.lower] on one code point below 256: A-Z, and the Latin-1 capitals
    U+00C0..U+00DE without the multiplication sign U+00D7. *)
Definition lower_char (c : ascii) : ascii :=
  let n := N_of_ascii c in
  if ((65 <=? n) && (n <=? 90) || (192 <=? n) && (n <=? 222) && negb (n =? 215))%N
  then ascii_of_N (n + 32) else c.

Definition lower (s : string) : string := of_chars (lower_char <$> chars s).

(** [str.isspace] on one code point below 256; the class [\s] of [re] is
    the same set. *)
Definition isspace (c : ascii) : bool :=
  let n := N_of_ascii c in
  ((9 <=? n) && (n <=? 13) || (28 <=? n) && (n <=? 32) || (n =? 133) || (n =? 160))%N.

Fixpoint lstrip_chars (l : list ascii) : list ascii :=
  match l with
  | c :: l' => if isspace c then lstrip_chars l' else l
  | [] => []
  end.

Definition rstrip_chars (l : list ascii) : list ascii := rev (lstrip_chars (rev l)).

(** [str.strip()] *)
Definition strip_chars (l : list ascii) : list ascii := rstrip_chars (lstrip_chars l).
Definition strip (s : string) : string := of_chars (strip_chars (chars s)).

(** Truth value of a string: the empty string is false. *)
Definition truthy (s : string) : bool :=
  match s with EmptyString => false | _ => true end.

End Str.

(** ** The fragment of Python's [re] that [parse_query] uses: a backtracking
    matcher with greedy repetition, in continuation-passing style. *)
Module Re.

(** What consumes one character: [.], [\s], or a literal. *)
Inductive atom : Type :=
| Dot
| Space
| Lit (c : ascii).

Inductive regex : Type :=
| Eps
| Bol                          (* ^ *)
| Eol                          (* $ *)
| Atom (a : atom)
| Seq (r1 r2 : regex)
| Alt (r1 r2 : regex)          (* r1|r2 *)
| Plus (a : atom)              (* a+, greedy *)
| Star (a : atom)              (* a*, greedy *)
| Group (r : regex).           (* ( r ), capturing; (?: r ) is r itself *)

(** A literal word, character by character. *)
Fixpoint word (w : list ascii) : regex :=
  match w with
  | [] => Eps
  | [c] => Atom (Lit c)
  | c :: w' => Seq (Atom (Lit c)) (word w')
  end.

Section matcher.
(** [re.IGNORECASE] *)
Variable ignorecase : bool.
(** The whole subject string; [rest] below is what is left of it. *)
Variable subject : list ascii.

Definition atom_ok (a : atom) (c : ascii) : bool :=
  match a with
  | Dot => negb (bool_decide (c = Str.newline))
  | Space => Str.isspace c
  | Lit l => if ignorecase then bool_decide (Str.lower_char c = Str.lower_char l)
             else bool_decide (c = l)
  end.

Definition groups : Type := list (list ascii).
Definition cont : Type := list ascii → groups → option groups.

(** Greedy repetition of an atom: as many characters as possible first,
    one fewer on each backtrack. *)
Fixpoint repeat_atom (a : atom) (rest : list ascii) (gs : groups) (k : cont)
    : option groups :=
  match rest with
  | c :: rest' =>
      if atom_ok a c then
        match repeat_atom a rest' gs k with
        | Some m => Some m
        | None => k rest gs
        end
      else k rest gs
  | [] => k rest gs
  end.

Fixpoint run (r : regex) (rest : list ascii) (gs : groups) (k : cont) : option groups :=
  match r with
  | Eps => k rest gs
  | Bol => if bool_decide (length rest = length subject) then k rest gs else None
  | Eol => if bool_decide (rest = [] ∨ rest = [Str.newline]) then k rest gs else None
  | Atom a =>
      match rest with
      | c :: rest' => if atom_ok a c then k rest' gs else None
      | [] => None
      end
  | Seq r1 r2 => run r1 rest gs (λ rest' gs', run r2 rest' gs' k)
  | Alt r1 r2 =>
      match run r1 rest gs k with
      | Some m => Some m
      | None => run r2 rest gs k
      end
  | Plus a =>
      match rest with
      | c :: rest' => if atom_ok a c then repeat_atom a rest' gs k else None
      | [] => None
      end
  | Star a => repeat_atom a rest gs k
  | Group r =>
      run r rest gs
        (λ rest' gs', k rest' (gs' ++ [take (length rest - length rest') rest]))
  end.
End matcher.

(** [re.match(pattern, string, re.IGNORECASE)]: the groups of the match at
    the start of [string], or [None]. *)
Definition match_ (pattern : regex) (subject : string) (ignorecase : bool) : option groups :=
  run ignorecase (Str.chars subject) pattern (Str.chars subject) [] (λ _ gs, Some gs).

(** [m.group(n)] for [n >= 1]. *)
Definition group (m : groups) (n : nat) : string :=
  Str.of_chars (default [] (m !! (n - 1)%nat)).

End Re.

(** ** [playback_tools.py] *)

(** *** The data the tool reads *)

(** The JSON objects the Spotify Web API returns, with the keys the tool reads. *)
Record Artist : Type := mkArtist { artist_name : string }.

Record Track : Type := mkTrack {
  track_name : string;
  track_uri : string;
  track_artists : list Artist
}.

Record Device : Type := mkDevice {
  device_id : string;
  device_name : string;
  device_is_active : bool
}.

(** The dict [parse_query] returns. *)
Record ParsedQuery : Type := mkParsedQuery {
  song : string;
  artist : option string;
  search_type : string
}.

(** An exception: its class and [str(e)].  Every exception modelled is an
    instance of [Exception]. *)
Record exn : Type := Exception { exn_class : string; exn_str : string }.

Definition IndexError : exn := Exception "IndexError" "list index out of range".

(** What the call [search_and_play(query, retrying=True)] of line 132 raises:
    the name is bound to the [StructuredTool] that [@tool] returns.  The text
    is that of a langchain-core whose tools are not callable; an older one,
    whose [BaseTool.__call__] takes the tool input only, raises a
    [TypeError] as well, for the keyword [retrying].  The properties below
    name the text [exn_str TypeError] and do not depend on it. *)
Definition TypeError : exn :=
  Exception "TypeError" "'StructuredTool' object is not callable".

Inductive result (A : Type) : Type :=
| Ok (a : A)
| Err (e : exn).
Arguments Ok {A} a.
Arguments Err {A} e.

(** *** The collaborators and the effects *)

(** The collaborators of the tool: the Spotify client [sp] and the
    operating system.  Each call reads and changes the world, and returns a
    value or raises. *)
Class Collaborators (World : Type) : Type := {
  sp_search : string → string → Z → World → result (list Track) * World;
  sp_devices : World → result (list Device) * World;
  sp_start_playback : string → list string → World → result unit * World;
  subprocess_run : list string → World → result unit * World
}.

Inductive event : Type :=
| Invoke (query : string) (retrying : bool)
    (* ghost: the body of lines 56-138 has been entered *)
| Search (q type : string) (limit : Z)
| ListDevices
| StartPlayback (device_id : string) (uris : list string)
| Run (argv : list string)
| Sleep (seconds : Z)
| Print (msg : string).

Record state (World : Type) : Type := mkState {
  world : World;
  log : list event
}.
Arguments mkState {World} world log.
Arguments world {World} s.
Arguments log {World} s.

Inductive outcome (A : Type) : Type :=
| Return (a : A)
| Raise (e : exn).
Arguments Return {A} a.
Arguments Raise {A} e.

Definition M (World : Type) (A : Type) : Type := state World → outcome A * state World.

Section effects.
Context {World : Type} `{!Collaborators World}.

#[global] Instance M_ret : MRet (M World) := λ A a s, (Return a, s).

#[global] Instance M_bind : MBind (M World) := λ A B f m s,
  match m s with
  | (Return a, s') => f a s'
  | (Raise e, s') => (Raise e, s')
  end.

Definition raise {A} (e : exn) : M World A := λ s, (Raise e, s).

(** [try: body except Exception as e: handler(e)] *)
Definition try_except {A} (body : M World A) (handler : exn → M World A) : M World A :=
  λ s, match body s with
       | (Raise e, s') => handler e s'
       | r => r
       end.

Definition emit (e : event) : M World unit :=
  λ s, (Return tt, mkState (world s) (log s ++ [e])).

(** A call of a collaborator: logged, then answered by the world. *)
Definition call {A} (e : event) (f : World → result A * World) : M World A :=
  λ s, let '(r, w) := f (world s) in
       let s' := mkState w (log s ++ [e]) in
       match r with Ok a => (Return a, s') | Err x => (Raise x, s') end.

Definition lift {A} (r : result A) : M World A :=
  match r with Ok a => mret a | Err e => raise e end.

Definition print (msg : string) : M World unit := emit (Print msg).
Definition sleep (seconds : Z) : M World unit := emit (Sleep seconds).
Definition search (q type : string) (limit : Z) : M World (list Track) :=
  call (Search q type limit) (sp_search q type limit).
Definition devices : M World (list Device) := call ListDevices sp_devices.
Definition start_playback (device_id : string) (uris : list string) : M World unit :=
  call (StartPlayback device_id uris) (sp_start_playback device_id uris).
Definition launch (argv : list string) : M World unit :=
  call (Run argv) (subprocess_run argv).
End effects.

(** *** [calculate_similarity] *)

(** [SequenceMatcher(None, a.lower(), b.lower()).ratio()] *)
Definition calculate_similarity (a b : string) : Q :=
  Difflib.ratio (Difflib.new (Str.chars (Str.lower a)) (Str.chars (Str.lower b))).

(** [x > y] on ratios. *)
Definition Qgtb (x y : Q) : bool := negb (Qle_bool x y).

(** *** [parse_query] *)

Notation "r1 ⋅ r2" := (Re.Seq r1 r2) (at level 41, right associativity).

(** [r'^(.+)\s+(?:by|from|of)\s+(.+)$'] *)
Definition pattern_by : Re.regex :=
  Re.Bol ⋅ Re.Group (Re.Plus Re.Dot) ⋅ Re.Plus Re.Space
  ⋅ Re.Alt (Re.word (Str.chars "by")) (Re.Alt (Re.word (Str.chars "from")) (Re.word (Str.chars "of")))
  ⋅ Re.Plus Re.Space ⋅ Re.Group (Re.Plus Re.Dot) ⋅ Re.Eol.

(** [r'^(.+)\s*-\s*(.+)$'] *)
Definition pattern_dash : Re.regex :=
  Re.Bol ⋅ Re.Group (Re.Plus Re.Dot) ⋅ Re.Star Re.Space
  ⋅ Re.Atom (Re.Lit "-") ⋅ Re.Star Re.Space ⋅ Re.Group (Re.Plus Re.Dot) ⋅ Re.Eol.

Definition patterns : list Re.regex := [pattern_by; pattern_dash].

(** The loop [for pattern in patterns] with its early [return], and the
    default after it. *)
Fixpoint parse_with (patterns : list Re.regex) (query : string) : ParsedQuery :=
  match patterns with
  | pattern :: patterns' =>
      match Re.match_ pattern query true with
      | Some m =>
          {| song := Str.strip (Re.group m 1);
             artist := Some (Str.strip (Re.group m 2));
             search_type := "track" |}
      | None => parse_with patterns' query
      end
  | [] => {| song := Str.strip query; artist := None; search_type := "track" |}
  end.

Definition parse_query (query : string) : ParsedQuery := parse_with patterns query.

(** *** The parts of [search_and_play] *)

(** [track['artists'][0]['name']] *)
Definition primary_artist_name (track : Track) : result string :=
  match track_artists track with
  | a :: _ => Ok (artist_name a)
  | [] => Err IndexError
  end.

(** The comprehension of lines 85-88: the tracks whose first artist is
    similar enough, in order; it raises at the first track without artist. *)
Fixpoint filter_by_artist (artist : string) (tracks : list Track) : result (list Track) :=
  match tracks with
  | [] => Ok []
  | track :: tracks' =>
      match primary_artist_name track with
      | Err e => Err e
      | Ok name =>
          let keep := Qgtb (calculate_similarity artist name) (6 # 10) in
          match filter_by_artist artist tracks' with
          | Err e => Err e
          | Ok kept => Ok (if keep then track :: kept else kept)
          end
      end
  end.

(** [if parsed_query['artist']:] of line 84: [None] and the empty string are
    false. *)
Definition artist_filter (parsed_query : ParsedQuery) : option string :=
  match artist parsed_query with
  | Some a => if Str.truthy a then Some a else None
  | None => None
  end.

Definition filtered_tracks (parsed_query : ParsedQuery) (tracks : list Track)
    : result (list Track) :=
  match artist_filter parsed_query with
  | Some a => filter_by_artist a tracks
  | None => Ok tracks
  end.

(** One turn of the loop of lines 94-98 on
    [(most_relevant_track, highest_similarity)]. *)
Definition select_step (song : string) (st : option Track * Q) (track : Track)
    : option Track * Q :=
  let '(most_relevant_track, highest_similarity) := st in
  let similarity := calculate_similarity song (track_name track) in
  if Qgtb similarity highest_similarity then (Some track, similarity)
  else (most_relevant_track, highest_similarity).

Definition select (song : string) (tracks : list Track) : option Track * Q :=
  foldl (select_step song) (None, 0%Q) tracks.

(** Lines 83-98: the candidate selection ([rank] in the specification). *)
Definition rank (parsed_query : ParsedQuery) (tracks : list Track) : result (option Track) :=
  match filtered_tracks parsed_query tracks with
  | Err e => Err e
  | Ok tracks => Ok (select (song parsed_query) tracks).1
  end.

Section search_and_play.
Context {World : Type} `{!Collaborators World}.

(** The message of lines 115 and 121; the f-string reads
    [most_relevant_track["artists"][0]["name"]] and may raise. *)
Definition playing_message (track : Track) (on : string) (device : Device) : result string :=
  match primary_artist_name track with
  | Err e => Err e
  | Ok name =>
      Ok ("Playing " +:+ Str.dquote +:+ track_name track +:+ Str.dquote +:+ " by " +:+ name
          +:+ on +:+ device_name device)
  end.

Definition play_on (track : Track) (on : string) (device : Device) : M World bool :=
  start_playback (device_id device) [track_uri track] ;;
  msg ← lift (playing_message track on device) ;
  print msg ;;
  mret true.

(** Lines 111-116: the first active device, if there is one. *)
Fixpoint prefer_active (available_devices : list Device) : option Device :=
  match available_devices with
  | [] => None
  | device :: available_devices' =>
      if device_is_active device then Some device
      else prefer_active available_devices'
  end.

(** Lines 109-122, the body of [if available_devices:] ([dispatch] in the
    specification, for a device list that is not empty). *)
Definition dispatch (most_relevant_track : Track) (available_devices : list Device)
    : M World bool :=
  match prefer_active available_devices with
  | Some device => play_on most_relevant_track " on active device: " device
  | None =>
      match available_devices with
      | device :: _ => play_on most_relevant_track " on device: " device
      | [] => raise IndexError
      end
  end.

(** The function of lines 56-138.  [callee] is what the name
    [search_and_play] is bound to when line 132 runs. *)
Definition search_and_play_function (callee : string → bool → M World bool)
    (query : string) (search_type_arg : option string) (retrying : bool) : M World bool :=
  emit (Invoke query retrying) ;;
  let parsed_query := parse_query query in
  let parsed_query :=
    match search_type_arg with
    | Some t =>
        if Str.truthy t
        then {| song := song parsed_query; artist := artist parsed_query;
                search_type := t |}
        else parsed_query
    | None => parsed_query
    end in
  tracks ← search (song parsed_query) "track" 20 ;
  most_relevant_track ← lift (rank parsed_query tracks) ;
  match most_relevant_track with
  | None =>
      print ("No track found matching " +:+ Str.dquote +:+ query +:+ Str.dquote +:+ ".") ;;
      mret false
  | Some most_relevant_track =>
      available_devices ← devices ;
      match available_devices with
      | _ :: _ => dispatch most_relevant_track available_devices
      | [] =>
          if negb retrying then
            print "No available devices for playback." ;;
            print "Attempting to launch Spotify Desktop app..." ;;
            try_except
              (launch ["open"; "-a"; "Spotify"] ;;
               print "Spotify Desktop app launched." ;;
               sleep 5 ;;
               callee query true)
              (λ e,
                 print ("Failed to launch Spotify Desktop app: " +:+ exn_str e) ;;
                 mret false)
          else
            print "No available devices for playback after retrying." ;;
            mret false
      end
  end.

(** A call [search_and_play(query, retrying=True)] of the tool object: the
    object is not a function, the call raises before anything else happens. *)
Definition call_tool (query : string) (retrying : bool) : M World bool := raise TypeError.

(** [search_and_play] as the module has it after line 55: the tool runs the
    function of lines 56-138 on the arguments it is invoked with, and inside
    the function the name [search_and_play] is the tool. *)
Definition search_and_play (query : string) (search_type_arg : option string)
    (retrying : bool) : M World bool :=
  search_and_play_function call_tool query search_type_arg retrying.
End search_and_play.

(** *** A scripted world, for running the tool on concrete answers *)

(** The answers the collaborators will give, call after call; a collaborator
    whose script is exhausted raises. *)
Record Script : Type := mkScript {
  searches : list (result (list Track));
  device_lists : list (result (list Device));
  playbacks : list (result unit);
  launches : list (result unit)
}.

Definition TransportError : exn := Exception "TransportError" "connection failed".

Definition next {A} (l : list (result A)) : result A * list (result A) :=
  match l with
  | r :: l' => (r, l')
  | [] => (Err TransportError, [])
  end.

#[global] Instance Script_collaborators : Collaborators Script := {|
  sp_search _ _ _ w :=
    let '(r, l) := next (searches w) in
    (r, mkScript l (device_lists w) (playbacks w) (launches w));
  sp_devices w :=
    let '(r, l) := next (device_lists w) in
    (r, mkScript (searches w) l (playbacks w) (launches w));
  sp_start_playback _ _ w :=
    let '(r, l) := next (playbacks w) in
    (r, mkScript (searches w) (device_lists w) l (launches w));
  subprocess_run _ w :=
    let '(r, l) := next (launches w) in
    (r, mkScript (searches w) (device_lists w) (playbacks w) l)
|}.

Definition start (w : Script) : state Script := mkState w [].

Definition imagine : Track := mkTrack "Imagine" "spotify:track:1" [mkArtist "John Lennon"].
Definition d1 : Device := mkDevice "d1" "Phone" false.
Definition d2 : Device := mkDevice "d2" "Laptop" true.

(** * The vocabulary of the properties *)

(** ** Sample data and scripted answers *)

(** A track whose name shares no character with the song [abc]. *)
Definition xyz : Track := mkTrack "xyz" "spotify:track:2" [mkArtist "Nobody"].

(** Two more candidates for the song [Imagine]; the second is as similar to
    it as [imagine] is. *)
Definition imagine_live : Track :=
  mkTrack "Imagine - Live" "spotify:track:3" [mkArtist "John Lennon"].

Definition imagine_cover : Track :=
  mkTrack "IMAGINE" "spotify:track:4" [mkArtist "Somebody"].

(** One play command, which succeeds. *)
Definition one_play_ok : Script := mkScript [] [] [Ok tt] [].

(** The search finds the track, no device is listed, the application
    launches; a second search and a second device list would be answered. *)
Definition never_a_device : Script :=
  mkScript [Ok [imagine]; Ok [imagine]] [Ok []; Ok []] [] [Ok tt].

(** A candidate without artist. *)
Definition anonymous : Track := mkTrack "Imagine" "spotify:track:5" [].

(** The search finds the track, two devices are listed, the play command
    succeeds. *)
Definition plays_at_once : Script := mkScript [Ok [imagine]] [Ok [d1; d2]] [Ok tt] [].



(** ** The log *)

(** The invocations of [search_and_play] in a log, the play commands and
    the search requests, each in order. *)
Fixpoint invocations (l : list event) : list (string * bool) :=
  match l with
  | [] => []
  | Invoke q r :: l' => (q, r) :: invocations l'
  | _ :: l' => invocations l'
  end.

Fixpoint play_commands (l : list event) : list (string * list string) :=
  match l with
  | [] => []
  | StartPlayback d u :: l' => (d, u) :: play_commands l'
  | _ :: l' => play_commands l'
  end.

Fixpoint search_requests (l : list event) : list (string * string * Z) :=
  match l with
  | [] => []
  | Search q ty n :: l' => (q, ty, n) :: search_requests l'
  | _ :: l' => search_requests l'
  end.

(** The launches of an application and the pauses in a log, each in order. *)
Fixpoint launch_commands (l : list event) : list (list string) :=
  match l with
  | [] => []
  | Run argv :: l' => argv :: launch_commands l'
  | _ :: l' => launch_commands l'
  end.

Fixpoint sleeps (l : list event) : list Z :=
  match l with
  | [] => []
  | Sleep seconds :: l' => seconds :: sleeps l'
  | _ :: l' => sleeps l'
  end.

(** The text [search_and_play] prints after a play command: line 115 for an
    active device, line 121 otherwise. *)
Definition playing_text (track_name artist_name : string) (d : Device) : string :=
  "Playing " +:+ Str.dquote +:+ track_name +:+ Str.dquote +:+ " by " +:+ artist_name
  +:+ (if device_is_active d then " on active device: " else " on device: ")
  +:+ device_name d.



(** ** Devices *)

(** The device the specification asks for: the first active one in list
    order, or the first of the list when none is active. *)
Definition first_active (devs : list Device) (d : Device) : Prop :=
  ∃ i : nat, devs !! i = Some d ∧ device_is_active d = true ∧
    ∀ (j : nat) d', (j < i)%nat → devs !! j = Some d' → device_is_active d' = false.

Definition target_device (devs : list Device) (d : Device) : Prop :=
  first_active devs d ∨
  ((∀ d', d' ∈ devs → device_is_active d' = false) ∧ devs !! 0%nat = Some d).

(** ** Candidates *)

(** The candidate the specification asks for: the first of the list that no
    other candidate exceeds in similarity to the song. *)
Definition first_maximum (song : string) (fs : list Track) (c : Track) : Prop :=
  ∃ i : nat, fs !! i = Some c ∧
    (∀ t, t ∈ fs →
       (calculate_similarity song (track_name t)
        <= calculate_similarity song (track_name c))%Q) ∧
    (∀ (j : nat) t, (j < i)%nat → fs !! j = Some t →
       (calculate_similarity song (track_name t)
        < calculate_similarity song (track_name c))%Q).

(** ** Similarity *)

(** The characters [calculate_similarity] hands to [SequenceMatcher]. *)
Definition lowered (s : string) : list ascii := Str.chars (Str.lower s).

(** The two strings share a character, case apart. *)
Definition common_character (a b : string) : Prop :=
  ∃ c : ascii, c ∈ lowered a ∧ c ∈ lowered b.




(** The blocks [SequenceMatcher] finds for two strings. *)
Definition matching_blocks (a b : string) : list (Z * Z * Z) :=
  Difflib.get_matching_blocks (Difflib.new (lowered a) (lowered b)).

(** ** Characters *)

(** The capital letters among the code points below 256: A-Z, and the
    Latin-1 capitals U+00C0..U+00DE without the sign U+00D7. *)
Definition capital (c : ascii) : Prop :=
  (65 ≤ N_of_ascii c ≤ 90 ∨ 192 ≤ N_of_ascii c ≤ 214 ∨ 216 ≤ N_of_ascii c ≤ 222)%N.

(** [l] is [c] in lower case: the small letter of a capital stands 32 code
    points above it, and any other character is its own lower case. *)
Definition lowercase_of (c l : ascii) : Prop :=
  (capital c ∧ N_of_ascii l = (N_of_ascii c + 32)%N) ∨ (¬ capital c ∧ l = c).

(** [s'] is [s] in lower case. *)
Definition lowercase (s s' : list ascii) : Prop := Forall2 lowercase_of s s'.

(** The whitespace of Python among the code points below 256: the controls
    U+0009..U+000D and U+001C..U+001F, the space, U+0085 and U+00A0. *)
Definition whitespace (c : ascii) : Prop :=
  N_of_ascii c ∈ [9; 10; 11; 12; 13; 28; 29; 30; 31; 32; 133; 160]%N.

(** ** Queries *)

(** The two shapes of a query, in words: [<song> (by|from|of) <artist>] and
    [<song> - <artist>].  [g1] and [g2] are the texts of the two groups. *)
Definition no_newline (l : list ascii) : Prop := Forall (λ c, c ≠ Str.newline) l.
Definition spaces (l : list ascii) : Prop := Forall whitespace l.
Definition line_end (tl : list ascii) : Prop := tl = [] ∨ tl = [Str.newline].

(** [by], [from] or [of], in any case: a word that is one of the three in
    lower case. *)
Definition keyword (kw : list ascii) : Prop :=
  lowercase kw (Str.chars "by")
  ∨ lowercase kw (Str.chars "from")
  ∨ lowercase kw (Str.chars "of").

Definition by_split (query : string) (g1 g2 : list ascii) : Prop :=
  ∃ w1 kw w2 tl,
    Str.chars query = g1 ++ w1 ++ kw ++ w2 ++ g2 ++ tl
    ∧ g1 ≠ [] ∧ no_newline g1 ∧ w1 ≠ [] ∧ spaces w1 ∧ keyword kw
    ∧ w2 ≠ [] ∧ spaces w2 ∧ g2 ≠ [] ∧ no_newline g2 ∧ line_end tl.

Definition dash_split (query : string) (g1 g2 : list ascii) : Prop :=
  ∃ w1 w2 tl,
    Str.chars query = g1 ++ w1 ++ Str.chars "-" ++ w2 ++ g2 ++ tl
    ∧ g1 ≠ [] ∧ no_newline g1 ∧ spaces w1 ∧ spaces w2
    ∧ g2 ≠ [] ∧ no_newline g2 ∧ line_end tl.

(** What [parse_query] returns when a pattern has matched with the groups
    [g1] and [g2]. *)
Definition parsed (g1 g2 : list ascii) : ParsedQuery :=
  {| song := Str.strip (Str.of_chars g1);
     artist := Some (Str.strip (Str.of_chars g2));
     search_type := "track" |}.

(** A text without whitespace at either end. *)
Definition trimmed (l : list ascii) : Prop :=
  (∀ c, head l = Some c → ¬ whitespace c)
  ∧ (∀ c, last l = Some c → ¬ whitespace c).

(** [m] is [g] without the whitespace at its two ends. *)
Definition trim_of (g m : list ascii) : Prop :=
  ∃ ws1 ws2, g = ws1 ++ m ++ ws2 ∧ spaces ws1 ∧ spaces ws2 ∧ trimmed m.

Definition no_space (l : list ascii) : Prop := Forall (λ c, ¬ whitespace c) l.

(** * Properties *)

(** ** Characters: the functions of the model against the vocabulary *)

Lemma chars_of_chars (l : list ascii) : Str.chars (Str.of_chars l) = l.
Proof. apply list_ascii_of_string_of_list_ascii. Qed.

Lemma isspace_whitespace (c : ascii) : Str.isspace c = true ↔ whitespace c.
Proof.
  unfold Str.isspace, whitespace.
  rewrite !orb_true_iff, !andb_true_iff, !N.leb_le, !N.eqb_eq.
  rewrite !elem_of_cons, elem_of_nil. lia.
Qed.

Lemma isspace_not_whitespace (c : ascii) : Str.isspace c = false ↔ ¬ whitespace c.
Proof. rewrite <- isspace_whitespace. by destruct (Str.isspace c). Qed.

#[global] Instance whitespace_dec (c : ascii) : Decision (whitespace c).
Proof. unfold whitespace. apply _. Defined.

(** [str.lower] gives the lower case of the vocabulary, character by
    character, and nothing else does. *)
Lemma lower_char_lowercase_of (c l : ascii) : lowercase_of c l ↔ l = Str.lower_char c.
Proof.
  unfold lowercase_of, capital, Str.lower_char.
  pose proof (N_ascii_bounded c) as Hc. pose proof (N_ascii_bounded l) as Hl.
  set (n := N_of_ascii c) in *.
  destruct ((65 <=? n) && (n <=? 90) || (192 <=? n) && (n <=? 222) && negb (n =? 215))%N
    eqn:Hcap.
  - rewrite !orb_true_iff, !andb_true_iff, !N.leb_le, negb_true_iff, N.eqb_neq in Hcap.
    split.
    + intros [[_ Heq]|[Hnot _]]; [|lia].
      rewrite <- (ascii_N_embedding l), Heq. done.
    + intros ->. left. split; [lia|]. apply N_ascii_embedding. lia.
  - rewrite !orb_false_iff, !andb_false_iff, !N.leb_gt, negb_false_iff, N.eqb_eq in Hcap.
    split.
    + intros [[Hyes _]|[_ ->]]; [lia|done].
    + intros ->. right. split; [lia|done].
Qed.

Lemma lowercase_lower (s s' : list ascii) : lowercase s s' ↔ s' = Str.lower_char <$> s.
Proof.
  unfold lowercase. revert s'. induction s as [|c s IH]; intros s'.
  - split; [by intros ->%Forall2_nil_inv_l|by intros ->].
  - split.
    + intros (l & s'' & Hl & Hs & ->)%Forall2_cons_inv_l.
      apply lower_char_lowercase_of in Hl as ->. apply IH in Hs as ->. done.
    + intros ->. constructor; [by apply lower_char_lowercase_of|by apply IH].
Qed.


Lemma spaces_isspace (l : list ascii) :
  spaces l ↔ Forall (λ c, Str.isspace c = true) l.
Proof. unfold spaces. apply Forall_proper; [|done]. intros c. by rewrite isspace_whitespace. Qed.

(** ** Candidate selection *)
Section rank_properties.

Lemma Qgtb_true (x y : Q) : Qgtb x y = true ↔ (y < x)%Q.
Proof.
  unfold Qgtb. rewrite negb_true_iff, <- not_true_iff_false, Qle_bool_iff.
  split; [apply Qnot_le_lt | apply Qlt_not_le].
Qed.

Lemma Qgtb_false (x y : Q) : Qgtb x y = false ↔ (x <= y)%Q.
Proof.
  unfold Qgtb. rewrite negb_false_iff, Qle_bool_iff. done.
Qed.

Lemma filter_by_artist_elem a tracks kept t :
  filter_by_artist a tracks = Ok kept → t ∈ kept →
  t ∈ tracks ∧
  ∃ n, primary_artist_name t = Ok n ∧ (6 # 10 < calculate_similarity a n)%Q.
Proof.
  revert kept. induction tracks as [|x tracks IH]; intros kept Hf Hin; simpl in Hf.
  - injection Hf as <-. by apply elem_of_nil in Hin.
  - destruct (primary_artist_name x) as [n|e] eqn:Hn; [|done].
    destruct (filter_by_artist a tracks) as [kept'|e] eqn:Hk; [|done].
    injection Hf as <-.
    destruct (Qgtb (calculate_similarity a n) (6 # 10)) eqn:Hgt.
    + apply elem_of_cons in Hin as [->|Hin].
      * split; [left|]. exists n. split; [done|]. by apply Qgtb_true.
      * destruct (IH kept' eq_refl Hin) as [? ?]. split; [by right|done].
    + destruct (IH kept' eq_refl Hin) as [? ?]. split; [by right|done].
Qed.

(** The state of the selection loop after a prefix [fs] of the tracks. *)
Definition select_inv (song : string) (fs : list Track) (st : option Track * Q) : Prop :=
  match st.1 with
  | None =>
      st.2 = 0%Q ∧
      ∀ t, t ∈ fs → (calculate_similarity song (track_name t) <= 0)%Q
  | Some c =>
      st.2 = calculate_similarity song (track_name c) ∧
      (0 < calculate_similarity song (track_name c))%Q ∧
      ∃ i : nat, fs !! i = Some c ∧
        (∀ t, t ∈ fs →
           (calculate_similarity song (track_name t)
            <= calculate_similarity song (track_name c))%Q) ∧
        (∀ (j : nat) t, (j < i)%nat → fs !! j = Some t →
           (calculate_similarity song (track_name t)
            < calculate_similarity song (track_name c))%Q)
  end.

Lemma select_snoc song fs t :
  select song (fs ++ [t]) = select_step song (select song fs) t.
Proof. unfold select. by rewrite foldl_app. Qed.

Lemma select_spec song fs : select_inv song fs (select song fs).
Proof.
  induction fs as [|t fs IH] using rev_ind.
  - split; [done|]. intros t Ht. by apply elem_of_nil in Ht.
  - rewrite select_snoc. destruct (select song fs) as [best h].
    unfold select_inv in IH. simpl in IH. unfold select_step.
    destruct (Qgtb (calculate_similarity song (track_name t)) h) eqn:Hgt.
    + apply Qgtb_true in Hgt. unfold select_inv; simpl.
      split; [done|].
      destruct best as [c|].
      * destruct IH as (-> & Hpos & i & Hi & Hmax & Hfirst).
        split; [by eapply Qlt_trans|].
        exists (length fs). split; [by apply list_lookup_middle|].
        split.
        -- intros u [Hu|Hu]%elem_of_app.
           ++ eapply Qle_trans; [by apply Hmax|]. by apply Qlt_le_weak.
           ++ apply list_elem_of_singleton in Hu as ->. apply Qle_refl.
        -- intros j u Hj Hu. rewrite lookup_app_l in Hu by done.
           eapply Qle_lt_trans; [|exact Hgt].
           apply Hmax. by eapply list_elem_of_lookup_2.
      * destruct IH as [-> Hzero].
        split; [done|].
        exists (length fs). split; [by apply list_lookup_middle|].
        split.
        -- intros u [Hu|Hu]%elem_of_app.
           ++ eapply Qle_trans; [by apply Hzero|]. by apply Qlt_le_weak.
           ++ apply list_elem_of_singleton in Hu as ->. apply Qle_refl.
        -- intros j u Hj Hu. rewrite lookup_app_l in Hu by done.
           eapply Qle_lt_trans; [|exact Hgt].
           apply Hzero. by eapply list_elem_of_lookup_2.
    + apply Qgtb_false in Hgt. unfold select_inv; simpl.
      destruct best as [c|].
      * destruct IH as (-> & Hpos & i & Hi & Hmax & Hfirst).
        split; [done|]. split; [done|].
        exists i. split; [by apply lookup_app_l_Some|].
        split.
        -- intros u [Hu|Hu]%elem_of_app; [by apply Hmax|].
           by apply list_elem_of_singleton in Hu as ->.
        -- intros j u Hj Hu. apply (Hfirst j u Hj).
           rewrite lookup_app_l in Hu; [done|].
           apply lookup_lt_Some in Hi. lia.
      * destruct IH as [-> Hzero]. split; [done|].
        intros u [Hu|Hu]%elem_of_app; [by apply Hzero|].
        by apply list_elem_of_singleton in Hu as ->.
Qed.

End rank_properties.

(** ** The claims on candidate selection *)

Lemma artist_filter_truthy (parsed_query : ParsedQuery) (a : string) :
  artist parsed_query = Some a → a ≠ "" → artist_filter parsed_query = Some a.
Proof.
  intros Ha Hne. unfold artist_filter. rewrite Ha. by destruct a.
Qed.

Lemma rank_Some_inv (parsed_query : ParsedQuery) (tracks : list Track) (c : Track) :
  rank parsed_query tracks = Ok (Some c) →
  ∃ fs, filtered_tracks parsed_query tracks = Ok fs ∧
        (select (song parsed_query) fs).1 = Some c.
Proof.
  unfold rank. destruct (filtered_tracks parsed_query tracks) as [fs|e]; [|done].
  intros [= Hsel]. by exists fs.
Qed.

(** C1, as amended: when the parsed artist is neither null nor the empty
    string, every candidate [rank] returns has a primary artist whose name is
    more than 0.6 similar to the parsed artist, and when the filter keeps no
    candidate the result is none. *)
Theorem rank_respects_artist_filter
    (parsed_query : ParsedQuery) (tracks : list Track) (a : string) :
  artist parsed_query = Some a → a ≠ "" →
  (∀ c, rank parsed_query tracks = Ok (Some c) →
        ∃ n, primary_artist_name c = Ok n ∧ (6 # 10 < calculate_similarity a n)%Q) ∧
  (filter_by_artist a tracks = Ok [] → rank parsed_query tracks = Ok None).
Proof.
  intros Ha Hne. pose proof (artist_filter_truthy _ _ Ha Hne) as Hf. split.
  - intros c (fs & Hfs & Hsel)%rank_Some_inv.
    unfold filtered_tracks in Hfs. rewrite Hf in Hfs.
    pose proof (select_spec (song parsed_query) fs) as Hinv.
    unfold select_inv in Hinv. rewrite Hsel in Hinv.
    destruct Hinv as (_ & _ & i & Hi & _).
    apply list_elem_of_lookup_2 in Hi.
    by destruct (filter_by_artist_elem _ _ _ _ Hfs Hi).
  - intros Hempty. unfold rank, filtered_tracks. by rewrite Hf, Hempty.
Qed.

Lemma rank_respects_artist_filter_witness :
  ∃ n, primary_artist_name imagine = Ok n
       ∧ (6 # 10 < calculate_similarity "John Lennon" n)%Q.
Proof.
  apply (proj1 (rank_respects_artist_filter
                  (parse_query "Imagine by John Lennon") [imagine; xyz] "John Lennon"
                  eq_refl ltac:(discriminate))).
  vm_compute. reflexivity.
Defined.

(** C1 as stated fails: an artist that is not null but empty switches the
    filter off, and a candidate whose artist has similarity 0 is returned. *)
Lemma rank_ignores_empty_artist :
  artist (parse_query "Imagine by  ") = Some ""
  ∧ rank (parse_query "Imagine by  ") [imagine] = Ok (Some imagine)
  ∧ primary_artist_name imagine = Ok "John Lennon"
  ∧ (calculate_similarity "" "John Lennon" <= 6 # 10)%Q.
Proof.
  repeat split; try (vm_compute; reflexivity).
  vm_compute. discriminate.
Qed.

(** C2, as amended: [rank] returns none exactly when no candidate of the
    artist-filtered list has a similarity to the parsed song above the
    baseline 0; the empty list is one such case. *)
Theorem rank_none_iff_no_positive_similarity
    (parsed_query : ParsedQuery) (tracks fs : list Track) :
  filtered_tracks parsed_query tracks = Ok fs →
  (rank parsed_query tracks = Ok None ↔
   ∀ t, t ∈ fs → ¬ (0 < calculate_similarity (song parsed_query) (track_name t))%Q)
  ∧ (fs = [] → rank parsed_query tracks = Ok None).
Proof.
  intros Hfs. unfold rank. rewrite Hfs.
  pose proof (select_spec (song parsed_query) fs) as Hinv. unfold select_inv in Hinv.
  assert (Hiff : Ok (select (song parsed_query) fs).1 = Ok None ↔
    ∀ t, t ∈ fs → ¬ (0 < calculate_similarity (song parsed_query) (track_name t))%Q).
  { destruct (select (song parsed_query) fs).1 as [c|].
    - split; [done|]. intros Hall. exfalso.
      destruct Hinv as (_ & Hpos & i & Hi & _).
      apply list_elem_of_lookup_2 in Hi. by apply (Hall c Hi).
    - split; [|done]. intros _ t Ht. apply Qle_not_lt. by apply Hinv. }
  split; [done|]. intros ->. apply Hiff. intros t Ht. by apply elem_of_nil in Ht.
Qed.

Lemma rank_none_iff_no_positive_similarity_witness :
  rank (parse_query "Imagine by John Lennon") [xyz; imagine] = Ok None ↔
  ∀ t, t ∈ [imagine] →
       ¬ (0 < calculate_similarity (song (parse_query "Imagine by John Lennon"))
                (track_name t))%Q.
Proof.
  apply (proj1 (rank_none_iff_no_positive_similarity
                  (parse_query "Imagine by John Lennon") [xyz; imagine] [imagine]
                  ltac:(vm_compute; reflexivity))).
Defined.

(** C2 as stated fails: a list that is not empty yields none when the one
    candidate has similarity 0 to the song. *)
Lemma rank_none_on_nonempty_list :
  filtered_tracks (parse_query "abc") [xyz] = Ok [xyz]
  ∧ rank (parse_query "abc") [xyz] = Ok None.
Proof. split; vm_compute; reflexivity. Qed.

Lemma first_maximum_unique (song : string) (fs : list Track) (c c' : Track) :
  first_maximum song fs c → first_maximum song fs c' → c = c'.
Proof.
  intros (i & Hi & Hmax & Hfirst) (i' & Hi' & Hmax' & Hfirst').
  destruct (lt_eq_lt_dec i i') as [[Hlt| ->]|Hlt].
  - exfalso. eapply Qlt_not_le; [exact (Hfirst' i c Hlt Hi)|].
    apply Hmax. by eapply list_elem_of_lookup_2.
  - congruence.
  - exfalso. eapply Qlt_not_le; [exact (Hfirst i' c' Hlt Hi')|].
    apply Hmax'. by eapply list_elem_of_lookup_2.
Qed.

(** C3, as amended: [rank] returns a candidate exactly when it is the first
    candidate of the greatest similarity to the parsed song in the (filtered)
    list, every candidate before it being strictly less similar, and this
    similarity is above the baseline 0. *)
Theorem rank_selects_first_positive_maximum
    (parsed_query : ParsedQuery) (tracks : list Track) (c : Track) :
  rank parsed_query tracks = Ok (Some c) ↔
  ∃ fs, filtered_tracks parsed_query tracks = Ok fs
        ∧ first_maximum (song parsed_query) fs c
        ∧ (0 < calculate_similarity (song parsed_query) (track_name c))%Q.
Proof.
  split.
  - intros (fs & Hfs & Hsel)%rank_Some_inv.
    pose proof (select_spec (song parsed_query) fs) as Hinv.
    unfold select_inv in Hinv. rewrite Hsel in Hinv.
    destruct Hinv as (_ & Hpos & i & Hi & Hmax & Hfirst).
    exists fs. split; [done|]. split; [by exists i|done].
  - intros (fs & Hfs & Hc & Hpos). unfold rank. rewrite Hfs.
    pose proof (select_spec (song parsed_query) fs) as Hinv. unfold select_inv in Hinv.
    destruct (select (song parsed_query) fs).1 as [c'|].
    + destruct Hinv as (_ & _ & i & Hi & Hmax & Hfirst).
      do 2 f_equal. apply (first_maximum_unique (song parsed_query) fs); [|done].
      by exists i.
    + exfalso. destruct Hinv as [_ Hzero]. destruct Hc as (i & Hi & _).
      eapply Qlt_not_le; [exact Hpos|]. apply Hzero. by eapply list_elem_of_lookup_2.
Qed.

(** C3 as stated fails: the one candidate [xyz] is the first maximum for the
    song [abc], with similarity 0, and [rank] selects nothing. *)
Lemma rank_skips_first_maximum_of_similarity_zero :
  filtered_tracks (parse_query "abc") [xyz] = Ok [xyz]
  ∧ first_maximum (song (parse_query "abc")) [xyz] xyz
  ∧ rank (parse_query "abc") [xyz] = Ok None.
Proof.
  split; [vm_compute; reflexivity|]. split; [|vm_compute; reflexivity].
  exists 0%nat. split; [done|]. split.
  - intros t ->%list_elem_of_singleton. apply Qle_refl.
  - intros j t Hj. lia.
Qed.

(** ** Device dispatch, the launch and the call of line 132 *)

Section dispatch_properties.
Context {World : Type} `{!Collaborators World}.
Implicit Types (s : state World) (track : Track) (d : Device).

Lemma prefer_active_Some devs d :
  prefer_active devs = Some d ↔ first_active devs d.
Proof.
  induction devs as [|x devs IH]; simpl.
  - split; [done|]. by intros (i & Hi & _).
  - destruct (device_is_active x) eqn:Hx.
    + split.
      * intros [= ->]. exists 0%nat. split; [done|]. split; [done|]. lia.
      * intros (i & Hi & Hd & Hbefore). destruct i as [|i]; [by injection Hi as ->|].
        specialize (Hbefore 0%nat x ltac:(lia) eq_refl). congruence.
    + rewrite IH. split.
      * intros (i & Hi & Hd & Hbefore). exists (S i). split; [done|]. split; [done|].
        intros [|j] d' Hj Hd'; [by injection Hd' as <-|].
        apply (Hbefore j); [lia|done].
      * intros (i & Hi & Hd & Hbefore). destruct i as [|i]; [injection Hi as ->; congruence|].
        exists i. split; [done|]. split; [done|].
        intros j d' Hj Hd'. apply (Hbefore (S j)); [lia|done].
Qed.

Lemma prefer_active_None devs :
  prefer_active devs = None ↔ ∀ d', d' ∈ devs → device_is_active d' = false.
Proof.
  induction devs as [|x devs IH]; simpl.
  - split; [|done]. intros _ d' Hd'. by apply elem_of_nil in Hd'.
  - destruct (device_is_active x) eqn:Hx.
    + split; [done|]. intros Hall. specialize (Hall x ltac:(left)). congruence.
    + rewrite IH. split.
      * intros Hall d' [->|Hd']%elem_of_cons; [done|by apply Hall].
      * intros Hall d' Hd'. apply Hall. by right.
Qed.

Lemma target_device_exists devs : devs ≠ [] → ∃ d, target_device devs d.
Proof.
  intros Hne. destruct (prefer_active devs) as [d|] eqn:Hp.
  - exists d. left. by apply prefer_active_Some.
  - destruct devs as [|x devs]; [done|]. exists x. right.
    split; [by apply prefer_active_None|done].
Qed.

Lemma target_device_unique devs d d' :
  target_device devs d → target_device devs d' → d = d'.
Proof.
  intros [Hd|[Hnone Hd]] [Hd'|[Hnone' Hd']].
  - apply prefer_active_Some in Hd, Hd'. congruence.
  - destruct Hd as (i & Hi & Hact & _). apply list_elem_of_lookup_2 in Hi.
    specialize (Hnone' d Hi). congruence.
  - destruct Hd' as (i & Hi & Hact & _). apply list_elem_of_lookup_2 in Hi.
    specialize (Hnone d' Hi). congruence.
  - congruence.
Qed.

(** The target device is the one [dispatch] plays on, and the wording of the
    message follows its [is_active]. *)
Lemma dispatch_play_on track devs d s :
  target_device devs d →
  dispatch track devs s
  = play_on track (if device_is_active d then " on active device: " else " on device: ") d s.
Proof.
  intros [Hd|[Hnone Hd]]; unfold dispatch.
  - pose proof Hd as (i & _ & -> & _). apply prefer_active_Some in Hd. by rewrite Hd.
  - rewrite (Hnone d) by (by eapply list_elem_of_lookup_2).
    apply prefer_active_None in Hnone. rewrite Hnone.
    destruct devs as [|x devs]; [done|]. by injection Hd as ->.
Qed.

Lemma play_on_cases track on d s :
  match sp_start_playback (device_id d) [track_uri track] (world s) with
  | (Err e, w) =>
      play_on track on d s
      = (Raise e, mkState w (log s ++ [StartPlayback (device_id d) [track_uri track]]))
  | (Ok _, w) =>
      match track_artists track with
      | [] =>
          play_on track on d s
          = (Raise IndexError,
             mkState w (log s ++ [StartPlayback (device_id d) [track_uri track]]))
      | a :: _ =>
          play_on track on d s
          = (Return true,
             mkState w (log s ++ [StartPlayback (device_id d) [track_uri track];
                                  Print ("Playing " +:+ Str.dquote +:+ track_name track
                                         +:+ Str.dquote +:+ " by " +:+ artist_name a
                                         +:+ on +:+ device_name d)]))
      end
  end.
Proof.
  unfold play_on, start_playback, call, mbind, M_bind, print, emit, lift, playing_message,
    primary_artist_name.
  destruct (sp_start_playback (device_id d) [track_uri track] (world s)) as [[[]|e] w];
    simpl; [|done].
  destruct (track_artists track) as [|a l]; simpl; [done|]. by rewrite <- app_assoc.
Qed.

(** [dispatch] on its target device, answer by answer. *)
Lemma dispatch_cases track devs d s :
  target_device devs d →
  match sp_start_playback (device_id d) [track_uri track] (world s) with
  | (Err e, w) =>
      dispatch track devs s
      = (Raise e, mkState w (log s ++ [StartPlayback (device_id d) [track_uri track]]))
  | (Ok _, w) =>
      match track_artists track with
      | [] =>
          dispatch track devs s
          = (Raise IndexError,
             mkState w (log s ++ [StartPlayback (device_id d) [track_uri track]]))
      | a :: _ =>
          dispatch track devs s
          = (Return true,
             mkState w (log s ++ [StartPlayback (device_id d) [track_uri track];
                                  Print (playing_text (track_name track) (artist_name a) d)]))
      end
  end.
Proof.
  intros Hd. rewrite (dispatch_play_on track devs d s Hd). apply play_on_cases.
Qed.

End dispatch_properties.

(** Closes the conjunctions of facts on an explicit log. *)
Ltac log_facts := split_and!; try done; simpl; try done; try lia.

Section search_and_play_properties.
Context {World : Type} `{!Collaborators World}.
Implicit Types (s : state World) (track : Track) (d : Device).

(** The override of lines 72-73 is not read: the function does not depend
    on it. *)
Lemma search_and_play_search_type query t t' retrying :
  search_and_play query t retrying = search_and_play query t' retrying.
Proof.
  unfold search_and_play, search_and_play_function.
  destruct t as [x|], t' as [y|];
    try destruct (Str.truthy x); try destruct (Str.truthy y); reflexivity.
Qed.

Definition no_track_message (query : string) : string :=
  "No track found matching " +:+ Str.dquote +:+ query +:+ Str.dquote +:+ ".".

(** The run of the tool, answer by answer. *)
Lemma search_and_play_cases query t retrying s :
  let pq := parse_query query in
  let searched := [Invoke query retrying; Search (song pq) "track" 20] in
  match sp_search (song pq) "track" 20 (world s) with
  | (Err e, w1) =>
      search_and_play query t retrying s = (Raise e, mkState w1 (log s ++ searched))
  | (Ok tracks, w1) =>
      match rank pq tracks with
      | Err e =>
          search_and_play query t retrying s = (Raise e, mkState w1 (log s ++ searched))
      | Ok None =>
          search_and_play query t retrying s
          = (Return false,
             mkState w1 (log s ++ searched ++ [Print (no_track_message query)]))
      | Ok (Some m) =>
          match sp_devices w1 with
          | (Err e, w2) =>
              search_and_play query t retrying s
              = (Raise e, mkState w2 (log s ++ searched ++ [ListDevices]))
          | (Ok (dev :: devs), w2) =>
              ∀ d, target_device (dev :: devs) d →
              match sp_start_playback (device_id d) [track_uri m] w2 with
              | (Err e, w3) =>
                  search_and_play query t retrying s
                  = (Raise e,
                     mkState w3 (log s ++ searched ++
                       [ListDevices; StartPlayback (device_id d) [track_uri m]]))
              | (Ok _, w3) =>
                  match track_artists m with
                  | [] =>
                      search_and_play query t retrying s
                      = (Raise IndexError,
                         mkState w3 (log s ++ searched ++
                           [ListDevices; StartPlayback (device_id d) [track_uri m]]))
                  | a :: _ =>
                      search_and_play query t retrying s
                      = (Return true,
                         mkState w3 (log s ++ searched ++
                           [ListDevices; StartPlayback (device_id d) [track_uri m];
                            Print (playing_text (track_name m) (artist_name a) d)]))
                  end
              end
          | (Ok [], w2) =>
              if retrying then
                search_and_play query t retrying s
                = (Return false,
                   mkState w2 (log s ++ searched ++
                     [ListDevices; Print "No available devices for playback after retrying."]))
              else
                match subprocess_run ["open"; "-a"; "Spotify"] w2 with
                | (Err e, w3) =>
                    search_and_play query t retrying s
                    = (Return false,
                       mkState w3 (log s ++ searched ++
                         [ListDevices; Print "No available devices for playback.";
                          Print "Attempting to launch Spotify Desktop app...";
                          Run ["open"; "-a"; "Spotify"];
                          Print ("Failed to launch Spotify Desktop app: " +:+ exn_str e)]))
                | (Ok _, w3) =>
                    search_and_play query t retrying s
                    = (Return false,
                       mkState w3 (log s ++ searched ++
                         [ListDevices; Print "No available devices for playback.";
                          Print "Attempting to launch Spotify Desktop app...";
                          Run ["open"; "-a"; "Spotify"];
                          Print "Spotify Desktop app launched."; Sleep 5;
                          Print ("Failed to launch Spotify Desktop app: "
                                 +:+ exn_str TypeError)]))
                end
          end
      end
  end.
Proof.
  intros pq searched. rewrite (search_and_play_search_type query t None).
  unfold search_and_play, search_and_play_function, call_tool. fold pq.
  unfold search, devices, launch, call, print, sleep, emit, lift, mbind, M_bind, mret, M_ret,
    raise, try_except. simpl.
  assert (Hlog : ∀ (w : World) (l l' : list event) (o : outcome bool),
    l = l' → (o, mkState w l) = (o, mkState w l')) by (by intros ???? ->).
  destruct (sp_search (song pq) "track" 20 (world s)) as [[tracks|e] w1]; simpl.
  2:{ apply Hlog. unfold searched. by rewrite <- !app_assoc. }
  destruct (rank pq tracks) as [[m|]|e]; simpl.
  2:{ apply Hlog. unfold searched, no_track_message. by rewrite <- !app_assoc. }
  2:{ apply Hlog. unfold searched. by rewrite <- !app_assoc. }
  destruct (sp_devices w1) as [[[|dev devs]|e] w2]; simpl.
  - destruct retrying; simpl.
    { apply Hlog. unfold searched. by rewrite <- !app_assoc. }
    destruct (subprocess_run ["open"; "-a"; "Spotify"] w2) as [[[]|e] w3]; simpl.
    + apply Hlog. unfold searched. by rewrite <- !app_assoc.
    + apply Hlog. unfold searched. by rewrite <- !app_assoc.
  - intros d Hd.
    match goal with |- context [dispatch m (dev :: devs) ?st] =>
      pose proof (dispatch_cases m (dev :: devs) d st Hd) as Hc
    end.
    cbn [world log] in Hc.
    destruct (sp_start_playback (device_id d) [track_uri m] w2) as [[[]|e] w3].
    + destruct (track_artists m) as [|a l]; rewrite Hc; apply Hlog; unfold searched;
        by rewrite <- !app_assoc.
    + rewrite Hc. apply Hlog. unfold searched. by rewrite <- !app_assoc.
  - apply Hlog. unfold searched. by rewrite <- !app_assoc.
Qed.

End search_and_play_properties.

(** Splits a run of [search_and_play] into its cases, one for each sequence
    of answers, and rewrites the run into its result and log. *)
Ltac run_cases query t retrying s :=
  let Hc := fresh "Hc" in
  pose proof (search_and_play_cases query t retrying s) as Hc; cbv zeta in Hc;
  destruct (sp_search (song (parse_query query)) "track" 20 (world s))
    as [[tracks|e] w1] eqn:Hs;
  [destruct (rank (parse_query query) tracks) as [[m|]|e] eqn:Hr;
   [destruct (sp_devices w1) as [[[|dev devs]|e] w2] eqn:Hd;
    [destruct retrying;
     [|destruct (subprocess_run ["open"; "-a"; "Spotify"] w2) as [[[]|e] w3] eqn:Hl]
    |destruct (target_device_exists (dev :: devs) ltac:(done)) as [d Htd];
     specialize (Hc d Htd);
     destruct (sp_start_playback (device_id d) [track_uri m] w2) as [[[]|e] w3] eqn:Hp;
     [destruct (track_artists m) as [|a l] eqn:Ha|]
    |]
   | |]
  |]; rewrite Hc; clear Hc; cbn [fst snd log world].

(** ** The claims on dispatch, retry, errors and play commands *)
Section run_claims.
Context {World : Type} `{!Collaborators World}.
Implicit Types (s : state World) (track : Track) (d : Device).

(** C4: for a device list that is not empty, [dispatch] issues one play
    command, on the first active device of the list, or on [devices[0]] when
    none is active.  When the command raises, so does [dispatch]; when it
    returns and the track has an artist, [dispatch] prints the message and
    returns true; when it returns and the list [artists] of the track is
    empty, building the message raises an [IndexError] after the command. *)
Theorem dispatch_plays_on_target_device track (devs : list Device) s :
  devs ≠ [] →
  ∃ d,
    target_device devs d
    ∧ (∀ d', target_device devs d' → d' = d)
    ∧ match sp_start_playback (device_id d) [track_uri track] (world s) with
      | (Err e, w) =>
          dispatch track devs s
          = (Raise e, mkState w (log s ++ [StartPlayback (device_id d) [track_uri track]]))
      | (Ok _, w) =>
          match track_artists track with
          | [] =>
              dispatch track devs s
              = (Raise IndexError,
                 mkState w (log s ++ [StartPlayback (device_id d) [track_uri track]]))
          | a :: _ =>
              dispatch track devs s
              = (Return true,
                 mkState w
                   (log s ++ [StartPlayback (device_id d) [track_uri track];
                              Print (playing_text (track_name track) (artist_name a) d)]))
          end
      end.
Proof.
  intros Hne. destruct (target_device_exists devs Hne) as [d Hd].
  exists d. split; [done|]. split.
  - intros d' Hd'. by apply (target_device_unique devs).
  - by apply dispatch_cases.
Qed.

(** C5: there is no retry.  Under [@tool] the call of line 132 is a call of
    the tool object and raises a [TypeError] inside the [try] of line 128:
    an invocation with [retrying = False] that finds a track and no device
    and launches the application prints the [TypeError] as a failed launch
    and returns false, without a second search or device listing.  No run
    enters the function twice.  An invocation with [retrying = True] that
    finds a track and no device reports the final failure and returns
    false. *)
Theorem launch_is_followed_by_no_retry
    (query : string) (t : option string) (retrying : bool) s :
  (∃ new, log (search_and_play query t retrying s).2 = log s ++ new
          ∧ invocations new = [(query, retrying)])
  ∧ ∀ tracks w1 m w2,
      sp_search (song (parse_query query)) "track" 20 (world s) = (Ok tracks, w1) →
      rank (parse_query query) tracks = Ok (Some m) →
      sp_devices w1 = (Ok [], w2) →
      (retrying = true →
         search_and_play query t retrying s
         = (Return false,
            mkState w2
              (log s ++ [Invoke query true; Search (song (parse_query query)) "track" 20;
                         ListDevices;
                         Print "No available devices for playback after retrying."])))
      ∧ (retrying = false →
         ∀ w3, subprocess_run ["open"; "-a"; "Spotify"] w2 = (Ok tt, w3) →
           search_and_play query t retrying s
           = (Return false,
              mkState w3
                (log s ++ [Invoke query false; Search (song (parse_query query)) "track" 20;
                           ListDevices; Print "No available devices for playback.";
                           Print "Attempting to launch Spotify Desktop app...";
                           Run ["open"; "-a"; "Spotify"];
                           Print "Spotify Desktop app launched."; Sleep 5;
                           Print ("Failed to launch Spotify Desktop app: "
                                  +:+ exn_str TypeError)]))).
Proof.
  split.
  - run_cases query t retrying s; eexists; by log_facts.
  - intros tracks w1 m w2 Hs Hr Hd.
    pose proof (search_and_play_cases query t retrying s) as Hc. cbv zeta in Hc.
    rewrite Hs, Hr, Hd in Hc. split.
    + intros ->. exact Hc.
    + intros -> w3 Hl. by rewrite Hl in Hc.
Qed.

(** C6: an exception of [sp.search], [sp.devices] or [sp.start_playback]
    is not caught: the run raises it.  These calls all stand outside the
    [try] of line 128.  A run raises in no other case but one: an
    [IndexError], when a candidate the artist filter reads, or the track
    that was played, has an empty list [artists]. *)
Theorem client_errors_propagate
    (query : string) (t : option string) (retrying : bool) s (e : exn) :
  (search_and_play query t retrying s).1 = Raise e ↔
  (∃ w1, sp_search (song (parse_query query)) "track" 20 (world s) = (Err e, w1))
  ∨ ∃ tracks w1,
      sp_search (song (parse_query query)) "track" 20 (world s) = (Ok tracks, w1)
      ∧ (rank (parse_query query) tracks = Err e
         ∨ ∃ m, rank (parse_query query) tracks = Ok (Some m)
             ∧ ((∃ w2, sp_devices w1 = (Err e, w2))
                ∨ ∃ dev devs w2 d,
                    sp_devices w1 = (Ok (dev :: devs), w2)
                    ∧ target_device (dev :: devs) d
                    ∧ ((∃ w3, sp_start_playback (device_id d) [track_uri m] w2 = (Err e, w3))
                       ∨ ((∃ w3, sp_start_playback (device_id d) [track_uri m] w2
                                 = (Ok tt, w3))
                          ∧ track_artists m = [] ∧ e = IndexError)))).
Proof.
  pose proof (search_and_play_cases query t retrying s) as Hc. cbv zeta in Hc.
  destruct (sp_search (song (parse_query query)) "track" 20 (world s))
    as [[tracks|e1] w1] eqn:Hs.
  2:{ rewrite Hc. simpl. split; [intros [= ->]; left; by exists w1|].
      by intros [(? & [= -> _])|(? & ? & [=] & _)]. }
  destruct (rank (parse_query query) tracks) as [[m|]|e1] eqn:Hr.
  3:{ rewrite Hc. simpl. split.
      - intros [= ->]. right. exists tracks, w1. split; [done|]. by left.
      - intros [(? & [=])|(? & ? & [= <- <-] & [Hrank|(? & Hrank & _)])];
          rewrite Hr in Hrank; [by injection Hrank as ->|done]. }
  2:{ rewrite Hc. simpl. split; [done|].
      intros [(? & [=])|(? & ? & [= <- <-] & [Hrank|(? & Hrank & _)])];
        rewrite Hr in Hrank; done. }
  destruct (sp_devices w1) as [[[|dev devs]|e2] w2] eqn:Hd.
  - assert ((search_and_play query t retrying s).1 = Return false) as ->.
    { destruct retrying; [by rewrite Hc|].
      destruct (subprocess_run ["open"; "-a"; "Spotify"] w2) as [[[]|e2] w3];
        by rewrite Hc. }
    split; [done|].
    intros [(? & [=])|(? & ? & [= <- <-] & [Hrank|(m' & Hrank & Hdev)])];
      rewrite Hr in Hrank; [done|]. injection Hrank as <-. rewrite Hd in Hdev.
    by destruct Hdev as [(? & [=])|(? & ? & ? & ? & [=] & _)].
  - destruct (target_device_exists (dev :: devs) ltac:(done)) as [d Htd].
    specialize (Hc d Htd).
    assert (Hto : ∀ d', target_device (dev :: devs) d' → d' = d).
    { intros d' Hd'. by apply (target_device_unique (dev :: devs)). }
    destruct (sp_start_playback (device_id d) [track_uri m] w2) as [[[]|e2] w3] eqn:Hp.
    + destruct (track_artists m) as [|a l] eqn:Ha; rewrite Hc; simpl.
      * split.
        -- intros [= <-]. right. exists tracks, w1. split; [done|]. right. exists m.
           split; [done|]. right. exists dev, devs, w2, d. split; [done|]. split; [done|].
           right. split; [by exists w3|done].
        -- intros [(? & [=])|(? & ? & [= <- <-] & [Hrank|(m' & Hrank & Hdev)])];
             rewrite Hr in Hrank; [done|]. injection Hrank as <-. rewrite Hd in Hdev.
           destruct Hdev as [(? & [=])|(? & ? & ? & d' & [= <- <- <-] & Hd' & Hplay)].
           apply Hto in Hd' as ->. rewrite Hp in Hplay.
           by destruct Hplay as [(? & [=])|(_ & _ & ->)].
      * split; [done|].
        intros [(? & [=])|(? & ? & [= <- <-] & [Hrank|(m' & Hrank & Hdev)])];
          rewrite Hr in Hrank; [done|]. injection Hrank as <-. rewrite Hd in Hdev.
        destruct Hdev as [(? & [=])|(? & ? & ? & d' & [= <- <- <-] & Hd' & Hplay)].
        apply Hto in Hd' as ->. rewrite Hp, Ha in Hplay.
        by destruct Hplay as [(? & [=])|(_ & [=] & _)].
    + rewrite Hc. simpl. split.
      * intros [= ->]. right. exists tracks, w1. split; [done|]. right. exists m.
        split; [done|]. right. exists dev, devs, w2, d. split; [done|]. split; [done|].
        left. by exists w3.
      * intros [(? & [=])|(? & ? & [= <- <-] & [Hrank|(m' & Hrank & Hdev)])];
          rewrite Hr in Hrank; [done|]. injection Hrank as <-. rewrite Hd in Hdev.
        destruct Hdev as [(? & [=])|(? & ? & ? & d' & [= <- <- <-] & Hd' & Hplay)].
        apply Hto in Hd' as ->. rewrite Hp in Hplay.
        destruct Hplay as [(? & [= -> _])|((? & [=]) & _)]. done.
  - rewrite Hc. simpl. split.
    + intros [= ->]. right. exists tracks, w1. split; [done|]. right. exists m.
      split; [done|]. left. by exists w2.
    + intros [(? & [=])|(? & ? & [= <- <-] & [Hrank|(m' & Hrank & Hdev)])];
        rewrite Hr in Hrank; [done|]. injection Hrank as <-. rewrite Hd in Hdev.
      by destruct Hdev as [(? & [= -> _])|(? & ? & ? & ? & [=] & _)].
Qed.

(** C9: a run that returns true has issued exactly one play command, a run
    that returns false has issued none; and when no track is selected the
    run prints that no track was found and returns false right after the
    search, before any device is listed. *)
Theorem play_commands_match_result
    (query : string) (t : option string) (retrying : bool) s :
  ∃ new,
    log (search_and_play query t retrying s).2 = log s ++ new
    ∧ ((search_and_play query t retrying s).1 = Return true →
       length (play_commands new) = 1%nat)
    ∧ ((search_and_play query t retrying s).1 = Return false → play_commands new = [])
    ∧ (∀ tracks w1,
         sp_search (song (parse_query query)) "track" 20 (world s) = (Ok tracks, w1) →
         rank (parse_query query) tracks = Ok None →
         (search_and_play query t retrying s).1 = Return false
         ∧ new = [Invoke query retrying; Search (song (parse_query query)) "track" 20;
                  Print (no_track_message query)]).
Proof.
  run_cases query t retrying s; eexists; (split; [done|]); log_facts;
    intros ? ? [= <- <-] Hnone; rewrite Hr in Hnone; done.
Qed.

(** C10: [search_type] is written into the parsed query and never read: two
    runs that differ in it only are the same run, with the same one request
    [sp.search(q=<the parsed song>, type='track', limit=20)], the same log
    and the same result. *)
Theorem search_type_is_ignored
    (query : string) (t t' : option string) (retrying : bool) s :
  search_and_play query t retrying s = search_and_play query t' retrying s
  ∧ ∃ new,
      log (search_and_play query t retrying s).2 = log s ++ new
      ∧ search_requests new = [(song (parse_query query), "track", 20)].
Proof.
  split; [by rewrite (search_and_play_search_type query t t')|].
  run_cases query t retrying s; eexists; by log_facts.
Qed.

End run_claims.

(** *** Runs on scripted answers *)

Lemma dispatch_plays_on_target_device_witness :
  dispatch imagine [d1; d2] (start one_play_ok)
  = (Return true,
     mkState (mkScript [] [] [] [])
       [StartPlayback "d2" ["spotify:track:1"];
        Print (playing_text "Imagine" "John Lennon" d2)]).
Proof.
  destruct (dispatch_plays_on_target_device imagine [d1; d2] (start one_play_ok)
              ltac:(discriminate))
    as (d & Ht & Huniq & Hrun).
  assert (d2 = d) as <-.
  { apply Huniq. left. exists 1%nat. split; [done|]. split; [done|].
    intros [|j] d' Hj Hd'; [by injection Hd' as <-|lia]. }
  exact Hrun.
Defined.

Lemma client_errors_propagate_witness :
  (search_and_play "Imagine" None false
     (start (mkScript [Ok [imagine]] [Ok [d1]] [Err TransportError] []))).1
  = Raise TransportError.
Proof.
  apply (proj2 (client_errors_propagate "Imagine" None false
                  (start (mkScript [Ok [imagine]] [Ok [d1]] [Err TransportError] []))
                  TransportError)).
  right. exists [imagine], (mkScript [] [Ok [d1]] [Err TransportError] []).
  split; [vm_compute; reflexivity|]. right. exists imagine.
  split; [vm_compute; reflexivity|]. right.
  exists d1, [], (mkScript [] [] [Err TransportError] []), d1.
  split; [reflexivity|]. split.
  - right. split; [|reflexivity]. by intros d' ->%list_elem_of_singleton.
  - left. by exists (mkScript [] [] [] []).
Defined.

(** C4 fails for a match whose list [artists] is empty: the play command is
    issued, and the message of line 115 raises instead of [dispatch]
    returning true. *)
Example dispatch_raises_after_the_play_command :
  dispatch anonymous [d1; d2] (start one_play_ok)
  = (Raise IndexError,
     mkState (mkScript [] [] [] []) [StartPlayback "d2" ["spotify:track:5"]]).
Proof. vm_compute. reflexivity. Qed.

(** C5 fails: no device is listed, the application launches, and the run
    ends there.  The second answers of the script are not asked for. *)
Example launched_run_does_not_retry :
  search_and_play "Imagine" None false (start never_a_device)
  = (Return false,
     mkState (mkScript [Ok [imagine]] [Ok []] [] [])
       [Invoke "Imagine" false; Search "Imagine" "track" 20; ListDevices;
        Print "No available devices for playback.";
        Print "Attempting to launch Spotify Desktop app...";
        Run ["open"; "-a"; "Spotify"]; Print "Spotify Desktop app launched."; Sleep 5;
        Print ("Failed to launch Spotify Desktop app: " +:+ exn_str TypeError)]).
Proof. vm_compute. reflexivity. Qed.

(** ** Further properties of a run *)
Section run_properties.
Context {World : Type} `{!Collaborators World}.
Implicit Types (s : state World) (track : Track) (d : Device).

(** X1: an exception raised by [sp.search], [sp.devices] or
    [sp.start_playback] reaches the caller. *)
Theorem own_errors_propagate (query : string) (t : option string) (retrying : bool) s :
  (∀ e w1,
     sp_search (song (parse_query query)) "track" 20 (world s) = (Err e, w1) →
     (search_and_play query t retrying s).1 = Raise e)
  ∧ (∀ tracks w1 m,
       sp_search (song (parse_query query)) "track" 20 (world s) = (Ok tracks, w1) →
       rank (parse_query query) tracks = Ok (Some m) →
       (∀ e w2, sp_devices w1 = (Err e, w2) →
                (search_and_play query t retrying s).1 = Raise e)
       ∧ (∀ dev devs w2 d e w3,
            sp_devices w1 = (Ok (dev :: devs), w2) → target_device (dev :: devs) d →
            sp_start_playback (device_id d) [track_uri m] w2 = (Err e, w3) →
            (search_and_play query t retrying s).1 = Raise e)).
Proof.
  pose proof (search_and_play_cases query t retrying s) as Hc. cbv zeta in Hc. split.
  - intros e w1 Hs. rewrite Hs in Hc. by rewrite Hc.
  - intros tracks w1 m Hs Hr. rewrite Hs, Hr in Hc. split.
    + intros e w2 Hd. rewrite Hd in Hc. by rewrite Hc.
    + intros dev devs w2 d e w3 Hd Ht Hp. rewrite Hd in Hc.
      specialize (Hc d Ht). rewrite Hp in Hc. by rewrite Hc.
Qed.

(** X2: a run that returns true has issued exactly one play command; a run
    that returns false has issued none; no run, one that raises included,
    issues more than one. *)
Theorem play_commands_of_result (query : string) (t : option string)
    (retrying : bool) s :
  ∃ new,
    log (search_and_play query t retrying s).2 = log s ++ new
    ∧ (length (play_commands new) ≤ 1)%nat
    ∧ ((search_and_play query t retrying s).1 = Return true →
       length (play_commands new) = 1%nat)
    ∧ ((search_and_play query t retrying s).1 = Return false →
       play_commands new = []).
Proof.
  run_cases query t retrying s; eexists; by log_facts.
Qed.

(** X3: when no track is selected the invocation reports it and returns false
    at once: after [sp.search] nothing is called, neither [sp.devices] nor
    [sp.start_playback]. *)
Theorem no_track_returns_false_at_once (query : string) (t : option string)
    (retrying : bool) s (tracks : list Track) (w1 : World) :
  sp_search (song (parse_query query)) "track" 20 (world s) = (Ok tracks, w1) →
  rank (parse_query query) tracks = Ok None →
  search_and_play query t retrying s
  = (Return false,
     mkState w1 (log s ++ [Invoke query retrying;
                           Search (song (parse_query query)) "track" 20;
                           Print (no_track_message query)])).
Proof.
  intros Hs Hr.
  pose proof (search_and_play_cases query t retrying s) as Hc.
  cbv zeta in Hc. by rewrite Hs, Hr in Hc.
Qed.



(** X6: a run that returns true has searched for the parsed song, ranked the
    answer, listed the devices, played the ranked track on the target
    device, and printed the track, its first artist and the device; this is
    all it has done. *)
Theorem true_run_plays_ranked_track (query : string) (t : option string)
    (retrying : bool) s :
  (search_and_play query t retrying s).1 = Return true →
  ∃ (tracks : list Track) (w1 : World) (m : Track) (devs : list Device) (w2 : World)
    (d : Device) (a : string),
    log (search_and_play query t retrying s).2
    = log s ++ [Invoke query retrying; Search (song (parse_query query)) "track" 20;
                ListDevices; StartPlayback (device_id d) [track_uri m];
                Print (playing_text (track_name m) a d)]
    ∧ sp_search (song (parse_query query)) "track" 20 (world s) = (Ok tracks, w1)
    ∧ rank (parse_query query) tracks = Ok (Some m)
    ∧ sp_devices w1 = (Ok devs, w2)
    ∧ target_device devs d
    ∧ primary_artist_name m = Ok a
    ∧ sp_start_playback (device_id d) [track_uri m] w2
      = (Ok tt, world (search_and_play query t retrying s).2).
Proof.
  run_cases query t retrying s; try done.
  intros _. exists tracks, w1, m, (dev :: devs), w2, d, (artist_name a).
  unfold primary_artist_name. rewrite Ha. by split_and!.
Qed.

(** X7: the application is launched at most once, by [open -a Spotify], and
    exactly when the invocation ([retrying = False]) has found a track and an
    empty device list; the run sleeps at most once, for 5 seconds, and
    exactly when that launch has returned. *)
Theorem launch_only_without_device (query : string) (t : option string)
    (retrying : bool) s :
  ∃ new,
    log (search_and_play query t retrying s).2 = log s ++ new
    ∧ (launch_commands new = [] ∨ launch_commands new = [["open"; "-a"; "Spotify"]])
    ∧ (sleeps new = [] ∨ sleeps new = [5])
    ∧ (launch_commands new ≠ [] ↔
       retrying = false ∧
       ∃ tracks w1 m w2,
         sp_search (song (parse_query query)) "track" 20 (world s) = (Ok tracks, w1)
         ∧ rank (parse_query query) tracks = Ok (Some m)
         ∧ sp_devices w1 = (Ok [], w2))
    ∧ (sleeps new ≠ [] ↔
       retrying = false ∧
       ∃ tracks w1 m w2 w3,
         sp_search (song (parse_query query)) "track" 20 (world s) = (Ok tracks, w1)
         ∧ rank (parse_query query) tracks = Ok (Some m)
         ∧ sp_devices w1 = (Ok [], w2)
         ∧ subprocess_run ["open"; "-a"; "Spotify"] w2 = (Ok tt, w3)).
Proof.
  assert (Hno : ∀ new : list event,
    launch_commands new = [] → sleeps new = [] →
    (¬ (retrying = false ∧
        ∃ tracks w1 m w2,
          sp_search (song (parse_query query)) "track" 20 (world s) = (Ok tracks, w1)
          ∧ rank (parse_query query) tracks = Ok (Some m)
          ∧ sp_devices w1 = (Ok [], w2))) →
    (launch_commands new = [] ∨ launch_commands new = [["open"; "-a"; "Spotify"]])
    ∧ (sleeps new = [] ∨ sleeps new = [5])
    ∧ (launch_commands new ≠ [] ↔
       retrying = false ∧
       ∃ tracks w1 m w2,
         sp_search (song (parse_query query)) "track" 20 (world s) = (Ok tracks, w1)
         ∧ rank (parse_query query) tracks = Ok (Some m)
         ∧ sp_devices w1 = (Ok [], w2))
    ∧ (sleeps new ≠ [] ↔
       retrying = false ∧
       ∃ tracks w1 m w2 w3,
         sp_search (song (parse_query query)) "track" 20 (world s) = (Ok tracks, w1)
         ∧ rank (parse_query query) tracks = Ok (Some m)
         ∧ sp_devices w1 = (Ok [], w2)
         ∧ subprocess_run ["open"; "-a"; "Spotify"] w2 = (Ok tt, w3))).
  { intros new -> -> Hnot. split_and!; [by left|by left| |].
    - split; [done|]. intros Hyes. by destruct Hnot.
    - split; [done|]. intros (? & tracks & w1 & m & w2 & w3 & ? & ? & ? & ?).
      destruct Hnot. split; [done|]. by exists tracks, w1, m, w2. }
  pose proof (search_and_play_cases query t retrying s) as Hc. cbv zeta in Hc.
  destruct (sp_search _ _ _ _) as [[tracks|e] w1] eqn:Hs.
  2:{ rewrite Hc. eexists. split; [done|]. apply Hno; [done..|].
      intros (_ & ? & ? & ? & ? & ? & _). congruence. }
  destruct (rank _ tracks) as [[m|]|e] eqn:Hr.
  2,3: rewrite Hc; eexists; (split; [done|]); (apply Hno; [done..|]);
       intros (_ & ? & ? & ? & ? & ? & ? & _); congruence.
  destruct (sp_devices w1) as [[[|dev devs]|e] w2] eqn:Hd.
  3:{ rewrite Hc. eexists. split; [done|]. apply Hno; [done..|].
      intros (_ & ? & ? & ? & ? & ? & ? & ?). congruence. }
  2:{ destruct (target_device_exists (dev :: devs) ltac:(done)) as [d Htd].
      specialize (Hc d Htd).
      destruct (sp_start_playback _ _ _) as [[[]|e] w3];
        [destruct (track_artists m) as [|a l]|];
        rewrite Hc; eexists; (split; [done|]); (apply Hno; [done..|]);
        intros (_ & ? & ? & ? & ? & ? & ? & ?); congruence. }
  destruct retrying.
  { rewrite Hc. eexists. split; [done|]. apply Hno; [done..|]. by intros [? _]. }
  destruct (subprocess_run _ w2) as [[[]|e] w3] eqn:Hl.
  - rewrite Hc. eexists. split; [done|]. simpl.
    split_and!; [by right|by right| |].
    + split; [|done]. intros _. split; [done|]. by exists tracks, w1, m, w2.
    + split; [|done]. intros _. split; [done|]. by exists tracks, w1, m, w2, w3.
  - rewrite Hc. eexists. split; [done|]. simpl.
    split_and!; [by right|by left| |].
    + split; [|done]. intros _. split; [done|]. by exists tracks, w1, m, w2.
    + split; [done|]. intros (_ & ? & ? & ? & ? & ? & ? & ? & ? & ?). congruence.
Qed.

(** X9: an [IndexError] of the candidate selection ends the invocation right
    after the search; and when the selected track itself has no artist (the
    filter was off), the play command is issued first and the [IndexError]
    of the message of lines 115 and 121 is raised after it. *)
Theorem missing_artist_raises (query : string) (t : option string)
    (retrying : bool) s (tracks : list Track) (w1 : World) :
  sp_search (song (parse_query query)) "track" 20 (world s) = (Ok tracks, w1) →
  (∀ e, rank (parse_query query) tracks = Err e →
     search_and_play query t retrying s
     = (Raise e,
        mkState w1 (log s ++ [Invoke query retrying;
                              Search (song (parse_query query)) "track" 20])))
  ∧ (∀ m dev devs w2 d w3,
       rank (parse_query query) tracks = Ok (Some m) →
       track_artists m = [] →
       sp_devices w1 = (Ok (dev :: devs), w2) →
       target_device (dev :: devs) d →
       sp_start_playback (device_id d) [track_uri m] w2 = (Ok tt, w3) →
       search_and_play query t retrying s
       = (Raise IndexError,
          mkState w3 (log s ++ [Invoke query retrying;
                                Search (song (parse_query query)) "track" 20;
                                ListDevices;
                                StartPlayback (device_id d) [track_uri m]]))).
Proof.
  intros Hs.
  pose proof (search_and_play_cases query t retrying s) as Hc.
  cbv zeta in Hc. rewrite Hs in Hc. split.
  - intros e Hr. by rewrite Hr in Hc.
  - intros m dev devs w2 d w3 Hr Hm Hd Ht Hp. rewrite Hr, Hd in Hc.
    specialize (Hc d Ht). by rewrite Hp, Hm in Hc.
Qed.


End run_properties.

Lemma no_track_returns_false_at_once_witness :
  search_and_play "abc" None false (start (mkScript [Ok [xyz]] [] [] []))
  = (Return false,
     mkState (mkScript [] [] [] [])
       ([] ++ [Invoke "abc" false; Search (song (parse_query "abc")) "track" 20;
               Print (no_track_message "abc")])).
Proof.
  apply (no_track_returns_false_at_once "abc" None false
           (start (mkScript [Ok [xyz]] [] [] [])) [xyz] (mkScript [] [] [] []));
    vm_compute; reflexivity.
Defined.

Lemma true_run_plays_ranked_track_witness :
  ∃ m d,
    play_commands (log (search_and_play "Imagine" None false (start plays_at_once)).2)
    = [(device_id d, [track_uri m])].
Proof.
  assert (Htrue : (search_and_play "Imagine" None false (start plays_at_once)).1
                  = Return true) by (vm_compute; reflexivity).
  destruct (true_run_plays_ranked_track "Imagine" None false (start plays_at_once) Htrue)
    as (tracks & w1 & m & devs & w2 & d & a & Hlog & _).
  exists m, d. by rewrite Hlog.
Defined.



Lemma missing_artist_raises_witness :
  search_and_play "Imagine" None false
    (start (mkScript [Ok [anonymous]] [Ok [d1]] [Ok tt] []))
  = (Raise IndexError,
     mkState (mkScript [] [] [] [])
       ([] ++ [Invoke "Imagine" false; Search (song (parse_query "Imagine")) "track" 20;
               ListDevices; StartPlayback (device_id d1) [track_uri anonymous]])).
Proof.
  assert (Hsearch : sp_search (song (parse_query "Imagine")) "track" 20
                      (world (start (mkScript [Ok [anonymous]] [Ok [d1]] [Ok tt] [])))
                    = (Ok [anonymous], mkScript [] [Ok [d1]] [Ok tt] []))
    by (vm_compute; reflexivity).
  apply (proj2 (missing_artist_raises "Imagine" None false
                  (start (mkScript [Ok [anonymous]] [Ok [d1]] [Ok tt] []))
                  [anonymous] (mkScript [] [Ok [d1]] [Ok tt] []) Hsearch)
           anonymous d1 [] (mkScript [] [] [Ok tt] []) d1 (mkScript [] [] [] [])).
  - vm_compute; reflexivity.
  - reflexivity.
  - reflexivity.
  - right. split; [|reflexivity]. by intros d' ->%list_elem_of_singleton.
  - reflexivity.
Defined.

(** ** [difflib]: the loops end, and the blocks they find *)
Module Difflib_facts.
Import Difflib.

Lemma while_invariant {S : Type} (P : S → Prop) (n : nat) (cond : S → bool)
    (body : S → S) (s : S) :
  P s → (∀ s, P s → cond s = true → P (body s)) → P (while n cond body s).
Proof.
  intros Hs Hstep. revert s Hs. induction n as [|n IH]; intros s Hs; simpl; [done|].
  destruct (cond s) eqn:Hc; [|done]. apply IH. by apply Hstep.
Qed.

(** With a measure that every turn decreases and the fuel covers, [while]
    stops because its condition is false. *)
Lemma while_exit {S : Type} (P : S → Prop) (mu : S → nat) (n : nat) (cond : S → bool)
    (body : S → S) (s : S) :
  P s → (∀ s, P s → cond s = true → P (body s) ∧ (mu (body s) < mu s)%nat) →
  (mu s ≤ n)%nat → cond (while n cond body s) = false.
Proof.
  intros Hs Hstep. revert s Hs. induction n as [|n IH]; intros s Hs Hmu; simpl.
  - destruct (cond s) eqn:Hc; [|done]. destruct (Hstep s Hs Hc). lia.
  - destruct (cond s) eqn:Hc; [|done]. destruct (Hstep s Hs Hc). apply IH; [done|lia].
Qed.

Section blocks.
Context `{Countable A}.
Variable self : SequenceMatcher (A := A).

(** [a[i:i+k] == b[j:j+k]], inside both sequences. *)
Definition matching (m : Match) : Prop :=
  let '(i, j, k) := m in
  ∀ t, 0 ≤ t < k →
    is_Some (item (sm_a self) (i + t)) ∧ item (sm_a self) (i + t) = item (sm_b self) (j + t).

(** The block lies in [a[alo:ahi]] and [b[blo:bhi]]. *)
Definition within (alo ahi blo bhi : Z) (m : Match) : Prop :=
  let '(i, j, k) := m in
  alo ≤ i ∧ blo ≤ j ∧ 0 ≤ k ∧ i + k ≤ ahi ∧ j + k ≤ bhi.

(** [b2j] lists positions of [b]: what [__chain_b] builds. *)
Definition b2j_sound : Prop :=
  ∀ c js j, b2j self !! c = Some js → j ∈ js → item (sm_b self) j = Some c.

Section find_longest_match_facts.
Variables alo ahi blo bhi : Z.
Hypothesis Hb2j : b2j_sound.

(** [j2len] after the row [i]: the lengths of the matches that end at
    [a[i]] and [b[j]]. *)
Definition row_ok (i : Z) (j2len : gmap Z Z) : Prop :=
  ∀ j k, j2len !! j = Some k →
    blo ≤ j < bhi ∧ 1 ≤ k ∧ k ≤ i - alo + 1 ∧ k ≤ j - blo + 1
    ∧ matching (i - k + 1, j - k + 1, k).

Definition best_ok (hi : Z) (best : Match) : Prop :=
  within alo hi blo bhi best ∧ matching best.

Lemma matching_extend i j k :
  is_Some (item (sm_a self) (i + k)) →
  item (sm_a self) (i + k) = item (sm_b self) (j + k) →
  0 ≤ k → matching (i, j, k) → matching (i, j, k + 1).
Proof.
  intros Hs He Hk Hm t Ht. destruct (decide (t = k)) as [->|Hne]; [done|].
  apply Hm. lia.
Qed.

Lemma scan_row_ok i c j2len js newj2len best :
  alo ≤ i < ahi → item (sm_a self) i = Some c →
  (∀ j, j ∈ js → item (sm_b self) j = Some c) →
  row_ok (i - 1) j2len → row_ok i newj2len → best_ok (i + 1) best →
  row_ok i (scan_row blo bhi i j2len js newj2len best).1
  ∧ best_ok (i + 1) (scan_row blo bhi i j2len js newj2len best).2.
Proof.
  intros Hi Hc. revert newj2len best.
  induction js as [|j js IH]; intros newj2len best Hjs Hprev Hnew Hbest; simpl; [done|].
  case_bool_decide as Hlo; [apply IH; [intros; apply Hjs; by right|done..]|].
  case_bool_decide as Hhi; [done|].
  assert (Hk : 1 ≤ default 0 (j2len !! (j - 1)) + 1
               ∧ default 0 (j2len !! (j - 1)) + 1 ≤ i - alo + 1
               ∧ default 0 (j2len !! (j - 1)) + 1 ≤ j - blo + 1
               ∧ matching (i - (default 0 (j2len !! (j - 1)) + 1) + 1,
                           j - (default 0 (j2len !! (j - 1)) + 1) + 1,
                           default 0 (j2len !! (j - 1)) + 1)).
  { pose proof (Hjs j ltac:(left)) as Hbj.
    destruct (j2len !! (j - 1)) as [k|] eqn:Hlk; simpl.
    - destruct (Hprev _ _ Hlk) as (? & ? & ? & ? & Hm). split_and!; [lia..|].
      replace (i - (k + 1) + 1) with (i - 1 - k + 1) by lia.
      replace (j - (k + 1) + 1) with (j - 1 - k + 1) by lia.
      apply matching_extend; [| |lia|done].
      + replace (i - 1 - k + 1 + k) with i by lia. by rewrite Hc.
      + replace (i - 1 - k + 1 + k) with i by lia.
        replace (j - 1 - k + 1 + k) with j by lia. by rewrite Hc, Hbj.
    - split_and!; [lia..|]. intros t Ht. replace t with 0 by lia.
      replace (i - (0 + 1) + 1 + 0) with i by lia.
      replace (j - (0 + 1) + 1 + 0) with j by lia. by rewrite Hc, Hbj. }
  destruct Hk as (Hk1 & Hk2 & Hk3 & Hkm).
  apply IH; [intros; apply Hjs; by right|done| |].
  - intros j' k'. rewrite lookup_insert. case_decide as Hj.
    + intros [= <-]. subst j'. split_and!; [lia..|done].
    + apply Hnew.
  - case_bool_decide; [|done]. split; [|done]. unfold within. lia.
Qed.

Lemma scan_rows_ok (n : nat) : ∀ lo st,
  alo ≤ lo → lo + Z.of_nat n ≤ ahi →
  row_ok (lo - 1) st.1 → best_ok lo st.2 →
  best_ok (lo + Z.of_nat n) (scan_rows self blo bhi (seqZ lo (Z.of_nat n)) st).2.
Proof.
  induction n as [|n IH]; intros lo [j2len best] Hlo Hhi Hrow Hbest; simpl in Hrow, Hbest.
  - rewrite seqZ_nil by lia. simpl. by rewrite Z.add_0_r.
  - rewrite seqZ_cons by lia. unfold scan_rows. simpl. fold (scan_rows self blo bhi).
    replace (Z.pred (Z.of_nat (S n))) with (Z.of_nat n) by lia.
    replace (lo + Z.of_nat (S n)) with (Z.succ lo + Z.of_nat n) by lia.
    assert (Hwide : best_ok (lo + 1) best).
    { destruct Hbest as [Hw Hm]. split; [|done]. destruct best as [[bi bj] bs].
      unfold within in *. lia. }
    assert (Hempty : row_ok lo ∅) by (intros j k; by rewrite lookup_empty).
    destruct (item (sm_a self) lo) as [c|] eqn:Hc; simpl.
    + destruct (b2j self !! c) as [js|] eqn:Hjs; simpl.
      * destruct (scan_row_ok lo c j2len js ∅ best) as [Hr Hb];
          [lia|done|by intros; eapply Hb2j|done..|].
        destruct (scan_row blo bhi lo j2len js ∅ best) as [j2len' best'].
        apply IH; [lia|lia| |]; simpl in *.
        -- by replace (Z.succ lo - 1) with lo by lia.
        -- by replace (Z.succ lo) with (lo + 1) by lia.
      * apply IH; [lia|lia| |]; simpl.
        -- by replace (Z.succ lo - 1) with lo by lia.
        -- by replace (Z.succ lo) with (lo + 1) by lia.
    + apply IH; [lia|lia| |]; simpl.
      * by replace (Z.succ lo - 1) with lo by lia.
      * by replace (Z.succ lo) with (lo + 1) by lia.
Qed.

Lemma same_item_true (x y : option A) :
  same_item x y = true → is_Some x ∧ x = y.
Proof.
  destruct x as [u|], y as [v|]; simpl; try done.
  intros ->%bool_decide_eq_true. eauto.
Qed.

Lemma back_step_ok junk hi m :
  best_ok hi m → back_cond self alo blo junk m = true → best_ok hi (back_body m).
Proof.
  destruct m as [[bi bj] bs]. intros [Hw Hm] Hc. unfold back_cond in Hc.
  apply andb_prop in Hc as [Hc Hsame]. apply andb_prop in Hc as [Hc _].
  apply andb_prop in Hc as [Hi%bool_decide_eq_true Hj%bool_decide_eq_true].
  apply same_item_true in Hsame as [Hsome Heq].
  split; [unfold within in *; simpl; lia|].
  intros t Ht. destruct (decide (t = 0)) as [->|Hne].
  - by rewrite !Z.add_0_r.
  - replace (bi - 1 + t) with (bi + (t - 1)) by lia.
    replace (bj - 1 + t) with (bj + (t - 1)) by lia.
    apply Hm. lia.
Qed.

Lemma forth_step_ok junk m :
  best_ok ahi m → forth_cond self ahi bhi junk m = true → best_ok ahi (forth_body m).
Proof.
  destruct m as [[bi bj] bs]. intros [Hw Hm] Hc. unfold forth_cond in Hc.
  apply andb_prop in Hc as [Hc Hsame]. apply andb_prop in Hc as [Hc _].
  apply andb_prop in Hc as [Hi%bool_decide_eq_true Hj%bool_decide_eq_true].
  apply same_item_true in Hsame as [Hsome Heq].
  split; [unfold within in *; simpl; lia|].
  apply matching_extend; [done|done|unfold within in Hw; lia|done].
Qed.

Lemma extend_back_ok junk hi m :
  best_ok hi m → best_ok hi (extend_back self alo blo junk m).
Proof.
  intros Hm. unfold extend_back. apply while_invariant; [done|].
  intros s Hs Hc. by eapply back_step_ok.
Qed.

Lemma extend_forth_ok junk m :
  best_ok ahi m → best_ok ahi (extend_forth self ahi bhi junk m).
Proof.
  intros Hm. unfold extend_forth. apply while_invariant; [done|].
  intros s Hs Hc. by eapply forth_step_ok.
Qed.

(** The extension loops are left because their guards fail. *)
Lemma extend_back_exit junk m :
  back_cond self alo blo junk (extend_back self alo blo junk m) = false.
Proof.
  unfold extend_back.
  apply (while_exit (λ _, True) (λ s : Match, Z.to_nat (s.1.1 - alo))); [done| |done].
  intros [[bi bj] bs] _ Hc. split; [done|]. unfold back_cond in Hc.
  apply andb_prop in Hc as [Hc _]. apply andb_prop in Hc as [Hc _].
  apply andb_prop in Hc as [Hi%bool_decide_eq_true _]. simpl. lia.
Qed.

Lemma extend_forth_exit junk m :
  forth_cond self ahi bhi junk (extend_forth self ahi bhi junk m) = false.
Proof.
  unfold extend_forth.
  apply (while_exit (λ _, True) (λ s : Match, Z.to_nat (ahi - (s.1.1 + size s))));
    [done| |done].
  intros [[bi bj] bs] _ Hc. split; [done|]. unfold forth_cond in Hc.
  apply andb_prop in Hc as [Hc _]. apply andb_prop in Hc as [Hc _].
  apply andb_prop in Hc as [Hi%bool_decide_eq_true _]. unfold size. simpl. lia.
Qed.

(** [find_longest_match] returns a common block of [a[alo:ahi]] and
    [b[blo:bhi]]. *)
Lemma find_longest_match_ok :
  alo ≤ ahi → blo ≤ bhi →
  best_ok ahi (find_longest_match self alo ahi blo bhi).
Proof.
  intros Ha Hb. unfold find_longest_match.
  apply extend_forth_ok, extend_back_ok, extend_forth_ok, extend_back_ok.
  replace (ahi - alo) with (Z.of_nat (Z.to_nat (ahi - alo))) by lia.
  replace ahi with (alo + Z.of_nat (Z.to_nat (ahi - alo))) at 1 by lia.
  apply scan_rows_ok; simpl; [lia|lia| |].
  - intros j k. by rewrite lookup_empty.
  - split; [unfold within; lia|]. intros t Ht. lia.
Qed.

End find_longest_match_facts.

(** *** The queue of [get_matching_blocks] *)

Definition queue_ok (queue : list (Z * Z * Z * Z)) : Prop :=
  Forall (λ '(alo, ahi, blo, bhi), alo ≤ ahi ∧ blo ≤ bhi) queue.

Definition blocks_ok (blocks : list Match) : Prop :=
  Forall (λ m, matching m ∧ 0 ≤ size m) blocks.

(** What is left of [a] (of [b]) in the queue, plus what the blocks cover. *)
Definition span_a (st : list (Z * Z * Z * Z) * list Match) : Z :=
  sum_sizes st.2 + foldr (λ '(alo, ahi, _, _) acc, (ahi - alo) + acc) 0 st.1.

Definition span_b (st : list (Z * Z * Z * Z) * list Match) : Z :=
  sum_sizes st.2 + foldr (λ '(_, _, blo, bhi) acc, (bhi - blo) + acc) 0 st.1.

Definition turns_left (st : list (Z * Z * Z * Z) * list Match) : Z :=
  foldr (λ '(alo, ahi, _, _) acc, (2 * (ahi - alo) + 1) + acc) 0 st.1.

Definition state_ok (la lb : Z) (st : list (Z * Z * Z * Z) * list Match) : Prop :=
  queue_ok st.1 ∧ blocks_ok st.2 ∧ span_a st ≤ la ∧ span_b st ≤ lb.

Lemma sum_sizes_app (l l' : list Match) :
  sum_sizes (l ++ l') = sum_sizes l + sum_sizes l'.
Proof. induction l as [|m l IH]; simpl; [done|]. rewrite IH. lia. Qed.

Lemma turns_left_nonneg st : queue_ok st.1 → 0 ≤ turns_left st.
Proof.
  destruct st as [queue blocks]. unfold turns_left. simpl.
  induction 1 as [|[[[alo ahi] blo] bhi] queue [? ?] _ IH]; simpl; lia.
Qed.

Lemma queue_step_ok (Hb2j : b2j_sound) la lb st :
  state_ok la lb st → queue_nonempty st = true →
  state_ok la lb (queue_step self st)
  ∧ (Z.to_nat (turns_left (queue_step self st)) < Z.to_nat (turns_left st))%nat.
Proof.
  destruct st as [[|[[[alo ahi] blo] bhi] queue] blocks]; [done|].
  intros (Hq & Hbl & Hsa & Hsb) _. apply Forall_cons in Hq as [[Ha Hb] Hq].
  pose proof (find_longest_match_ok alo ahi blo bhi Hb2j Ha Hb) as [Hw Hm].
  pose proof (turns_left_nonneg (queue, blocks) Hq) as Hnn.
  unfold queue_step.
  destruct (find_longest_match self alo ahi blo bhi) as [[i j] k] eqn:Hflm.
  unfold within in Hw. unfold state_ok, span_a, span_b, turns_left in *. simpl in *.
  case_bool_decide as Hk; simpl; [|split; [split_and!; [done|done|lia|lia]|lia]].
  assert (Hbl' : blocks_ok (blocks ++ [(i, j, k)])).
  { apply Forall_app. split; [done|]. apply Forall_singleton. split; [done|]. simpl. lia. }
  case_bool_decide as H1; case_bool_decide as H2; simpl;
    (split; [split_and!; [repeat (apply Forall_cons; split; [lia|]); done | done
                         | rewrite sum_sizes_app; simpl; lia
                         | rewrite sum_sizes_app; simpl; lia]
            | lia]).
Qed.

(** The loop [while queue:] is left with an empty queue. *)
Lemma queue_loop_ok (Hb2j : b2j_sound) (la lb : Z) :
  0 ≤ la → 0 ≤ lb →
  state_ok la lb
    (while (Z.to_nat (2 * la + 1)) queue_nonempty (queue_step self) ([(0, la, 0, lb)], []))
  ∧ (while (Z.to_nat (2 * la + 1)) queue_nonempty (queue_step self)
       ([(0, la, 0, lb)], [])).1 = [].
Proof.
  intros Hla Hlb.
  assert (Hinit : state_ok la lb ([(0, la, 0, lb)], [])).
  { unfold state_ok, span_a, span_b. simpl.
    split_and!; [by apply Forall_singleton|by apply Forall_nil|lia|lia]. }
  split.
  - apply while_invariant; [done|]. intros st Hst Hc.
    by destruct (queue_step_ok Hb2j la lb st Hst Hc).
  - pose proof (while_exit (state_ok la lb) (λ st, Z.to_nat (turns_left st))
                  (Z.to_nat (2 * la + 1)) queue_nonempty (queue_step self)
                  ([(0, la, 0, lb)], []) Hinit (queue_step_ok Hb2j la lb)) as Hexit.
    unfold queue_nonempty in Hexit at 1.
    destruct (while _ _ _ _).1; [done|].
    discriminate Hexit. unfold turns_left. simpl. lia.
Qed.

Lemma sum_sizes_Permutation (l l' : list Match) : l ≡ₚ l' → sum_sizes l = sum_sizes l'.
Proof. induction 1; simpl; lia. Qed.

Lemma matching_join i j k k' :
  0 ≤ k → matching (i, j, k) → matching (i + k, j + k, k') → matching (i, j, k + k').
Proof.
  intros Hk Hm Hm' t Ht. destruct (decide (t < k)) as [Hlt|Hge]; [apply Hm; lia|].
  replace (i + t) with (i + k + (t - k)) by lia.
  replace (j + t) with (j + k + (t - k)) by lia. apply Hm'. lia.
Qed.

(** The loop that collapses adjacent blocks keeps the blocks matching and
    their total size. *)
Lemma collapse_ok (l : list Match) : ∀ i1 j1 k1 acc,
  blocks_ok l → blocks_ok acc → matching (i1, j1, k1) → 0 ≤ k1 →
  let '((i1', j1', k1'), acc') := foldl collapse_step ((i1, j1, k1), acc) l in
  blocks_ok acc' ∧ matching (i1', j1', k1') ∧ 0 ≤ k1'
  ∧ k1' + sum_sizes acc' = k1 + sum_sizes acc + sum_sizes l.
Proof.
  induction l as [|[[i2 j2] k2] l IH]; intros i1 j1 k1 acc Hl Hacc Hm Hk; simpl.
  - split_and!; [done|done|done|lia].
  - apply Forall_cons in Hl as [[Hm2 Hk2] Hl]. simpl in Hk2.
    case_bool_decide as Hadj.
    + destruct Hadj as [<- <-].
      specialize (IH i1 j1 (k1 + k2) acc Hl Hacc
                    (matching_join _ _ _ _ Hk Hm Hm2) ltac:(lia)).
      destruct (foldl collapse_step _ l) as [[[i1' j1'] k1'] acc'].
      destruct IH as (? & ? & ? & ?). unfold size. simpl. split_and!; [done..|lia].
    + set (acc2 := if bool_decide (k1 ≠ 0) then acc ++ [(i1, j1, k1)] else acc).
      assert (Hacc2 : blocks_ok acc2 ∧ sum_sizes acc2 = sum_sizes acc + k1).
      { unfold acc2. case_bool_decide as Hk1.
        - split; [|rewrite sum_sizes_app; unfold size; simpl; lia].
          apply Forall_app. split; [done|]. by apply Forall_singleton.
        - split; [done|]. lia. }
      destruct Hacc2 as [Hacc2 Hsum].
      specialize (IH i2 j2 k2 acc2 Hl Hacc2 Hm2 Hk2).
      destruct (foldl collapse_step _ l) as [[[i1' j1'] k1'] acc'].
      destruct IH as (? & ? & ? & ?). unfold size. simpl. split_and!; [done..|lia].
Qed.

(** [get_matching_blocks] returns common blocks of [a] and [b] whose sizes
    add up to at most the length of [a] and at most the length of [b]. *)
Lemma get_matching_blocks_ok (Hb2j : b2j_sound) :
  blocks_ok (get_matching_blocks self)
  ∧ 0 ≤ sum_sizes (get_matching_blocks self)
  ∧ sum_sizes (get_matching_blocks self) ≤ Z.of_nat (length (sm_a self))
  ∧ sum_sizes (get_matching_blocks self) ≤ Z.of_nat (length (sm_b self)).
Proof.
  unfold get_matching_blocks.
  set (la := Z.of_nat (length (sm_a self))). set (lb := Z.of_nat (length (sm_b self))).
  destruct (queue_loop_ok Hb2j la lb ltac:(lia) ltac:(lia)) as [Hok Hq].
  destruct (while _ _ _ _) as [queue blocks]. simpl in Hq. subst queue.
  destruct Hok as (_ & Hbl & Hsa & Hsb). unfold span_a, span_b in Hsa, Hsb. simpl in *.
  pose proof (merge_sort_Permutation Match_le blocks) as Hperm.
  assert (Hsorted : blocks_ok (merge_sort Match_le blocks)).
  { unfold blocks_ok. by rewrite Hperm. }
  pose proof (collapse_ok (merge_sort Match_le blocks) 0 0 0 [] Hsorted
                ltac:(by apply Forall_nil) ltac:(intros t Ht; lia) ltac:(lia)) as Hc.
  destruct (foldl collapse_step _ _) as [[[i1 j1] k1] acc].
  destruct Hc as (Hacc & Hm & Hk & Hsum).
  rewrite (sum_sizes_Permutation _ _ Hperm) in Hsum. simpl in Hsum.
  assert (Hnn : 0 ≤ sum_sizes acc).
  { clear -Hacc. induction Hacc as [|m l [_ ?] _ IH]; simpl; lia. }
  assert (Hz : matching (la, lb, 0) ∧ 0 ≤ size (la, lb, 0)).
  { split; [intros t Ht; lia|done]. }
  case_bool_decide as Hk1.
  - rewrite !sum_sizes_app. unfold size. simpl. split_and!; [|lia..].
    apply Forall_app. split; [|by apply Forall_singleton].
    apply Forall_app. split; [done|]. by apply Forall_singleton.
  - rewrite !sum_sizes_app. unfold size. simpl.
    split_and!; [|lia..]. apply Forall_app. split; [done|]. by apply Forall_singleton.
Qed.

(** *** The blocks do not overlap *)

(** A region [a[alo:ahi]], [b[blo:bhi]]: a queue entry, or what a block
    covers. *)
Definition region : Type := Z * Z * Z * Z.

Definition block_region (m : Match) : region :=
  let '(i, j, k) := m in (i, i + k, j, j + k).

(** [r1] ends, in [a] and in [b], where [r2] begins or earlier. *)
Definition before (r1 r2 : region) : Prop :=
  let '(_, ahi1, _, bhi1) := r1 in
  let '(alo2, _, blo2, _) := r2 in
  ahi1 ≤ alo2 ∧ bhi1 ≤ blo2.

Definition apart (r1 r2 : region) : Prop := before r1 r2 ∨ before r2 r1.

Definition inside (r q : region) : Prop :=
  let '(alo, ahi, blo, bhi) := r in
  let '(alo', ahi', blo', bhi') := q in
  alo' ≤ alo ∧ ahi ≤ ahi' ∧ blo' ≤ blo ∧ bhi ≤ bhi'.

Lemma apart_sym r1 r2 : apart r1 r2 → apart r2 r1.
Proof. unfold apart. tauto. Qed.

Lemma apart_inside r q x : inside r q → apart q x → apart r x.
Proof.
  destruct r as [[[? ?] ?] ?], q as [[[? ?] ?] ?], x as [[[? ?] ?] ?].
  unfold inside, apart, before. lia.
Qed.

Fixpoint pairwise_apart (l : list region) : Prop :=
  match l with
  | [] => True
  | r :: l' => Forall (apart r) l' ∧ pairwise_apart l'
  end.

Definition disjoint_state (st : list region * list Match) : Prop :=
  pairwise_apart st.1
  ∧ NoDup st.2
  ∧ Forall (λ m, 0 < size m) st.2
  ∧ (∀ x y, x ∈ st.2 → y ∈ st.2 → x = y ∨ apart (block_region x) (block_region y))
  ∧ (∀ x q, x ∈ st.2 → q ∈ st.1 → apart (block_region x) q).

(** Pushing a part of the entry just popped keeps the queue and the blocks
    apart. *)
Lemma push_inside (r q0 : region) (queue : list region) (blocks : list Match) (c : bool) :
  inside r q0 → Forall (apart r) queue → pairwise_apart queue →
  (∀ x, x ∈ blocks → apart (block_region x) q0 ∨ apart (block_region x) r) →
  (∀ x q, x ∈ blocks → q ∈ queue → apart (block_region x) q) →
  pairwise_apart (if c then r :: queue else queue)
  ∧ (∀ x q, x ∈ blocks → q ∈ (if c then r :: queue else queue) → apart (block_region x) q).
Proof.
  intros Hin Hr Hpw Hb Hbq. destruct c; [|done]. split; [done|].
  intros x q Hx [->|Hq]%elem_of_cons; [|by apply Hbq].
  destruct (Hb x Hx) as [Hx0|?]; [|done].
  by apply apart_sym, (apart_inside r q0), apart_sym.
Qed.

Lemma queue_step_disjoint (Hb2j : b2j_sound) la lb st :
  state_ok la lb st → disjoint_state st → disjoint_state (queue_step self st).
Proof.
  destruct st as [[|[[[alo ahi] blo] bhi] queue] blocks]; [done|].
  intros (Hq & _) (Hpw & Hnd & Hpos & Hbb & Hbq). simpl in *.
  apply Forall_cons in Hq as [[Ha Hb] Hq]. destruct Hpw as [Hq0 Hpw].
  pose proof (find_longest_match_ok alo ahi blo bhi Hb2j Ha Hb) as [Hw _].
  unfold queue_step.
  destruct (find_longest_match self alo ahi blo bhi) as [[i j] k] eqn:Hflm.
  unfold within in Hw.
  assert (Hrest : ∀ x q, x ∈ blocks → q ∈ queue → apart (block_region x) q).
  { intros x q Hx Hq'. apply Hbq; [done|by right]. }
  case_bool_decide as Hk; [|by split_and!].
  assert (Hin : inside (block_region (i, j, k)) (alo, ahi, blo, bhi))
    by (unfold inside; simpl; lia).
  assert (Hnew : ∀ x, x ∈ blocks → apart (block_region x) (block_region (i, j, k))).
  { intros x Hx. apply apart_sym, (apart_inside _ (alo, ahi, blo, bhi)); [done|].
    apply apart_sym, Hbq; [done|by left]. }
  assert (Hfresh : (i, j, k) ∉ blocks).
  { intros Hx. specialize (Hnew _ Hx). unfold apart, before in Hnew. simpl in Hnew. lia. }
  set (blocks' := blocks ++ [(i, j, k)]).
  assert (Hb0 : ∀ x, x ∈ blocks' → apart (block_region x) (alo, ahi, blo, bhi)
                                 ∨ x = (i, j, k)).
  { intros x [Hx| ->%list_elem_of_singleton]%elem_of_app; [|by right].
    left. apply Hbq; [done|by left]. }
  assert (Hrest' : ∀ x q, x ∈ blocks' → q ∈ queue → apart (block_region x) q).
  { intros x q [Hx| ->%list_elem_of_singleton]%elem_of_app Hq'; [by apply Hrest|].
    apply (apart_inside _ (alo, ahi, blo, bhi)); [done|].
    rewrite Forall_forall in Hq0. by apply Hq0. }
  assert (Hsub : ∀ r, inside r (alo, ahi, blo, bhi) → Forall (apart r) queue).
  { intros r Hr. eapply Forall_impl; [exact Hq0|]. intros x. by apply apart_inside. }
  destruct (push_inside (alo, i, blo, j) (alo, ahi, blo, bhi) queue blocks'
              (bool_decide (alo < i ∧ blo < j))) as [Hpw1 Hbq1];
    [unfold inside; lia|apply Hsub; unfold inside; lia|done| |done|].
  { intros x Hx. destruct (Hb0 x Hx) as [?| ->]; [by left|right].
    unfold apart, before. simpl. lia. }
  destruct (push_inside (i + k, ahi, j + k, bhi) (alo, ahi, blo, bhi)
              (if bool_decide (alo < i ∧ blo < j) then (alo, i, blo, j) :: queue else queue)
              blocks' (bool_decide (i + k < ahi ∧ j + k < bhi))) as [Hpw2 Hbq2];
    [unfold inside; lia| |done| |done|].
  { assert (Forall (apart (i + k, ahi, j + k, bhi)) queue)
      by (apply Hsub; unfold inside; lia).
    case_bool_decide; [|done]. apply Forall_cons. split; [|done].
    unfold apart, before. lia. }
  { intros x Hx. destruct (Hb0 x Hx) as [?| ->]; [by left|right].
    unfold apart, before. simpl. lia. }
  split_and!; simpl; [done| | | |done].
  - apply NoDup_app. split_and!; [done| |apply NoDup_singleton].
    intros x Hx ->%list_elem_of_singleton. done.
  - apply Forall_app. split; [done|]. apply Forall_singleton. simpl. lia.
  - intros x y [Hx| ->%list_elem_of_singleton]%elem_of_app
               [Hy| ->%list_elem_of_singleton]%elem_of_app.
    + by apply Hbb.
    + right. by apply Hnew.
    + right. by apply apart_sym, Hnew.
    + by left.
Qed.

(** The order of [matching_blocks.sort()] is total. *)
#[local] Instance Match_le_total : Total Match_le.
Proof. intros [[i1 j1] k1] [[i2 j2] k2]. unfold Match_le. lia. Qed.

#[local] Instance Match_le_trans : Transitive Match_le.
Proof. intros [[i1 j1] k1] [[i2 j2] k2] [[i3 j3] k3]. unfold Match_le. lia. Qed.

(** The first block ends, in [a] and in [b], where the second begins or
    earlier. *)
Definition block_before (x y : Match) : Prop := before (block_region x) (block_region y).

Lemma sorted_blocks_before (l : list Match) :
  StronglySorted Match_le l → NoDup l → Forall (λ m, 0 < size m) l →
  (∀ x y, x ∈ l → y ∈ l → x = y ∨ apart (block_region x) (block_region y)) →
  StronglySorted block_before l.
Proof.
  induction 1 as [|x l Hs IH Hle]; intros Hnd Hpos Hap; [constructor|].
  apply NoDup_cons in Hnd as [Hx Hnd]. apply Forall_cons in Hpos as [Hkx Hpos].
  constructor.
  - apply IH; [done|done|]. intros y z Hy Hz. apply Hap; by right.
  - rewrite Forall_forall in Hle, Hpos |- *. intros y Hy.
    specialize (Hle y Hy). specialize (Hpos y Hy).
    destruct (Hap x y ltac:(left) ltac:(by right)) as [->|Hxy]; [done|].
    destruct x as [[i1 j1] k1], y as [[i2 j2] k2].
    unfold block_before, apart, before, Match_le, size in *. simpl in *. lia.
Qed.

Lemma block_before_trans x y z :
  0 ≤ size y → block_before x y → block_before y z → block_before x z.
Proof.
  destruct x as [[i1 j1] k1], y as [[i2 j2] k2], z as [[i3 j3] k3].
  unfold block_before, before, size. simpl. lia.
Qed.

Lemma collapse_ordered (l : list Match) : ∀ cur acc,
  StronglySorted block_before l → Forall (λ m, 0 < size m) l →
  Forall (block_before cur) l → 0 ≤ size cur →
  StronglySorted block_before acc → Forall (λ y, block_before y cur) acc →
  Forall (λ m, 0 < size m) acc →
  StronglySorted block_before (foldl collapse_step (cur, acc) l).2
  ∧ Forall (λ y, block_before y (foldl collapse_step (cur, acc) l).1)
      (foldl collapse_step (cur, acc) l).2
  ∧ 0 ≤ size (foldl collapse_step (cur, acc) l).1
  ∧ Forall (λ m, 0 < size m) (foldl collapse_step (cur, acc) l).2.
Proof.
  induction l as [|x l IH]; intros cur acc Hs Hpos Hcur Hk Hacc Hbefore Haccpos; simpl.
  { by split_and!. }
  apply StronglySorted_cons in Hs as [Hxl Hs].
  apply Forall_cons in Hpos as [Hkx Hpos]. apply Forall_cons in Hcur as [Hcx Hcur].
  destruct cur as [[i1 j1] k1], x as [[i2 j2] k2]. unfold size in Hk, Hkx. simpl in Hk, Hkx.
  remember (collapse_step (i1, j1, k1, acc) (i2, j2, k2)) as st' eqn:Hst.
  unfold collapse_step in Hst.
  case_bool_decide as Hadj; subst st'.
  - destruct Hadj as [<- <-]. apply IH; [done|done| |unfold size; simpl; lia|done| |done].
    + eapply Forall_impl; [exact Hxl|]. intros [[i3 j3] k3].
      unfold block_before, before. simpl. lia.
    + eapply Forall_impl; [exact Hbefore|]. intros [[i3 j3] k3].
      unfold block_before, before. simpl. lia.
  - assert (Hall : Forall (λ y, block_before y (i2, j2, k2)) acc).
    { eapply Forall_impl; [exact Hbefore|]. intros y Hy.
      by apply (block_before_trans y (i1, j1, k1)). }
    apply IH; [done|done|done|unfold size; simpl; lia| | |].
    + case_bool_decide; [|done]. apply StronglySorted_app_2; [|done|repeat constructor].
      intros y z Hy ->%list_elem_of_singleton. rewrite Forall_forall in Hbefore.
      by apply Hbefore.
    + case_bool_decide; [|done]. apply Forall_app. split; [done|]. by apply Forall_singleton.
    + case_bool_decide; [|done]. apply Forall_app. split; [done|].
      apply Forall_singleton. unfold size. simpl. lia.
Qed.

Lemma matching_bounds i j k :
  0 < k → matching (i, j, k) →
  0 ≤ i ∧ 0 ≤ j ∧ i + k ≤ Z.of_nat (length (sm_a self))
  ∧ j + k ≤ Z.of_nat (length (sm_b self)).
Proof.
  intros Hk Hm.
  destruct (Hm 0 ltac:(lia)) as [[c0 Ha0] Hb0]. rewrite Ha0 in Hb0. symmetry in Hb0.
  destruct (Hm (k - 1) ltac:(lia)) as [[c1 Ha1] Hb1]. rewrite Ha1 in Hb1. symmetry in Hb1.
  unfold item in *. repeat case_bool_decide; try done.
  apply lookup_lt_Some in Ha0, Hb0, Ha1, Hb1. lia.
Qed.

(** The blocks of [get_matching_blocks] are in ascending order and do not
    overlap, neither in [a] nor in [b]. *)
Lemma get_matching_blocks_ordered (Hb2j : b2j_sound) :
  StronglySorted block_before (get_matching_blocks self).
Proof.
  pose proof (get_matching_blocks_ok Hb2j) as (Hfinal & _).
  revert Hfinal. unfold get_matching_blocks.
  set (la := Z.of_nat (length (sm_a self))). set (lb := Z.of_nat (length (sm_b self))).
  assert (Hinv : state_ok la lb
                   (while (Z.to_nat (2 * la + 1)) queue_nonempty (queue_step self)
                      ([(0, la, 0, lb)], []))
                 ∧ disjoint_state
                     (while (Z.to_nat (2 * la + 1)) queue_nonempty (queue_step self)
                        ([(0, la, 0, lb)], []))).
  { apply (while_invariant (λ st, state_ok la lb st ∧ disjoint_state st)).
    - split.
      + unfold state_ok, span_a, span_b. simpl.
        split_and!; [apply Forall_singleton; lia|by apply Forall_nil|lia|lia].
      + split_and!; simpl; [by split|constructor|constructor| |];
          intros x ? Hx; by apply elem_of_nil in Hx.
    - intros st [Hok Hdis] Hc. split.
      + by destruct (queue_step_ok Hb2j la lb st Hok Hc).
      + by apply (queue_step_disjoint Hb2j la lb). }
  destruct Hinv as [(_ & Hbl & _) (_ & Hnd & Hpos & Hap & _)].
  destruct (while _ _ _ _) as [queue blocks]. simpl in *.
  pose proof (merge_sort_Permutation Match_le blocks) as Hperm.
  pose proof (StronglySorted_merge_sort Match_le blocks) as Hsorted.
  apply sorted_blocks_before in Hsorted; [|by rewrite Hperm|by rewrite Hperm|].
  2:{ intros x y. rewrite !Hperm. apply Hap. }
  assert (Hpos' : Forall (λ m, 0 < size m) (merge_sort Match_le blocks)) by by rewrite Hperm.
  assert (Hzero : Forall (block_before (0, 0, 0)) (merge_sort Match_le blocks)).
  { rewrite Forall_forall. intros [[i j] k] Hx.
    rewrite Forall_forall in Hpos'. specialize (Hpos' _ Hx). unfold size in Hpos'.
    simpl in Hpos'. rewrite Hperm in Hx.
    unfold blocks_ok in Hbl. rewrite Forall_forall in Hbl. destruct (Hbl _ Hx) as [Hm _].
    destruct (matching_bounds i j k Hpos' Hm) as (? & ? & _).
    unfold block_before, before. simpl. lia. }
  pose proof (collapse_ordered (merge_sort Match_le blocks) (0, 0, 0) [] Hsorted Hpos' Hzero
                ltac:(done) ltac:(constructor) ltac:(constructor) ltac:(constructor)) as Hc.
  destruct (foldl collapse_step _ _) as [[[i1 j1] k1] acc]. simpl in Hc.
  destruct Hc as (Hacc & Hbefore & Hk1 & Haccpos). unfold size in Hk1. simpl in Hk1.
  intros Hfinal.
  apply StronglySorted_app_2; [| |repeat constructor].
  - intros [[i j] k] z Hy ->%list_elem_of_singleton.
    assert (Hk : 0 < k).
    { case_bool_decide.
      - apply elem_of_app in Hy as [Hy|Hy%list_elem_of_singleton].
        + rewrite Forall_forall in Haccpos. apply (Haccpos _ Hy).
        + injection Hy as -> -> ->. lia.
      - rewrite Forall_forall in Haccpos. apply (Haccpos _ Hy). }
    unfold blocks_ok in Hfinal. rewrite Forall_forall in Hfinal.
    destruct (Hfinal (i, j, k)) as [Hm _]; [apply elem_of_app; by left|].
    destruct (matching_bounds i j k Hk Hm) as (_ & _ & ? & ?).
    unfold block_before, before. simpl. fold la lb. lia.
  - case_bool_decide; [|done]. apply StronglySorted_app_2; [|done|repeat constructor].
    intros y z Hy ->%list_elem_of_singleton. rewrite Forall_forall in Hbefore.
    by apply Hbefore.
Qed.

End blocks.

(** *** [__chain_b] *)
Section chain_b_facts.
Context `{Countable A}.
Implicit Types (a b : list A).

Lemma item_Some_range b j c : item b j = Some c → 0 ≤ j < Z.of_nat (length b).
Proof.
  unfold item. case_bool_decide; [|done]. intros Hl%lookup_lt_Some. lia.
Qed.

Lemma item_snoc b x j c :
  item (b ++ [x]) j = Some c ↔
  item b j = Some c ∨ (j = Z.of_nat (length b) ∧ c = x).
Proof.
  unfold item. case_bool_decide as Hj; [|intuition (try lia; congruence)].
  destruct (decide (Z.to_nat j < length b)%nat) as [Hlt|Hge].
  - rewrite lookup_app_l by done. intuition (try lia; congruence).
  - rewrite lookup_app_r by lia. rewrite (lookup_ge_None_2 b) by lia.
    destruct (Z.to_nat j - length b)%nat as [|m] eqn:Hm; simpl.
    + split; [intros [= ->]; right; split; [lia|done]|].
      intros [?|[_ ->]]; [done|done].
    + split; [done|]. intros [?|[? _]]; [done|lia].
Qed.

Lemma index_elements_snoc b x :
  index_elements (b ++ [x])
  = <[x := default [] (index_elements b !! x) ++ [Z.of_nat (length b)]]> (index_elements b).
Proof.
  unfold index_elements, enumerate. rewrite imap_app, foldl_app. simpl.
  by rewrite Nat.add_0_r.
Qed.

(** What [b2j] holds before the purge: for every element, its positions in
    [b], in ascending order. *)
Definition index_spec b (m : gmap A (list Z)) : Prop :=
  ∀ c, StronglySorted Z.lt (default [] (m !! c))
       ∧ ∀ j, j ∈ default [] (m !! c) ↔ item b j = Some c.

Lemma index_elements_spec b : index_spec b (index_elements b).
Proof.
  induction b as [|x b IH] using rev_ind.
  - intros c. unfold index_elements. simpl. rewrite lookup_empty. simpl.
    split; [constructor|]. intros j. split; [by intros ?%elem_of_nil|].
    unfold item. case_bool_decide; done.
  - intros c. rewrite index_elements_snoc, lookup_insert.
    destruct (IH c) as [Hs Hm]. case_decide as Hc; simpl.
    + subst c. split.
      * apply StronglySorted_app_2; [|done|repeat constructor].
        intros j1 j2 Hj1%Hm%item_Some_range ->%list_elem_of_singleton. lia.
      * intros j. rewrite elem_of_app, list_elem_of_singleton, item_snoc, Hm. tauto.
    + split; [done|]. intros j. rewrite item_snoc, Hm.
      split; [tauto|]. intros [?|[_ ?]]; [done|congruence].
Qed.

(** The purge only removes keys. *)
Lemma b2j_new a b c js :
  b2j (new a b) !! c = Some js → index_elements b !! c = Some js.
Proof.
  unfold new, chain_b. case_bool_decide; simpl; [|done].
  unfold purge. by intros [? _]%map_lookup_filter_Some.
Qed.

Lemma b2j_new_spec a b c js :
  b2j (new a b) !! c = Some js →
  StronglySorted Z.lt js ∧ ∀ j, j ∈ js ↔ item b j = Some c.
Proof.
  intros Hjs%b2j_new. pose proof (index_elements_spec b c) as Hspec.
  by rewrite Hjs in Hspec.
Qed.

Lemma sm_a_new a b : sm_a (new a b) = a.
Proof. unfold new, chain_b. by case_bool_decide. Qed.

Lemma sm_b_new a b : sm_b (new a b) = b.
Proof. unfold new, chain_b. by case_bool_decide. Qed.

Lemma bjunk_new a b : bjunk (new a b) = ∅.
Proof. unfold new, chain_b. by case_bool_decide. Qed.

Lemma b2j_sound_new a b : b2j_sound (new a b).
Proof.
  intros c js j Hjs Hj. rewrite sm_b_new.
  by apply (b2j_new_spec a b c js Hjs).
Qed.

(** *** [ratio] *)

Lemma calculate_ratio_bounds (matches length : Z) :
  0 ≤ matches → 2 * matches ≤ length →
  (0 <= calculate_ratio matches length)%Q ∧ (calculate_ratio matches length <= 1)%Q.
Proof.
  intros Hm Hl. unfold calculate_ratio. case_bool_decide as Hz; [|done].
  unfold Qle. simpl. rewrite Z2Pos.id by lia. lia.
Qed.

(** [ratio] is the quotient of twice the total size of common blocks by the
    total length, and lies between 0 and 1. *)
Lemma ratio_bounds a b :
  (0 <= ratio (new a b))%Q ∧ (ratio (new a b) <= 1)%Q.
Proof.
  destruct (get_matching_blocks_ok (new a b) (b2j_sound_new a b)) as (_ & H0 & Ha & Hb).
  unfold ratio. apply calculate_ratio_bounds; [done|lia].
Qed.

(** *** A sequence against itself *)
Section identical.
Variable a : list A.

(** The position [i] holds an element that the purge has left in [b2j]. *)
Definition kept (i : nat) : bool :=
  bool_decide (is_Some (a !! i ≫= (b2j (new a a) !!.))).

(** The number of kept positions in a row that end just before [m]. *)
Fixpoint run (m : nat) : Z :=
  match m with
  | O => 0
  | S m' => if kept m' then run m' + 1 else 0
  end.

Lemma run_S m : run (S m) = if kept m then run m + 1 else 0.
Proof. done. Qed.

Lemma run_bounds m : 0 ≤ run m ≤ Z.of_nat m.
Proof. induction m as [|m IH]; simpl; [lia|]. destruct (kept m); lia. Qed.

#[local] Arguments run : simpl never.

(** The state of the outer loop of [find_longest_match] before the row [i]:
    the best block is on the diagonal and at least as long as every run of
    kept positions met so far. *)
Definition diag_best (i : nat) (best : Match) (upto : nat) : Prop :=
  ∃ d sz, best = (d, d, sz) ∧ 0 ≤ d ∧ 0 ≤ sz ∧ d + sz ≤ Z.of_nat i
          ∧ ∀ m, (m ≤ upto)%nat → run m ≤ sz.

Definition diag_inv (i : nat) (st : gmap Z Z * Match) : Prop :=
  (∀ j k, st.1 !! j = Some k → 0 ≤ j ∧ k ≤ run i ∧ k ≤ run (Z.to_nat (j + 1)))
  ∧ default 0 (st.1 !! (Z.of_nat i - 1)) = run i
  ∧ diag_best i st.2 i.

(** The state of the inner loop on the row [i], after the positions [pre]. *)
Definition row_inv (i : nat) (pre : list Z) (newj2len : gmap Z Z) (best : Match) : Prop :=
  (∀ j k, newj2len !! j = Some k →
     j ∈ pre ∧ 0 ≤ j ∧ k ≤ run (S i) ∧ k ≤ run (Z.to_nat (j + 1)))
  ∧ (Z.of_nat i ∈ pre → newj2len !! Z.of_nat i = Some (run (S i)))
  ∧ ∃ d sz, best = (d, d, sz) ∧ 0 ≤ d ∧ 0 ≤ sz ∧ d + sz ≤ Z.of_nat (S i)
            ∧ (∀ m, (m ≤ i)%nat → run m ≤ sz)
            ∧ (Z.of_nat i ∈ pre → run (S i) ≤ sz).

Lemma kept_item (c : A) (js : list Z) (j : Z) :
  b2j (new a a) !! c = Some js → item a j = Some c → kept (Z.to_nat j) = true.
Proof.
  intros Hjs Hj. unfold kept. apply bool_decide_eq_true.
  unfold item in Hj. case_bool_decide; [|done]. rewrite Hj. simpl. by rewrite Hjs.
Qed.

Lemma scan_row_diag (i : nat) (c : A) (js : list Z) (j2len : gmap Z Z) :
  a !! i = Some c → b2j (new a a) !! c = Some js →
  (∀ j k, j2len !! j = Some k → 0 ≤ j ∧ k ≤ run i ∧ k ≤ run (Z.to_nat (j + 1))) →
  default 0 (j2len !! (Z.of_nat i - 1)) = run i →
  ∀ post pre newj2len best,
    pre ++ post = js →
    row_inv i pre newj2len best →
    row_inv i js (scan_row 0 (Z.of_nat (length a)) (Z.of_nat i) j2len post newj2len best).1
              (scan_row 0 (Z.of_nat (length a)) (Z.of_nat i) j2len post newj2len best).2.
Proof.
  intros Hc Hjs Hprev Hdiag.
  destruct (b2j_new_spec a a c js Hjs) as [Hsorted Hmem].
  assert (Hki : kept i = true).
  { unfold kept. apply bool_decide_eq_true. rewrite Hc. simpl. by rewrite Hjs. }
  assert (Hrun : run (S i) = run i + 1) by (by rewrite run_S, Hki).
  induction post as [|j post IH]; intros pre newj2len best Hsplit Hinv; simpl.
  { by rewrite app_nil_r in Hsplit; subst pre. }
  assert (Hj : item a j = Some c).
  { apply Hmem. rewrite <- Hsplit. apply elem_of_app. right. by left. }
  pose proof (item_Some_range _ _ _ Hj) as Hrange.
  rewrite bool_decide_eq_false_2 by lia. rewrite bool_decide_eq_false_2 by lia.
  apply (IH (pre ++ [j])); [by rewrite <- app_assoc|]. clear IH.
  set (k := default 0 (j2len !! (j - 1)) + 1).
  assert (Hk : k ≤ run (S i) ∧ k ≤ run (Z.to_nat (j + 1))).
  { assert (Hkj : kept (Z.to_nat j) = true) by by eapply kept_item.
    replace (Z.to_nat (j + 1)) with (S (Z.to_nat j)) by lia.
    rewrite (run_S (Z.to_nat j)), Hkj, Hrun. unfold k.
    destruct (j2len !! (j - 1)) as [k'|] eqn:Hk'; simpl.
    - destruct (Hprev _ _ Hk') as (_ & ? & ?).
      replace (Z.to_nat (j - 1 + 1)) with (Z.to_nat j) in * by lia. lia.
    - pose proof (run_bounds i). pose proof (run_bounds (Z.to_nat j)). lia. }
  rewrite <- Hsplit in Hsorted.
  apply StronglySorted_app in Hsorted as (Hlt & _ & Hpost).
  apply StronglySorted_cons in Hpost as [Hgt _].
  assert (Hnotin : j ∉ pre).
  { intros Hin. specialize (Hlt j j Hin ltac:(left)). lia. }
  destruct Hinv as (Hnew & Hentry & d & sz & -> & Hd & Hsz & Hsum & Hruns & Hrow).
  split_and!.
  - intros j' k'. rewrite lookup_insert. case_decide as Hjj.
    + intros [= <-]. subst j'. split; [apply elem_of_app; right; by left|]. lia.
    + intros Hl. destruct (Hnew _ _ Hl) as (? & ? & ? & ?).
      split; [apply elem_of_app; by left|done].
  - intros [Hin|Hin%list_elem_of_singleton]%elem_of_app.
    + rewrite lookup_insert_ne by (intros ->; done). by apply Hentry.
    + subst j. rewrite lookup_insert_eq. f_equal. unfold k. rewrite Hdiag. lia.
  - unfold size. simpl. case_bool_decide as Hupd.
    + assert (Hji : j = Z.of_nat i).
      { destruct (Z.lt_trichotomy j (Z.of_nat i)) as [Hlti|[?|Hgti]]; [|done|].
        - specialize (Hruns (Z.to_nat (j + 1)) ltac:(lia)). lia.
        - assert (Hin : Z.of_nat i ∈ pre).
          { assert (Hall : Z.of_nat i ∈ pre ++ j :: post).
            { rewrite Hsplit. apply Hmem. unfold item.
              rewrite bool_decide_eq_true_2 by lia. by rewrite Nat2Z.id. }
            apply elem_of_app in Hall as [?|[Heq|Hp]%elem_of_cons]; [done|lia|].
            rewrite Forall_forall in Hgt. specialize (Hgt _ Hp). lia. }
          specialize (Hrow Hin). lia. }
      subst j. exists (Z.of_nat i - k + 1), k.
      pose proof (run_bounds (S i)).
      split_and!; [done|lia|lia|lia| |intros _; lia].
      intros m Hm. specialize (Hruns m Hm). lia.
    + exists d, sz. split_and!; [done..|].
      intros [Hin|Hin%list_elem_of_singleton]%elem_of_app; [by apply Hrow|].
      subst j. unfold k in Hupd. rewrite Hdiag in Hupd. lia.
Qed.

Lemma item_of_nat (i : nat) : item a (Z.of_nat i) = a !! i.
Proof. unfold item. rewrite bool_decide_eq_true_2 by lia. by rewrite Nat2Z.id. Qed.

Lemma row_diag (i : nat) (j2len : gmap Z Z) (best : Match) :
  (i < length a)%nat → diag_inv i (j2len, best) →
  diag_inv (S i)
    (scan_row 0 (Z.of_nat (length a)) (Z.of_nat i) j2len
       (default [] (item a (Z.of_nat i) ≫= (b2j (new a a) !!.))) ∅ best).
Proof.
  intros Hi Hinv. unfold diag_inv, diag_best in Hinv. simpl in Hinv.
  destruct Hinv as (Hprev & Hdiag & d & sz & -> & Hd & Hsz & Hsum & Hruns).
  destruct (lookup_lt_is_Some_2 a i Hi) as [c Hc]. rewrite item_of_nat, Hc. simpl.
  destruct (b2j (new a a) !! c) as [js|] eqn:Hjs; simpl.
  - assert (Hinit : row_inv i [] ∅ (d, d, sz)).
    { split_and!.
      - intros j k. by rewrite lookup_empty.
      - by intros ?%elem_of_nil.
      - exists d, sz. split_and!; [done|done|done|lia|done|by intros ?%elem_of_nil]. }
    pose proof (scan_row_diag i c js j2len Hc Hjs Hprev Hdiag js [] ∅ (d, d, sz)
                  eq_refl Hinit) as Hrow.
    destruct (scan_row _ _ _ _ js ∅ (d, d, sz)) as [newj2len best']. simpl in Hrow.
    destruct Hrow as (Hnew & Hentry & d' & sz' & -> & Hd' & Hsz' & Hsum' & Hruns' & Hrow).
    assert (Hin : Z.of_nat i ∈ js).
    { apply (b2j_new_spec a a c js Hjs). by rewrite item_of_nat. }
    split_and!; simpl.
    + intros j k Hl. by destruct (Hnew j k Hl) as (_ & ? & ? & ?).
    + replace (Z.of_nat (S i) - 1) with (Z.of_nat i) by lia. by rewrite (Hentry Hin).
    + exists d', sz'. split_and!; [done..|].
      intros m Hm. destruct (decide (m = S i)) as [->|Hne]; [by apply Hrow|].
      apply Hruns'. lia.
  - assert (Hk : kept i = false).
    { unfold kept. apply bool_decide_eq_false. rewrite Hc. simpl. rewrite Hjs.
      by intros [? ?]. }
    split_and!; simpl.
    + intros j k. by rewrite lookup_empty.
    + rewrite lookup_empty, run_S, Hk. done.
    + exists d, sz. split_and!; [done|done|done|lia|].
      intros m Hm. destruct (decide (m = S i)) as [->|Hne]; [rewrite run_S, Hk; lia|].
      apply Hruns. lia.
Qed.

Lemma scan_rows_diag (m : nat) : ∀ (i : nat) st,
  (i + m = length a)%nat → diag_inv i st →
  diag_inv (length a)
    (scan_rows (new a a) 0 (Z.of_nat (length a)) (seqZ (Z.of_nat i) (Z.of_nat m)) st).
Proof.
  induction m as [|m IH]; intros i [j2len best] Him Hinv.
  - rewrite seqZ_nil by lia. simpl. by replace (length a) with i by lia.
  - rewrite seqZ_cons by lia.
    replace (Z.pred (Z.of_nat (S m))) with (Z.of_nat m) by lia.
    replace (Z.succ (Z.of_nat i)) with (Z.of_nat (S i)) by lia.
    change (diag_inv (length a)
              (scan_rows (new a a) 0 (Z.of_nat (length a))
                 (seqZ (Z.of_nat (S i)) (Z.of_nat m))
                 (scan_row 0 (Z.of_nat (length a)) (Z.of_nat i) j2len
                    (default [] (item (sm_a (new a a)) (Z.of_nat i) ≫= (b2j (new a a) !!.)))
                    ∅ best))).
    apply IH; [lia|]. rewrite sm_a_new. apply row_diag; [lia|done].
Qed.

Lemma back_cond_diag (f : nat) (sz : Z) :
  (f < length a)%nat →
  back_cond (new a a) 0 0 false (Z.of_nat (S f), Z.of_nat (S f), sz) = true.
Proof.
  intros Hf. unfold back_cond, isbjunk. rewrite sm_a_new, sm_b_new, bjunk_new.
  replace (Z.of_nat (S f) - 1) with (Z.of_nat f) by lia. rewrite item_of_nat.
  destruct (lookup_lt_is_Some_2 a f Hf) as [c ->]. simpl.
  rewrite (bool_decide_eq_true_2 (c = c)) by done.
  by rewrite (bool_decide_eq_false_2 (c ∈ (∅ : gset A))) by set_solver.
Qed.

Lemma extend_back_diag (f : nat) : ∀ sz,
  (f ≤ length a)%nat →
  while f (back_cond (new a a) 0 0 false) back_body (Z.of_nat f, Z.of_nat f, sz)
  = (0, 0, sz + Z.of_nat f).
Proof.
  induction f as [|f IH]; intros sz Hf.
  - simpl. by rewrite Z.add_0_r.
  - cbn [while]. rewrite back_cond_diag by lia. unfold back_body.
    replace (Z.of_nat (S f) - 1) with (Z.of_nat f) by lia.
    rewrite IH by lia. f_equal. lia.
Qed.

Lemma forth_cond_diag (s : Z) :
  0 ≤ s < Z.of_nat (length a) →
  forth_cond (new a a) (Z.of_nat (length a)) (Z.of_nat (length a)) false (0, 0, s) = true.
Proof.
  intros Hs. unfold forth_cond, isbjunk. rewrite sm_a_new, sm_b_new, bjunk_new.
  rewrite Z.add_0_l. replace s with (Z.of_nat (Z.to_nat s)) by lia. rewrite item_of_nat.
  destruct (lookup_lt_is_Some_2 a (Z.to_nat s) ltac:(lia)) as [c ->]. simpl.
  rewrite (bool_decide_eq_true_2 (Z.of_nat (Z.to_nat s) < Z.of_nat (length a))) by lia.
  rewrite (bool_decide_eq_true_2 (c = c)) by done.
  by rewrite (bool_decide_eq_false_2 (c ∈ (∅ : gset A))) by set_solver.
Qed.

Lemma extend_forth_diag (f : nat) : ∀ s,
  0 ≤ s → s + Z.of_nat f = Z.of_nat (length a) →
  while f (forth_cond (new a a) (Z.of_nat (length a)) (Z.of_nat (length a)) false)
    forth_body (0, 0, s)
  = (0, 0, Z.of_nat (length a)).
Proof.
  induction f as [|f IH]; intros s Hs Hf.
  - simpl. do 2 f_equal. lia.
  - cbn [while]. rewrite forth_cond_diag by lia. unfold forth_body.
    apply IH; lia.
Qed.

(** The longest block of a sequence against itself is the whole sequence. *)
Lemma find_longest_match_identical :
  find_longest_match (new a a) 0 (Z.of_nat (length a)) 0 (Z.of_nat (length a))
  = (0, 0, Z.of_nat (length a)).
Proof.
  unfold find_longest_match.
  pose proof (scan_rows_diag (length a) 0 (∅, (0, 0, 0)) eq_refl) as Hd.
  rewrite Z.sub_0_r. simpl in Hd.
  destruct (scan_rows _ _ _ _ _) as [j2len best].
  destruct Hd as (_ & _ & d & sz & Hbest & Hd & Hsz & Hsum & _).
  { split_and!; simpl.
    - intros j k. by rewrite lookup_empty.
    - by rewrite lookup_empty.
    - exists 0, 0. split_and!; [done|lia|lia|lia|]. intros m Hm.
      replace m with O by lia. done. }
  simpl in Hbest. subst best. simpl.
  unfold extend_back at 2. simpl. rewrite Z.sub_0_r.
  replace d with (Z.of_nat (Z.to_nat d)) at 2 3 by lia.
  rewrite extend_back_diag by lia.
  unfold extend_forth at 2. unfold size. simpl.
  rewrite extend_forth_diag by lia.
  unfold extend_back, extend_forth, size. simpl.
  rewrite Z.sub_diag. done.
Qed.

Lemma while_stop {S : Type} (n : nat) (cond : S → bool) (body : S → S) (s : S) :
  cond s = false → while n cond body s = s.
Proof. intros Hc. destruct n; simpl; [done|]. by rewrite Hc. Qed.

Lemma get_matching_blocks_identical :
  a ≠ [] →
  get_matching_blocks (new a a)
  = [(0, 0, Z.of_nat (length a)); (Z.of_nat (length a), Z.of_nat (length a), 0)].
Proof.
  intros Hne. assert (Hn : 0 < Z.of_nat (length a)) by (destruct a; [done|simpl; lia]).
  unfold get_matching_blocks. rewrite sm_a_new, sm_b_new.
  replace (Z.to_nat (2 * Z.of_nat (length a) + 1))
    with (S (Z.to_nat (2 * Z.of_nat (length a)))) by lia.
  cbn [while queue_nonempty fst]. unfold queue_step at 2.
  rewrite find_longest_match_identical.
  rewrite (bool_decide_eq_true_2 (Z.of_nat (length a) ≠ 0)) by lia.
  rewrite (bool_decide_eq_false_2 (0 < 0 ∧ 0 < 0)) by lia.
  rewrite (bool_decide_eq_false_2 (0 + Z.of_nat (length a) < Z.of_nat (length a) ∧ _)) by lia.
  rewrite while_stop by done. simpl.
  rewrite (bool_decide_eq_true_2 (0 + Z.of_nat (length a) ≠ 0)) by lia. simpl.
  by rewrite Z.add_0_l.
Qed.

(** A sequence is entirely similar to itself, popular elements or not. *)
Lemma ratio_identical : (ratio (new a a) == 1)%Q.
Proof.
  unfold ratio. rewrite sm_a_new, sm_b_new.
  destruct (decide (a = [])) as [->|Hne]; [done|].
  rewrite get_matching_blocks_identical by done.
  assert (Hn : 0 < Z.of_nat (length a)) by (destruct a; [done|simpl; lia]).
  unfold calculate_ratio, sum_sizes, size. simpl.
  rewrite bool_decide_eq_true_2 by lia.
  unfold Qeq. simpl. rewrite Z2Pos.id by lia. lia.
Qed.

End identical.
End chain_b_facts.
End Difflib_facts.

(** ** Regular expressions: the matcher against the language *)
Module Re_facts.
Import Re.

(** [matches subject r rest gs rest' gs']: from [rest], the expression [r] can
    consume the characters up to [rest'], taking the groups from [gs] to
    [gs']. *)
Inductive matches (ignorecase : bool) (subject : list ascii)
    : regex → list ascii → groups → list ascii → groups → Prop :=
| matches_Eps rest gs : matches ignorecase subject Eps rest gs rest gs
| matches_Bol rest gs :
    length rest = length subject → matches ignorecase subject Bol rest gs rest gs
| matches_Eol rest gs :
    rest = [] ∨ rest = [Str.newline] → matches ignorecase subject Eol rest gs rest gs
| matches_Atom a c rest gs :
    atom_ok ignorecase a c = true →
    matches ignorecase subject (Atom a) (c :: rest) gs rest gs
| matches_Seq r1 r2 rest gs rest1 gs1 rest2 gs2 :
    matches ignorecase subject r1 rest gs rest1 gs1 →
    matches ignorecase subject r2 rest1 gs1 rest2 gs2 →
    matches ignorecase subject (Seq r1 r2) rest gs rest2 gs2
| matches_Alt_l r1 r2 rest gs rest' gs' :
    matches ignorecase subject r1 rest gs rest' gs' →
    matches ignorecase subject (Alt r1 r2) rest gs rest' gs'
| matches_Alt_r r1 r2 rest gs rest' gs' :
    matches ignorecase subject r2 rest gs rest' gs' →
    matches ignorecase subject (Alt r1 r2) rest gs rest' gs'
| matches_Plus a cs rest gs :
    cs ≠ [] → Forall (λ c, atom_ok ignorecase a c = true) cs →
    matches ignorecase subject (Plus a) (cs ++ rest) gs rest gs
| matches_Star a cs rest gs :
    Forall (λ c, atom_ok ignorecase a c = true) cs →
    matches ignorecase subject (Star a) (cs ++ rest) gs rest gs
| matches_Group r rest gs rest' gs' :
    matches ignorecase subject r rest gs rest' gs' →
    matches ignorecase subject (Group r) rest gs rest'
      (gs' ++ [take (length rest - length rest') rest]).

Section matcher_facts.
Variable ignorecase : bool.
Variable subject : list ascii.

Lemma repeat_atom_sound a rest gs k m :
  repeat_atom ignorecase a rest gs k = Some m →
  ∃ cs rest', rest = cs ++ rest'
    ∧ Forall (λ c, atom_ok ignorecase a c = true) cs ∧ k rest' gs = Some m.
Proof.
  induction rest as [|c rest IH]; simpl.
  - intros Hk. by exists [], [].
  - destruct (atom_ok ignorecase a c) eqn:Hc; [|intros Hk; by exists [], (c :: rest)].
    destruct (repeat_atom ignorecase a rest gs k) as [m'|] eqn:Hr.
    + intros [= ->]. destruct (IH eq_refl) as (cs & rest' & -> & Hcs & Hk).
      exists (c :: cs), rest'. split_and!; [done| |done]. by constructor.
    + intros Hk. by exists [], (c :: rest).
Qed.

Lemma repeat_atom_complete a cs rest gs k :
  Forall (λ c, atom_ok ignorecase a c = true) cs →
  is_Some (k rest gs) → is_Some (repeat_atom ignorecase a (cs ++ rest) gs k).
Proof.
  intros Hcs Hk. induction Hcs as [|c cs Hc _ IH]; simpl.
  - destruct rest as [|c rest]; simpl; [done|].
    destruct (atom_ok ignorecase a c); [|done].
    by destruct (repeat_atom ignorecase a rest gs k).
  - rewrite Hc. by destruct IH as [m ->].
Qed.

(** The longest repetition whose continuation succeeds is the one taken. *)
Lemma repeat_atom_greedy a rest gs k m :
  repeat_atom ignorecase a rest gs k = Some m →
  ∃ cs rest', rest = cs ++ rest'
    ∧ Forall (λ c, atom_ok ignorecase a c = true) cs ∧ k rest' gs = Some m
    ∧ ∀ cs' rest'', rest = cs' ++ rest'' →
        Forall (λ c, atom_ok ignorecase a c = true) cs' →
        (length cs < length cs')%nat → k rest'' gs = None.
Proof.
  induction rest as [|c rest IH]; simpl.
  - intros Hk. exists [], []. split_and!; [done..|].
    intros cs' rest'' Heq _ Hlen. symmetry in Heq. apply app_eq_nil in Heq as [-> _].
    simpl in Hlen. lia.
  - destruct (atom_ok ignorecase a c) eqn:Hc.
    + destruct (repeat_atom ignorecase a rest gs k) as [m'|] eqn:Hr.
      * intros [= ->]. destruct (IH eq_refl) as (cs & rest' & -> & Hcs & Hk & Hmax).
        exists (c :: cs), rest'. split_and!; [done|by constructor|done|].
        intros [|c' cs'] rest'' Heq Hcs' Hlen; simpl in *; [lia|].
        injection Heq as <- Heq. apply Forall_cons in Hcs' as [_ Hcs'].
        apply (Hmax cs' rest'' Heq Hcs'). lia.
      * intros Hk. exists [], (c :: rest). split_and!; [done..|].
        intros [|c' cs'] rest'' Heq Hcs' Hlen; simpl in *; [lia|].
        injection Heq as <- Heq. apply Forall_cons in Hcs' as [_ Hcs'].
        destruct (k rest'' gs) as [m'|] eqn:Hk'; [|done].
        pose proof (repeat_atom_complete a cs' rest'' gs k Hcs' ltac:(by rewrite Hk'))
          as [m'' Hm'']. rewrite <- Heq in Hm''. congruence.
    + intros Hk. exists [], (c :: rest). split_and!; [done..|].
      intros [|c' cs'] rest'' Heq Hcs' Hlen; simpl in *; [lia|].
      injection Heq as <- Heq. apply Forall_cons in Hcs' as [Hc' _]. congruence.
Qed.

(** Whatever [run] returns comes from a way to match. *)
Lemma run_sound r : ∀ rest gs k m,
  run ignorecase subject r rest gs k = Some m →
  ∃ rest' gs', matches ignorecase subject r rest gs rest' gs' ∧ k rest' gs' = Some m.
Proof.
  induction r as [| | |a|r1 IH1 r2 IH2|r1 IH1 r2 IH2|a|a|r IH]; intros rest gs k m; simpl.
  - intros Hk. exists rest, gs. split; [constructor|done].
  - case_bool_decide; [|done]. intros Hk. exists rest, gs. split; [by constructor|done].
  - case_bool_decide; [|done]. intros Hk. exists rest, gs. split; [by constructor|done].
  - destruct rest as [|c rest]; [done|].
    destruct (atom_ok ignorecase a c) eqn:Hc; [|done].
    intros Hk. exists rest, gs. split; [by constructor|done].
  - intros (rest1 & gs1 & Hm1 & Hk1)%IH1. apply IH2 in Hk1 as (rest2 & gs2 & Hm2 & Hk2).
    exists rest2, gs2. split; [by econstructor|done].
  - destruct (run ignorecase subject r1 rest gs k) as [m'|] eqn:H1.
    + intros [= ->]. apply IH1 in H1 as (rest' & gs' & Hm & Hk).
      exists rest', gs'. split; [by apply matches_Alt_l|done].
    + intros (rest' & gs' & Hm & Hk)%IH2.
      exists rest', gs'. split; [by apply matches_Alt_r|done].
  - destruct rest as [|c rest]; [done|].
    destruct (atom_ok ignorecase a c) eqn:Hc; [|done].
    intros (cs & rest' & -> & Hcs & Hk)%repeat_atom_sound.
    exists rest', gs. split; [|done].
    apply (matches_Plus _ _ a (c :: cs)); [done|by constructor].
  - intros (cs & rest' & -> & Hcs & Hk)%repeat_atom_sound.
    exists rest', gs. split; [by constructor|done].
  - intros (rest' & gs' & Hm & Hk)%IH.
    eexists rest', _. split; [by constructor|done].
Qed.

(** Whenever there is a way to match that the continuation accepts, [run]
    returns a match. *)
Lemma run_complete r rest gs rest' gs' :
  matches ignorecase subject r rest gs rest' gs' →
  ∀ k, is_Some (k rest' gs') → is_Some (run ignorecase subject r rest gs k).
Proof.
  induction 1 as [rest gs|rest gs Hl|rest gs He|a c rest gs Hc
                 |r1 r2 rest gs rest1 gs1 rest2 gs2 _ IH1 _ IH2
                 |r1 r2 rest gs rest' gs' _ IH|r1 r2 rest gs rest' gs' _ IH
                 |a cs rest gs Hne Hcs|a cs rest gs Hcs|r rest gs rest' gs' _ IH];
    intros k Hk; simpl.
  - done.
  - by rewrite bool_decide_eq_true_2.
  - by rewrite bool_decide_eq_true_2.
  - by rewrite Hc.
  - apply IH1. by apply IH2.
  - destruct (IH k Hk) as [m ->]. done.
  - destruct (run ignorecase subject r1 rest gs k); [done|]. by apply IH.
  - destruct Hcs as [|c cs Hc Hcs]; [done|]. simpl. rewrite Hc.
    by apply repeat_atom_complete.
  - by apply repeat_atom_complete.
  - by apply IH.
Qed.

(** *** Inversions, construct by construct *)

Lemma matches_Seq_inv r1 r2 rest gs rest2 gs2 :
  matches ignorecase subject (Seq r1 r2) rest gs rest2 gs2 →
  ∃ rest1 gs1, matches ignorecase subject r1 rest gs rest1 gs1
               ∧ matches ignorecase subject r2 rest1 gs1 rest2 gs2.
Proof. inversion 1; subst. eauto. Qed.

Lemma matches_Alt_inv r1 r2 rest gs rest' gs' :
  matches ignorecase subject (Alt r1 r2) rest gs rest' gs' →
  matches ignorecase subject r1 rest gs rest' gs'
  ∨ matches ignorecase subject r2 rest gs rest' gs'.
Proof. inversion 1; subst; eauto. Qed.

Lemma matches_Bol_inv rest gs rest' gs' :
  matches ignorecase subject Bol rest gs rest' gs' →
  rest' = rest ∧ gs' = gs ∧ length rest = length subject.
Proof. inversion 1; subst. eauto. Qed.

Lemma matches_Eol_inv rest gs rest' gs' :
  matches ignorecase subject Eol rest gs rest' gs' →
  rest' = rest ∧ gs' = gs ∧ (rest = [] ∨ rest = [Str.newline]).
Proof. inversion 1; subst. eauto. Qed.

Lemma matches_Eps_inv rest gs rest' gs' :
  matches ignorecase subject Eps rest gs rest' gs' → rest' = rest ∧ gs' = gs.
Proof. inversion 1; subst. eauto. Qed.

Lemma matches_Atom_inv a rest gs rest' gs' :
  matches ignorecase subject (Atom a) rest gs rest' gs' →
  ∃ c, rest = c :: rest' ∧ gs' = gs ∧ atom_ok ignorecase a c = true.
Proof. inversion 1; subst. eauto. Qed.

Lemma matches_Plus_inv a rest gs rest' gs' :
  matches ignorecase subject (Plus a) rest gs rest' gs' →
  ∃ cs, rest = cs ++ rest' ∧ gs' = gs ∧ cs ≠ []
        ∧ Forall (λ c, atom_ok ignorecase a c = true) cs.
Proof. inversion 1; subst. eauto. Qed.

Lemma matches_Star_inv a rest gs rest' gs' :
  matches ignorecase subject (Star a) rest gs rest' gs' →
  ∃ cs, rest = cs ++ rest' ∧ gs' = gs
        ∧ Forall (λ c, atom_ok ignorecase a c = true) cs.
Proof. inversion 1; subst. eauto. Qed.

(** A group around a repetition captures the characters repeated. *)
Lemma matches_Group_Plus_inv a rest gs rest' gs' :
  matches ignorecase subject (Group (Plus a)) rest gs rest' gs' →
  ∃ cs, rest = cs ++ rest' ∧ gs' = gs ++ [cs] ∧ cs ≠ []
        ∧ Forall (λ c, atom_ok ignorecase a c = true) cs.
Proof.
  inversion 1 as [| | | | | | | | |r0 rest0 gs0 rest0' gs0' Hm]; subst.
  apply matches_Plus_inv in Hm as (cs & -> & -> & Hne & Hcs).
  exists cs. split_and!; [done| |done|done].
  rewrite length_app. replace (length cs + length rest' - length rest')%nat
    with (length cs) by lia. by rewrite take_app_length.
Qed.

Lemma matches_Group_Plus a cs rest gs :
  cs ≠ [] → Forall (λ c, atom_ok ignorecase a c = true) cs →
  matches ignorecase subject (Group (Plus a)) (cs ++ rest) gs rest (gs ++ [cs]).
Proof.
  intros Hne Hcs.
  pose proof (matches_Group ignorecase subject (Plus a) (cs ++ rest) gs rest gs
                (matches_Plus _ _ a cs rest gs Hne Hcs)) as Hm.
  rewrite length_app in Hm. replace (length cs + length rest - length rest)%nat
    with (length cs) in Hm by lia. by rewrite take_app_length in Hm.
Qed.

(** A literal word matches the words that agree with it, letter by letter. *)
Definition agrees (w kw : list ascii) : Prop :=
  Forall2 (λ l c, atom_ok ignorecase (Lit l) c = true) w kw.

Lemma matches_word_inv w : ∀ rest gs rest' gs',
  matches ignorecase subject (word w) rest gs rest' gs' →
  ∃ kw, rest = kw ++ rest' ∧ gs' = gs ∧ agrees w kw.
Proof.
  induction w as [|l w IH]; intros rest gs rest' gs'; simpl.
  - intros [-> ->]%matches_Eps_inv. exists []. split_and!; [done|done|constructor].
  - destruct w as [|l' w].
    + intros (c & -> & -> & Hc)%matches_Atom_inv. exists [c].
      split_and!; [done|done|]. by repeat constructor.
    + intros (rest1 & gs1 & (c & -> & -> & Hc)%matches_Atom_inv & Hm)%matches_Seq_inv.
      apply IH in Hm as (kw & -> & -> & Hkw). exists (c :: kw).
      split_and!; [done|done|]. by constructor.
Qed.

Lemma matches_word w : ∀ kw rest gs,
  agrees w kw → matches ignorecase subject (word w) (kw ++ rest) gs rest gs.
Proof.
  induction w as [|l w IH]; intros kw rest gs Hkw; simpl.
  - inversion Hkw; subst. constructor.
  - inversion Hkw as [|? c ? kw' Hc Hkw']; subst. destruct w as [|l' w].
    + inversion Hkw'; subst. simpl. by constructor.
    + simpl. eapply matches_Seq; [by constructor|]. by apply IH.
Qed.

End matcher_facts.

(** *** A pattern [^(a+)K]: the first group is the longest repetition of
    [a] after which [K] can match. *)
Lemma first_group_greedy ignorecase subject a K m :
  run ignorecase subject (Seq Bol (Seq (Group (Plus a)) K)) subject [] (λ _ gs, Some gs)
  = Some m →
  ∃ g1 rest rest',
    subject = g1 ++ rest ∧ g1 ≠ []
    ∧ Forall (λ c, atom_ok ignorecase a c = true) g1
    ∧ matches ignorecase subject K rest [g1] rest' m
    ∧ ∀ g1' rest1 rest1' gs1,
        subject = g1' ++ rest1 →
        Forall (λ c, atom_ok ignorecase a c = true) g1' →
        matches ignorecase subject K rest1 [g1'] rest1' gs1 →
        (length g1' ≤ length g1)%nat.
Proof.
  simpl. rewrite bool_decide_eq_true_2 by done.
  destruct subject as [|c rest0]; [done|].
  destruct (atom_ok ignorecase a c) eqn:Hc; [|done].
  assert (Htake : ∀ cs' rest', rest0 = cs' ++ rest' →
    take (length (c :: rest0) - length rest') (c :: rest0) = c :: cs').
  { intros cs' rest' ->. simpl. rewrite length_app.
    replace (S (length cs' + length rest') - length rest')%nat with (S (length cs')) by lia.
    simpl. by rewrite take_app_length. }
  intros (cs & rest & Heq0 & Hcs & Hk & Hmax)%repeat_atom_greedy.
  rewrite (Htake cs rest) in Hk by done. simpl in Hk. subst rest0.
  apply run_sound in Hk as (rest' & gs' & Hm & [= <-]).
  exists (c :: cs), rest, rest'. split_and!; [done|done|by constructor|done|].
  intros [|c' cs'] rest1 rest1' gs1 Heq Hcs' Hm'; simpl; [lia|].
  injection Heq as <- Heq. apply Forall_cons in Hcs' as [_ Hcs'].
  destruct (decide (length cs < length cs')%nat) as [Hlt|]; [|lia].
  specialize (Hmax cs' rest1 Heq Hcs' Hlt). cbv beta in Hmax.
  rewrite (Htake cs' rest1 Heq) in Hmax.
  pose proof (run_complete _ _ _ _ _ _ _ Hm' (λ _ gs, Some gs) ltac:(done)) as [m' Hm''].
  simpl in Hmax. congruence.
Qed.

Lemma first_group_complete ignorecase subject a K g1 rest rest' gs' :
  subject = g1 ++ rest → g1 ≠ [] →
  Forall (λ c, atom_ok ignorecase a c = true) g1 →
  matches ignorecase subject K rest [g1] rest' gs' →
  is_Some (run ignorecase subject (Seq Bol (Seq (Group (Plus a)) K)) subject []
             (λ _ gs, Some gs)).
Proof.
  intros Heq Hne Hg1 Hm.
  apply (run_complete ignorecase subject (Seq Bol (Seq (Group (Plus a)) K)) subject []
           rest' gs'); [|done].
  eapply matches_Seq; [by constructor|].
  eapply matches_Seq; [|exact Hm].
  rewrite Heq at 2. by apply (matches_Group_Plus ignorecase subject a g1 rest []).
Qed.

End Re_facts.

(** ** Strings: [strip] and the characters *)

#[global] Instance spaces_dec (l : list ascii) : Decision (spaces l).
Proof. unfold spaces. apply _. Defined.

#[global] Instance no_space_dec (l : list ascii) : Decision (no_space l).
Proof. unfold no_space. apply _. Defined.

(** Decides a fact on given characters. *)
Ltac by_computation := apply (bool_decide_unpack _); vm_compute; exact I.

Module Str_facts.
Import Str.

Lemma lstrip_chars_spec (l : list ascii) :
  ∃ ws, l = ws ++ lstrip_chars l ∧ spaces ws
        ∧ ∀ c, head (lstrip_chars l) = Some c → ¬ whitespace c.
Proof.
  induction l as [|c l (ws & Heq & Hws & Hhead)]; simpl.
  - exists []. split_and!; [done|constructor|done].
  - destruct (isspace c) eqn:Hc.
    + exists (c :: ws). split_and!; [by rewrite Heq at 1| |done].
      constructor; [by apply isspace_whitespace|done].
    + exists []. split_and!; [done|constructor|]. intros c' [= <-].
      by apply isspace_not_whitespace.
Qed.

Lemma lstrip_chars_id (l : list ascii) :
  (∀ c, head l = Some c → ¬ whitespace c) → lstrip_chars l = l.
Proof.
  destruct l as [|c l]; simpl; [done|]. intros Hc.
  by rewrite (proj2 (isspace_not_whitespace c) (Hc c eq_refl)).
Qed.

Lemma lstrip_chars_app (ws l : list ascii) :
  spaces ws → lstrip_chars (ws ++ l) = lstrip_chars l.
Proof.
  induction 1 as [|c ws Hc _ IH]; simpl; [done|].
  apply isspace_whitespace in Hc. by rewrite Hc.
Qed.

Lemma rev_reverse (l : list ascii) : rev l = reverse l.
Proof. unfold reverse. apply rev_alt. Qed.

Lemma spaces_rev (ws : list ascii) : spaces ws → spaces (rev ws).
Proof. unfold spaces. rewrite rev_reverse. by rewrite Forall_reverse. Qed.

Lemma head_rev (l : list ascii) : head (rev l) = last l.
Proof. rewrite rev_reverse. apply head_reverse. Qed.

Lemma last_rev (l : list ascii) : last (rev l) = head l.
Proof. rewrite rev_reverse. apply last_reverse. Qed.

Lemma rstrip_chars_app (l ws : list ascii) :
  spaces ws → rstrip_chars (l ++ ws) = rstrip_chars l.
Proof.
  intros Hws. unfold rstrip_chars. rewrite rev_app_distr, lstrip_chars_app; [done|].
  by apply spaces_rev.
Qed.

Lemma rstrip_chars_id (l : list ascii) :
  (∀ c, last l = Some c → ¬ whitespace c) → rstrip_chars l = l.
Proof.
  intros Hlast. unfold rstrip_chars. rewrite lstrip_chars_id, rev_involutive; [done|].
  intros c. rewrite head_rev. apply Hlast.
Qed.

Lemma rstrip_chars_spec (l : list ascii) :
  ∃ ws, l = rstrip_chars l ++ ws ∧ spaces ws
        ∧ ∀ c, last (rstrip_chars l) = Some c → ¬ whitespace c.
Proof.
  destruct (lstrip_chars_spec (rev l)) as (ws & Heq & Hws & Hhead).
  exists (rev ws). unfold rstrip_chars. split_and!.
  - rewrite <- rev_app_distr, <- Heq. by rewrite rev_involutive.
  - by apply spaces_rev.
  - intros c. rewrite last_rev. apply Hhead.
Qed.

(** [strip] is the trimmed middle of the text, whatever whitespace is
    around it. *)
Lemma strip_chars_unique (ws1 m ws2 : list ascii) :
  spaces ws1 → spaces ws2 → trimmed m → strip_chars (ws1 ++ m ++ ws2) = m.
Proof.
  intros H1 H2 [Hhead Hlast]. unfold strip_chars. rewrite lstrip_chars_app by done.
  destruct m as [|c m].
  - simpl. rewrite <- (app_nil_r ws2), lstrip_chars_app by done. done.
  - rewrite lstrip_chars_id; [|intros c' [= <-]; by apply Hhead].
    rewrite rstrip_chars_app by done. by apply rstrip_chars_id.
Qed.

Lemma strip_chars_spec (l : list ascii) :
  ∃ ws1 ws2, l = ws1 ++ strip_chars l ++ ws2 ∧ spaces ws1 ∧ spaces ws2
             ∧ trimmed (strip_chars l).
Proof.
  destruct (lstrip_chars_spec l) as (ws1 & Heq1 & Hws1 & Hhead).
  destruct (rstrip_chars_spec (lstrip_chars l)) as (ws2 & Heq2 & Hws2 & Hlast).
  exists ws1, ws2. unfold strip_chars. split_and!; [by rewrite <- Heq2|done|done|].
  split; [|done]. intros c Hc. apply Hhead. rewrite Heq2.
  destruct (rstrip_chars (lstrip_chars l)); [done|]. by simpl in *.
Qed.

Lemma strip_chars_app_spaces (l ws : list ascii) :
  spaces ws → strip_chars (l ++ ws) = strip_chars l.
Proof.
  intros Hws. destruct (strip_chars_spec l) as (ws1 & ws2 & Heq & H1 & H2 & Ht).
  rewrite Heq at 1. rewrite <- !app_assoc.
  apply strip_chars_unique; [done| |done]. by apply Forall_app.
Qed.

Lemma strip_chars_spaces_app (ws l : list ascii) :
  spaces ws → strip_chars (ws ++ l) = strip_chars l.
Proof.
  intros Hws. destruct (strip_chars_spec l) as (ws1 & ws2 & Heq & H1 & H2 & Ht).
  rewrite Heq at 1. rewrite app_assoc.
  apply strip_chars_unique; [|done|done]. by apply Forall_app.
Qed.

Lemma strip_chars_spaces (ws : list ascii) : spaces ws → strip_chars ws = [].
Proof.
  intros Hws. rewrite <- (app_nil_r ws).
  by apply (strip_chars_unique ws [] []); [|constructor|].
Qed.

Lemma no_space_trimmed (l : list ascii) : no_space l → trimmed l.
Proof.
  intros Hl. unfold no_space in Hl. rewrite Forall_forall in Hl. split; intros c Hc; apply Hl.
  - destruct l; [done|]. injection Hc as ->. left.
  - apply last_Some in Hc as [l' ->]. apply elem_of_app. right. left.
Qed.

Lemma strip_chars_trimmed (l : list ascii) : trimmed l → strip_chars l = l.
Proof.
  intros Ht. rewrite <- (app_nil_r l) at 1.
  by apply (strip_chars_unique [] l []); [constructor|constructor|].
Qed.

Lemma of_chars_chars (s : string) : of_chars (chars s) = s.
Proof. apply string_of_list_ascii_of_string. Qed.

End Str_facts.

(** ** Characters *)

Lemma isspace_lower_char (c : ascii) : Str.isspace (Str.lower_char c) = Str.isspace c.
Proof. destruct c as [[] [] [] [] [] [] [] []]; vm_compute; reflexivity. Qed.

Lemma no_space_lower (l : list ascii) : no_space (Str.lower_char <$> l) → no_space l.
Proof.
  unfold no_space. rewrite Forall_fmap. intros Hl. eapply Forall_impl; [exact Hl|].
  intros c. simpl. by rewrite <- !isspace_not_whitespace, isspace_lower_char.
Qed.

(** A keyword is a word that [str.lower] turns into [by], [from] or [of]. *)
Lemma keyword_lower (kw : list ascii) :
  keyword kw ↔
  Str.lower_char <$> kw = Str.chars "by"
  ∨ Str.lower_char <$> kw = Str.chars "from"
  ∨ Str.lower_char <$> kw = Str.chars "of".
Proof.
  unfold keyword. rewrite !lowercase_lower.
  split; (intros [Hkw|[Hkw|Hkw]]; [by left|right; by left|right; by right]).
Qed.

Lemma keyword_no_space (kw : list ascii) : keyword kw → no_space kw ∧ kw ≠ [].
Proof.
  intros Hkw%keyword_lower. split.
  - apply no_space_lower. destruct Hkw as [->|[->| ->]]; by_computation.
  - intros ->. by destruct Hkw as [?|[?|?]].
Qed.

Lemma keyword_not_hyphen (kw : list ascii) : keyword kw → kw ≠ ["-"%char].
Proof. intros Hkw%keyword_lower ->. by destruct Hkw as [?|[?|?]]. Qed.

Lemma no_space_no_newline (l : list ascii) : no_space l → no_newline l.
Proof.
  intros Hl. eapply Forall_impl; [exact Hl|]. intros c Hc ->. apply Hc. by_computation.
Qed.

(** The number of whitespace characters. *)
Fixpoint count_spaces (l : list ascii) : nat :=
  match l with
  | [] => 0
  | c :: l' => (if Str.isspace c then 1 else 0) + count_spaces l'
  end.

Lemma count_spaces_app (l l' : list ascii) :
  count_spaces (l ++ l') = (count_spaces l + count_spaces l')%nat.
Proof. induction l as [|c l IH]; simpl; [done|]. rewrite IH. lia. Qed.

Lemma count_spaces_spaces (l : list ascii) : spaces l → count_spaces l = length l.
Proof.
  induction 1 as [|c l Hc _ IH]; simpl; [done|].
  apply isspace_whitespace in Hc. by rewrite Hc, IH.
Qed.

Lemma count_spaces_no_space (l : list ascii) : no_space l ↔ count_spaces l = 0%nat.
Proof.
  induction l as [|c l IH]; simpl; [split; [done|constructor]|].
  unfold no_space in *. rewrite Forall_cons, IH, <- isspace_not_whitespace.
  destruct (Str.isspace c); simpl; [split; [by intros [? _]|done]|].
  split; [by intros [_ ?]|done].
Qed.

(** Two texts that agree up to their first whitespace character. *)
Lemma first_space (l1 l2 r1 r2 : list ascii) (c1 c2 : ascii) :
  no_space l1 → no_space l2 → whitespace c1 → whitespace c2 →
  l1 ++ c1 :: r1 = l2 ++ c2 :: r2 → l1 = l2 ∧ c1 = c2 ∧ r1 = r2.
Proof.
  intros H1. revert l2. induction H1 as [|x l1 Hx _ IH]; intros l2 H2 Hc1 Hc2 Heq.
  - destruct H2 as [|y l2 Hy _]; simpl in *; [by injection Heq as -> ->|].
    injection Heq as -> _. done.
  - destruct H2 as [|y l2 Hy H2]; simpl in *.
    + injection Heq as -> _. done.
    + injection Heq as -> Heq. destruct (IH l2 H2 Hc1 Hc2 Heq) as (-> & -> & ->). done.
Qed.

Lemma chars_app (s s' : string) : Str.chars (s +:+ s') = Str.chars s ++ Str.chars s'.
Proof. induction s as [|c s IH]; simpl; [done|]. unfold Str.chars in *. simpl. by rewrite IH. Qed.

Lemma chars_nil (s : string) : Str.chars s = [] ↔ s = "".
Proof. destruct s; split; done. Qed.

Lemma strip_no_space (s : string) : no_space (Str.chars s) → Str.strip s = s.
Proof.
  intros Hs. unfold Str.strip.
  rewrite Str_facts.strip_chars_trimmed by (by apply Str_facts.no_space_trimmed).
  apply Str_facts.of_chars_chars.
Qed.

(** ** Query parsing *)

Section parse_query_facts.
Import Re Re_facts.
Variable subject : list ascii.

Definition tail_by : regex :=
  Plus Space
  ⋅ Alt (word (Str.chars "by")) (Alt (word (Str.chars "from")) (word (Str.chars "of")))
  ⋅ Plus Space ⋅ Group (Plus Dot) ⋅ Eol.

Definition tail_dash : regex :=
  Star Space ⋅ Atom (Lit "-") ⋅ Star Space ⋅ Group (Plus Dot) ⋅ Eol.

Lemma dots_no_newline cs :
  Forall (λ c, atom_ok true Dot c = true) cs ↔ no_newline cs.
Proof.
  unfold no_newline. apply Forall_iff. intros c. simpl.
  rewrite negb_true_iff, bool_decide_eq_false. done.
Qed.

Lemma spaces_space cs :
  Forall (λ c, atom_ok true Space c = true) cs ↔ spaces cs.
Proof. symmetry. apply spaces_isspace. Qed.

Lemma agrees_lower w kw :
  agrees true w kw ↔ Str.lower_char <$> kw = Str.lower_char <$> w.
Proof.
  unfold agrees. split.
  - induction 1 as [|l c w kw Hc _ IH]; [done|].
    apply bool_decide_eq_true in Hc. rewrite !fmap_cons. by rewrite Hc, IH.
  - revert kw. induction w as [|l w IH]; intros [|c kw]; try done.
    rewrite !fmap_cons. intros [= Hc Hkw].
    constructor; [by apply bool_decide_eq_true|by apply IH].
Qed.

Lemma keyword_inv rest gs rest' gs' :
  matches true subject
    (Alt (word (Str.chars "by")) (Alt (word (Str.chars "from")) (word (Str.chars "of"))))
    rest gs rest' gs' →
  ∃ kw, rest = kw ++ rest' ∧ gs' = gs ∧ keyword kw.
Proof.
  intros [Hm|[Hm|Hm]%matches_Alt_inv]%matches_Alt_inv;
    apply matches_word_inv in Hm as (kw & -> & -> & Hkw%agrees_lower);
    exists kw; (split_and!; [done|done|]); apply keyword_lower; auto.
Qed.

Lemma keyword_intro kw rest gs :
  keyword kw →
  matches true subject
    (Alt (word (Str.chars "by")) (Alt (word (Str.chars "from")) (word (Str.chars "of"))))
    (kw ++ rest) gs rest gs.
Proof.
  intros [Hkw|[Hkw|Hkw]]%keyword_lower.
  - apply matches_Alt_l, matches_word, agrees_lower. by rewrite Hkw.
  - apply matches_Alt_r, matches_Alt_l, matches_word, agrees_lower. by rewrite Hkw.
  - apply matches_Alt_r, matches_Alt_r, matches_word, agrees_lower. by rewrite Hkw.
Qed.

Lemma tail_by_inv rest gs rest' gs' :
  matches true subject tail_by rest gs rest' gs' →
  ∃ w1 kw w2 g2,
    rest = w1 ++ kw ++ w2 ++ g2 ++ rest' ∧ gs' = gs ++ [g2]
    ∧ w1 ≠ [] ∧ spaces w1 ∧ keyword kw ∧ w2 ≠ [] ∧ spaces w2
    ∧ g2 ≠ [] ∧ no_newline g2 ∧ line_end rest'.
Proof.
  unfold tail_by.
  intros (r1 & gs1 & (w1 & -> & -> & Hw1 & Hs1%spaces_space)%matches_Plus_inv & Hm)
    %matches_Seq_inv.
  apply matches_Seq_inv in Hm as (r2 & gs2 & (kw & -> & -> & Hkw)%keyword_inv & Hm).
  apply matches_Seq_inv in Hm
    as (r3 & gs3 & (w2 & -> & -> & Hw2 & Hs2%spaces_space)%matches_Plus_inv & Hm).
  apply matches_Seq_inv in Hm
    as (r4 & gs4 & (g2 & -> & -> & Hg2 & Hd2%dots_no_newline)%matches_Group_Plus_inv & Hm).
  apply matches_Eol_inv in Hm as (-> & -> & Hend).
  exists w1, kw, w2, g2. by split_and!.
Qed.

Lemma tail_by_intro w1 kw w2 g2 tl gs :
  w1 ≠ [] → spaces w1 → keyword kw → w2 ≠ [] → spaces w2 →
  g2 ≠ [] → no_newline g2 → line_end tl →
  matches true subject tail_by (w1 ++ kw ++ w2 ++ g2 ++ tl) gs tl (gs ++ [g2]).
Proof.
  intros Hw1 Hs1%spaces_space Hkw Hw2 Hs2%spaces_space Hg2 Hd2 Hend. unfold tail_by.
  eapply matches_Seq; [by apply matches_Plus|].
  eapply matches_Seq; [by apply keyword_intro|].
  eapply matches_Seq; [by apply matches_Plus|].
  eapply matches_Seq; [apply matches_Group_Plus; [done|by apply dots_no_newline]|].
  by constructor.
Qed.

Lemma tail_dash_inv rest gs rest' gs' :
  matches true subject tail_dash rest gs rest' gs' →
  ∃ w1 w2 g2,
    rest = w1 ++ Str.chars "-" ++ w2 ++ g2 ++ rest' ∧ gs' = gs ++ [g2]
    ∧ spaces w1 ∧ spaces w2 ∧ g2 ≠ [] ∧ no_newline g2 ∧ line_end rest'.
Proof.
  unfold tail_dash.
  intros (r1 & gs1 & (w1 & -> & -> & Hs1%spaces_space)%matches_Star_inv & Hm)%matches_Seq_inv.
  apply matches_Seq_inv in Hm as (r2 & gs2 & (c & -> & -> & Hc)%matches_Atom_inv & Hm).
  apply matches_Seq_inv in Hm
    as (r3 & gs3 & (w2 & -> & -> & Hs2%spaces_space)%matches_Star_inv & Hm).
  apply matches_Seq_inv in Hm
    as (r4 & gs4 & (g2 & -> & -> & Hg2 & Hd2%dots_no_newline)%matches_Group_Plus_inv & Hm).
  apply matches_Eol_inv in Hm as (-> & -> & Hend).
  exists w1, w2, g2. split_and!; try done.
  simpl in Hc. apply bool_decide_eq_true in Hc.
  assert (c = "-"%char) as ->; [|done].
  revert Hc. destruct c as [[] [] [] [] [] [] [] []]; vm_compute; congruence.
Qed.

Lemma tail_dash_intro w1 w2 g2 tl gs :
  spaces w1 → spaces w2 → g2 ≠ [] → no_newline g2 → line_end tl →
  matches true subject tail_dash (w1 ++ Str.chars "-" ++ w2 ++ g2 ++ tl) gs tl (gs ++ [g2]).
Proof.
  intros Hs1%spaces_space Hs2%spaces_space Hg2 Hd2 Hend. unfold tail_dash.
  eapply matches_Seq; [by apply matches_Star|].
  eapply matches_Seq; [by apply matches_Atom|].
  eapply matches_Seq; [by apply matches_Star|].
  eapply matches_Seq; [apply matches_Group_Plus; [done|by apply dots_no_newline]|].
  by constructor.
Qed.

End parse_query_facts.

Lemma match_by_Some (query : string) (m : Re.groups) :
  Re.match_ pattern_by query true = Some m →
  ∃ g1 g2, m = [g1; g2] ∧ by_split query g1 g2
           ∧ ∀ g1' g2', by_split query g1' g2' → (length g1' ≤ length g1)%nat.
Proof.
  unfold Re.match_.
  change pattern_by with (Re.Bol ⋅ Re.Group (Re.Plus Re.Dot) ⋅ tail_by).
  intros (g1 & rest & rest' & Hq & Hne & Hdots & Hm & Hmax)%Re_facts.first_group_greedy.
  apply tail_by_inv in Hm
    as (w1 & kw & w2 & g2 & -> & -> & Hw1 & Hs1 & Hkw & Hw2 & Hs2 & Hg2 & Hd2 & Hend).
  exists g1, g2. split_and!; [done| |].
  - exists w1, kw, w2, rest'. split_and!; try done. by apply dots_no_newline.
  - intros g1' g2' (w1' & kw' & w2' & tl' & Hq' & ? & Hd1' & ? & ? & ? & ? & ? & ? & ? & ?).
    eapply (Hmax g1' _ tl' ([g1'] ++ [g2']) Hq'); [by apply dots_no_newline|].
    by apply tail_by_intro.
Qed.

Lemma match_by_None (query : string) :
  Re.match_ pattern_by query true = None → ∀ g1 g2, ¬ by_split query g1 g2.
Proof.
  unfold Re.match_.
  change pattern_by with (Re.Bol ⋅ Re.Group (Re.Plus Re.Dot) ⋅ tail_by).
  intros Hnone g1 g2 (w1 & kw & w2 & tl & Hq & ? & Hd1 & ? & ? & ? & ? & ? & ? & ? & ?).
  destruct (Re_facts.first_group_complete true (Str.chars query) Re.Dot tail_by g1
              (w1 ++ kw ++ w2 ++ g2 ++ tl) tl ([g1] ++ [g2]) Hq) as [m Hm];
    [done|by apply dots_no_newline|by apply tail_by_intro|congruence].
Qed.

Lemma match_dash_Some (query : string) (m : Re.groups) :
  Re.match_ pattern_dash query true = Some m →
  ∃ g1 g2, m = [g1; g2] ∧ dash_split query g1 g2
           ∧ ∀ g1' g2', dash_split query g1' g2' → (length g1' ≤ length g1)%nat.
Proof.
  unfold Re.match_.
  change pattern_dash with (Re.Bol ⋅ Re.Group (Re.Plus Re.Dot) ⋅ tail_dash).
  intros (g1 & rest & rest' & Hq & Hne & Hdots & Hm & Hmax)%Re_facts.first_group_greedy.
  apply tail_dash_inv in Hm as (w1 & w2 & g2 & -> & -> & Hs1 & Hs2 & Hg2 & Hd2 & Hend).
  exists g1, g2. split_and!; [done| |].
  - exists w1, w2, rest'. split_and!; try done. by apply dots_no_newline.
  - intros g1' g2' (w1' & w2' & tl' & Hq' & ? & Hd1' & ? & ? & ? & ? & ?).
    eapply (Hmax g1' _ tl' ([g1'] ++ [g2']) Hq'); [by apply dots_no_newline|].
    by apply tail_dash_intro.
Qed.

Lemma match_dash_None (query : string) :
  Re.match_ pattern_dash query true = None → ∀ g1 g2, ¬ dash_split query g1 g2.
Proof.
  unfold Re.match_.
  change pattern_dash with (Re.Bol ⋅ Re.Group (Re.Plus Re.Dot) ⋅ tail_dash).
  intros Hnone g1 g2 (w1 & w2 & tl & Hq & ? & Hd1 & ? & ? & ? & ? & ?).
  destruct (Re_facts.first_group_complete true (Str.chars query) Re.Dot tail_dash g1
              (w1 ++ Str.chars "-" ++ w2 ++ g2 ++ tl) tl ([g1] ++ [g2]) Hq) as [m Hm];
    [done|by apply dots_no_newline|by apply tail_dash_intro|congruence].
Qed.

(** [str.strip] removes the whitespace at the two ends, and nothing else
    does what [trim_of] says. *)
Lemma trim_of_strip (s : string) : trim_of (Str.chars s) (Str.chars (Str.strip s)).
Proof.
  unfold Str.strip. rewrite chars_of_chars.
  destruct (Str_facts.strip_chars_spec (Str.chars s)) as (ws1 & ws2 & Heq & H1 & H2 & Ht).
  by exists ws1, ws2.
Qed.

Lemma trim_of_unique (g m : list ascii) : trim_of g m → m = Str.strip_chars g.
Proof.
  intros (ws1 & ws2 & -> & H1 & H2 & Ht). symmetry. by apply Str_facts.strip_chars_unique.
Qed.

Lemma parsed_trim_of (g1 g2 : list ascii) :
  ∃ s a, trim_of g1 (Str.chars s) ∧ trim_of g2 (Str.chars a)
         ∧ parsed g1 g2 = {| song := s; artist := Some a; search_type := "track" |}.
Proof.
  exists (Str.strip (Str.of_chars g1)), (Str.strip (Str.of_chars g2)).
  split_and!; [| |done].
  - rewrite <- (chars_of_chars g1) at 1. apply trim_of_strip.
  - rewrite <- (chars_of_chars g2) at 1. apply trim_of_strip.
Qed.

(** C7: [parse_query] tries [<song> (by|from|of) <artist>] first and
    [<song> - <artist>] second, the keyword in any case; the first shape the
    query has gives the song and the artist, the texts of its two groups
    without the whitespace at their ends (the first group being the longest
    the shape allows); a query of neither shape gives the query without the
    whitespace at its ends as the song, and no artist.  Every query is one
    of the three cases; the three examples are as the specification says,
    also with the keyword in capitals. *)
Theorem parse_query_spec (query : string) :
  ((∃ g1 g2 s a, by_split query g1 g2
      ∧ (∀ g1' g2', by_split query g1' g2' → (length g1' ≤ length g1)%nat)
      ∧ trim_of g1 (Str.chars s) ∧ trim_of g2 (Str.chars a)
      ∧ parse_query query = {| song := s; artist := Some a; search_type := "track" |})
   ∨ ((∀ g1 g2, ¬ by_split query g1 g2)
      ∧ ∃ g1 g2 s a, dash_split query g1 g2
          ∧ (∀ g1' g2', dash_split query g1' g2' → (length g1' ≤ length g1)%nat)
          ∧ trim_of g1 (Str.chars s) ∧ trim_of g2 (Str.chars a)
          ∧ parse_query query = {| song := s; artist := Some a; search_type := "track" |})
   ∨ ((∀ g1 g2, ¬ by_split query g1 g2) ∧ (∀ g1 g2, ¬ dash_split query g1 g2)
      ∧ ∃ s, trim_of (Str.chars query) (Str.chars s)
          ∧ parse_query query = {| song := s; artist := None; search_type := "track" |}))
  ∧ parse_query "Imagine by John Lennon"
    = {| song := "Imagine"; artist := Some "John Lennon"; search_type := "track" |}
  ∧ parse_query "Imagine - John Lennon"
    = {| song := "Imagine"; artist := Some "John Lennon"; search_type := "track" |}
  ∧ parse_query "Imagine"
    = {| song := "Imagine"; artist := None; search_type := "track" |}
  ∧ parse_query "Imagine BY John Lennon"
    = {| song := "Imagine"; artist := Some "John Lennon"; search_type := "track" |}
  ∧ parse_query "Imagine From John Lennon"
    = {| song := "Imagine"; artist := Some "John Lennon"; search_type := "track" |}
  ∧ parse_query "  Imagine   oF  John Lennon "
    = {| song := "Imagine"; artist := Some "John Lennon"; search_type := "track" |}.
Proof.
  split; [|split_and!; vm_compute; reflexivity].
  unfold parse_query, patterns, parse_with.
  destruct (Re.match_ pattern_by query true) as [m|] eqn:Hby.
  { left. apply match_by_Some in Hby as (g1 & g2 & -> & Hsplit & Hmax).
    destruct (parsed_trim_of g1 g2) as (s & a & Hs & Ha & Heq).
    by exists g1, g2, s, a. }
  right. pose proof (match_by_None query Hby) as Hnoby.
  destruct (Re.match_ pattern_dash query true) as [m|] eqn:Hdash.
  { left. split; [done|].
    apply match_dash_Some in Hdash as (g1 & g2 & -> & Hsplit & Hmax).
    destruct (parsed_trim_of g1 g2) as (s & a & Hs & Ha & Heq).
    by exists g1, g2, s, a. }
  right. split_and!; [done|by apply match_dash_None|].
  exists (Str.strip query). split; [apply trim_of_strip|done].
Qed.

(** ** The three outcomes of [parse_query] *)

Lemma parse_query_plain (query : string) :
  (∀ g1 g2, ¬ by_split query g1 g2) → (∀ g1 g2, ¬ dash_split query g1 g2) →
  parse_query query = {| song := Str.strip query; artist := None; search_type := "track" |}.
Proof.
  intros Hby Hdash. unfold parse_query, patterns, parse_with.
  destruct (Re.match_ pattern_by query true) as [m|] eqn:Hm.
  { apply match_by_Some in Hm as (g1 & g2 & _ & Hsplit & _). by destruct (Hby g1 g2). }
  destruct (Re.match_ pattern_dash query true) as [m'|] eqn:Hm'; [|done].
  apply match_dash_Some in Hm' as (g1 & g2 & _ & Hsplit & _). by destruct (Hdash g1 g2).
Qed.

Lemma parse_query_by (query : string) (g1 g2 : list ascii) :
  by_split query g1 g2 →
  ∃ g1' g2', by_split query g1' g2' ∧ (length g1 ≤ length g1')%nat
             ∧ parse_query query = parsed g1' g2'.
Proof.
  intros Hsplit. unfold parse_query, patterns, parse_with.
  destruct (Re.match_ pattern_by query true) as [m|] eqn:Hm.
  - apply match_by_Some in Hm as (g1' & g2' & -> & Hsplit' & Hmax).
    exists g1', g2'. split_and!; [done|by eapply Hmax|done].
  - by destruct (match_by_None query Hm g1 g2).
Qed.

Lemma parse_query_dash (query : string) (g1 g2 : list ascii) :
  (∀ g1 g2, ¬ by_split query g1 g2) → dash_split query g1 g2 →
  ∃ g1' g2', dash_split query g1' g2' ∧ (length g1 ≤ length g1')%nat
             ∧ parse_query query = parsed g1' g2'.
Proof.
  intros Hby Hsplit. unfold parse_query, patterns, parse_with.
  destruct (Re.match_ pattern_by query true) as [m|] eqn:Hm.
  { apply match_by_Some in Hm as (h1 & h2 & _ & Hsplit' & _). by destruct (Hby h1 h2). }
  destruct (Re.match_ pattern_dash query true) as [m'|] eqn:Hm'.
  - apply match_dash_Some in Hm' as (g1' & g2' & -> & Hsplit' & Hmax).
    exists g1', g2'. split_and!; [done|by eapply Hmax|done].
  - by destruct (match_dash_None query Hm' g1 g2).
Qed.

Lemma strip_trimmed (s : string) : trimmed (Str.chars (Str.strip s)).
Proof. by destruct (trim_of_strip s) as (ws1 & ws2 & _ & _ & _ & Ht). Qed.

(** X16: whatever the query, the song and the artist [parse_query] returns
    carry no whitespace at either end. *)
Theorem parse_query_stripped (query : string) :
  trimmed (Str.chars (song (parse_query query)))
  ∧ (∀ a, artist (parse_query query) = Some a → trimmed (Str.chars a)).
Proof.
  unfold parse_query, patterns, parse_with.
  destruct (Re.match_ pattern_by query true) as [m|]; simpl.
  { split; [apply strip_trimmed|]. intros a [= <-]. apply strip_trimmed. }
  destruct (Re.match_ pattern_dash query true) as [m|]; simpl.
  { split; [apply strip_trimmed|]. intros a [= <-]. apply strip_trimmed. }
  split; [apply strip_trimmed|done].
Qed.

Lemma by_split_spaces (query : string) (g1 g2 : list ascii) :
  by_split query g1 g2 → (2 ≤ count_spaces (Str.chars query))%nat.
Proof.
  intros (w1 & kw & w2 & tl & -> & _ & _ & Hw1 & Hs1 & _ & Hw2 & Hs2 & _).
  rewrite !count_spaces_app, (count_spaces_spaces w1), (count_spaces_spaces w2) by done.
  destruct w1, w2; simpl in *; try done. lia.
Qed.

Lemma by_split_keyword (query : string) (g1 g2 : list ascii) :
  by_split query g1 g2 → ∃ c, c ∈ Str.chars query ∧ ¬ whitespace c
                              ∧ c ≠ "-"%char ∧ ∃ kw, keyword kw ∧ c ∈ kw.
Proof.
  intros (w1 & kw & w2 & tl & -> & _ & _ & _ & _ & Hkw & _).
  destruct (keyword_no_space kw Hkw) as [Hns Hne].
  destruct kw as [|c kw]; [done|]. exists c. split_and!.
  - rewrite !elem_of_app. right. right. left. left.
  - by apply Forall_cons in Hns as [? _].
  - intros ->. apply keyword_lower in Hkw. by destruct Hkw as [?|[?|?]].
  - exists (c :: kw). split; [done|left].
Qed.

Lemma dash_split_hyphen (query : string) (g1 g2 : list ascii) :
  dash_split query g1 g2 → "-"%char ∈ Str.chars query.
Proof.
  intros (w1 & w2 & tl & -> & _). rewrite !elem_of_app. right. right. left. left.
Qed.

Lemma parse_query_one_word (query : string) :
  no_space (Str.chars query) → "-"%char ∉ Str.chars query →
  parse_query query = {| song := query; artist := None; search_type := "track" |}.
Proof.
  intros Hns Hhy. rewrite parse_query_plain.
  - by rewrite strip_no_space.
  - intros g1 g2 Hsplit%by_split_spaces.
    apply count_spaces_no_space in Hns. lia.
  - by intros g1 g2 Hsplit%dash_split_hyphen.
Qed.

Lemma parse_query_blank (query : string) :
  spaces (Str.chars query) →
  parse_query query = {| song := ""; artist := None; search_type := "track" |}.
Proof.
  intros Hsp. rewrite parse_query_plain.
  - unfold Str.strip. by rewrite Str_facts.strip_chars_spaces.
  - intros g1 g2 (c & Hc & Hns & _)%by_split_keyword.
    unfold spaces in Hsp. rewrite Forall_forall in Hsp. by specialize (Hsp c Hc).
  - intros g1 g2 Hin%dash_split_hyphen.
    unfold spaces in Hsp. rewrite Forall_forall in Hsp. specialize (Hsp _ Hin).
    assert (¬ whitespace "-"%char) by by_computation. done.
Qed.

(** X17: a query without whitespace and without hyphen is the song, as it is,
    and has no artist; a query of whitespace only (the empty query is one)
    gives the empty song and no artist. *)
Theorem parse_query_without_separator (query : string) :
  (no_space (Str.chars query) → "-"%char ∉ Str.chars query →
   parse_query query = {| song := query; artist := None; search_type := "track" |})
  ∧ (spaces (Str.chars query) →
     parse_query query = {| song := ""; artist := None; search_type := "track" |}).
Proof. split; [apply parse_query_one_word|apply parse_query_blank]. Qed.

(** ** Round trips *)

Lemma app_eq_app_le {A} (l1 l2 k1 k2 : list A) :
  l1 ++ l2 = k1 ++ k2 → (length l1 ≤ length k1)%nat →
  ∃ y, k1 = l1 ++ y ∧ l2 = y ++ k2.
Proof.
  revert k1. induction l1 as [|x l1 IH]; intros k1 Heq Hlen; simpl in *.
  - by exists k1.
  - destruct k1 as [|z k1]; simpl in *; [lia|]. injection Heq as -> Heq.
    destruct (IH k1 Heq ltac:(lia)) as (y & -> & ->). by exists y.
Qed.

Lemma line_end_no_space (tl : list ascii) : line_end tl → count_spaces tl = 0%nat → tl = [].
Proof. by intros [->| ->]. Qed.

(** X18: a query [<song> <by|from|of> <artist>], written with single spaces
    and the keyword in any case, gives back the song (stripped) and the
    artist, when the artist is one word; the song may be any text without
    newline, also one that contains a keyword or a hyphen. *)
Theorem parse_query_by_round_trip (s kw t : string) :
  s ≠ "" → no_newline (Str.chars s) → keyword (Str.chars kw) →
  t ≠ "" → no_space (Str.chars t) →
  parse_query (s +:+ " " +:+ kw +:+ " " +:+ t)
  = {| song := Str.strip s; artist := Some t; search_type := "track" |}.
Proof.
  intros Hs Hsn Hkw Ht Htn.
  set (query := s +:+ " " +:+ kw +:+ " " +:+ t).
  destruct (keyword_no_space _ Hkw) as [Hkn _].
  assert (Hq : Str.chars query
               = Str.chars s ++ " "%char :: Str.chars kw ++ " "%char :: Str.chars t).
  { unfold query. by rewrite !chars_app. }
  assert (Hsplit : by_split query (Str.chars s) (Str.chars t)).
  { exists [" "%char], (Str.chars kw), [" "%char], []. rewrite Hq, app_nil_r.
    split_and!; try done.
    - by rewrite chars_nil.
    - by repeat constructor.
    - by repeat constructor.
    - by rewrite chars_nil.
    - by apply no_space_no_newline.
    - by left. }
  destruct (parse_query_by query _ _ Hsplit) as (g1 & g2 & Hsplit' & Hlen & ->).
  destruct Hsplit' as (w1 & kw' & w2 & tl & Hq' & _ & _ & Hw1 & Hs1 & Hkw' & Hw2 & Hs2
                       & _ & _ & Hend).
  destruct (keyword_no_space _ Hkw') as [Hkn' _].
  rewrite Hq in Hq'. destruct (app_eq_app_le _ _ _ _ Hq' Hlen) as (y & -> & Hrest).
  assert (Hcount : count_spaces (" "%char :: Str.chars kw ++ " "%char :: Str.chars t) = 2%nat).
  { simpl. rewrite count_spaces_app. simpl.
    apply count_spaces_no_space in Hkn, Htn. rewrite Hkn, Htn. done. }
  rewrite Hrest, !count_spaces_app, (count_spaces_spaces w1), (count_spaces_spaces w2)
    in Hcount by done.
  apply count_spaces_no_space in Hkn'. rewrite Hkn' in Hcount.
  destruct w1 as [|c1 [|? ?]]; [done| |simpl in Hcount; destruct w2; [done|simpl in Hcount; lia]].
  destruct w2 as [|c2 [|? ?]]; [done| |simpl in Hcount; lia].
  simpl in Hcount.
  destruct y as [|c y].
  2:{ simpl in Hrest. injection Hrest as <- _. simpl in Hcount. lia. }
  assert (tl = []) as -> by (apply line_end_no_space; [done|lia]).
  simpl in Hrest. injection Hrest as <- Hrest.
  apply Forall_cons in Hs2 as [Hc2 _].
  apply first_space in Hrest as (_ & _ & Hg2);
    [|done|by apply count_spaces_no_space|first [done|by_computation]..].
  rewrite app_nil_r in Hg2. subst g2.
  unfold parsed. rewrite app_nil_r, !Str_facts.of_chars_chars.
  by rewrite (strip_no_space t).
Qed.

(** X19: a query [<song> - <artist>] in which the song and the artist are
    each one word, the artist without hyphen, gives back the song and the
    artist; the song may contain hyphens. *)
Theorem parse_query_dash_round_trip (s t : string) :
  s ≠ "" → no_space (Str.chars s) → t ≠ "" → no_space (Str.chars t) →
  "-"%char ∉ Str.chars t →
  parse_query (s +:+ " - " +:+ t)
  = {| song := s; artist := Some t; search_type := "track" |}.
Proof.
  intros Hs Hsn Ht Htn Hhy.
  set (query := s +:+ " - " +:+ t).
  assert (Hq : Str.chars query
               = Str.chars s ++ " "%char :: "-"%char :: " "%char :: Str.chars t).
  { unfold query. by rewrite !chars_app. }
  assert (Hcount : count_spaces (Str.chars query) = 2%nat).
  { rewrite Hq, count_spaces_app. simpl.
    apply count_spaces_no_space in Hsn, Htn. rewrite Hsn, Htn. done. }
  assert (Hby : ∀ g1 g2, ¬ by_split query g1 g2).
  { intros g1 g2 (w1 & kw & w2 & tl & Hq' & _ & _ & Hw1 & Hs1 & Hkw & Hw2 & Hs2 & _).
    destruct (keyword_no_space _ Hkw) as [Hkn _].
    rewrite Hq', !count_spaces_app, (count_spaces_spaces w1), (count_spaces_spaces w2)
      in Hcount by done.
    destruct w1 as [|c1 [|? ?]]; [done| |simpl in Hcount; destruct w2; [done|simpl in Hcount; lia]].
    destruct w2 as [|c2 [|? ?]]; [done| |simpl in Hcount; lia].
    simpl in Hcount. rewrite Hq in Hq'. simpl in Hq'.
    apply Forall_cons in Hs1 as [Hc1 _]. apply Forall_cons in Hs2 as [Hc2 _].
    apply first_space in Hq' as (_ & _ & Hrest);
      [|done|apply count_spaces_no_space; lia|first [done|by_computation]..].
    apply (first_space ["-"%char] kw) in Hrest as (<- & _);
      [|by_computation|done|first [done|by_computation]..].
    by apply (keyword_not_hyphen ["-"%char]). }
  assert (Hsplit : dash_split query (Str.chars s ++ [" "%char]) (Str.chars t)).
  { exists [], [" "%char], []. rewrite Hq, app_nil_r, <- app_assoc.
    split_and!; try done.
    - by destruct (Str.chars s).
    - apply Forall_app. split; [by apply no_space_no_newline|by repeat constructor].
    - constructor.
    - by repeat constructor.
    - by rewrite chars_nil.
    - by apply no_space_no_newline.
    - by left. }
  destruct (parse_query_dash query _ _ Hby Hsplit) as (g1 & g2 & Hsplit' & Hlen & ->).
  destruct Hsplit' as (w1 & w2 & tl & Hq' & _ & _ & Hs1 & Hs2 & Hg2 & _ & Hend).
  rewrite Hq in Hq'.
  change (Str.chars s ++ " "%char :: "-"%char :: " "%char :: Str.chars t)
    with (Str.chars s ++ [" "%char] ++ "-"%char :: " "%char :: Str.chars t) in Hq'.
  rewrite app_assoc in Hq'.
  destruct (app_eq_app_le _ _ _ _ Hq' Hlen) as (y & -> & Hrest).
  destruct y as [|c y].
  2:{ exfalso. simpl in Hrest. injection Hrest as <- Hrest.
      assert (Hin : "-"%char ∈ " "%char :: Str.chars t).
      { rewrite Hrest, !elem_of_app. right. right. left. }
      apply elem_of_cons in Hin as [?|?]; done. }
  destruct w1 as [|c w1].
  2:{ exfalso. simpl in Hrest. injection Hrest as <- _.
      apply Forall_cons in Hs1 as [Hc _]. revert Hc. by_computation. }
  simpl in Hrest. injection Hrest as Hrest.
  assert (tl = []) as ->.
  { destruct Hend as [->| ->]; [done|]. exfalso.
    destruct (Str.chars t) as [|x l] eqn:Hl using rev_ind; [by apply chars_nil in Hl|].
    rewrite !app_assoc, app_comm_cons in Hrest.
    apply app_inj_tail in Hrest as [_ Hx].
    unfold no_space in Htn. apply Forall_app in Htn as [_ [Hnl _]%Forall_cons].
    rewrite Hx in Hnl. apply Hnl. by_computation. }
  rewrite app_nil_r in Hrest. unfold parsed, Str.strip.
  rewrite !chars_of_chars, app_nil_r, Str_facts.strip_chars_app_spaces
    by (by repeat constructor).
  rewrite <- (Str_facts.strip_chars_spaces_app w2 g2), <- Hrest by done.
  change (" "%char :: Str.chars t) with ([" "%char] ++ Str.chars t).
  rewrite (Str_facts.strip_chars_spaces_app [" "%char]) by (by repeat constructor).
  rewrite !Str_facts.strip_chars_trimmed by (by apply Str_facts.no_space_trimmed).
  by rewrite !Str_facts.of_chars_chars.
Qed.

(** ** Further properties of the similarity *)

Module Similarity_facts.
Import Difflib Difflib_facts.

Section cover.
Context `{Countable A}.
Variable self : SequenceMatcher (A := A).
Hypothesis Hb2j : b2j_sound self.

#[local] Abbreviation la := (Z.of_nat (length (sm_a self))).
#[local] Abbreviation lb := (Z.of_nat (length (sm_b self))).

Lemma collapse_positive (l : list Match) : ∀ cur acc,
  Forall (λ m, 0 < size m) l → 0 ≤ size cur → Forall (λ m, 0 < size m) acc →
  Forall (λ m, 0 < size m) (foldl collapse_step (cur, acc) l).2
  ∧ 0 ≤ size (foldl collapse_step (cur, acc) l).1.
Proof.
  induction l as [|x l IH]; intros cur acc Hl Hcur Hacc; simpl; [done|].
  apply Forall_cons in Hl as [Hx Hl].
  destruct cur as [[i1 j1] k1], x as [[i2 j2] k2]. unfold size in Hcur, Hx. simpl in Hcur, Hx.
  remember (collapse_step (i1, j1, k1, acc) (i2, j2, k2)) as st' eqn:Hst.
  unfold collapse_step in Hst. case_bool_decide as Hadj; subst st'.
  - apply IH; [done|unfold size; simpl; lia|done].
  - apply IH; [done|unfold size; simpl; lia|].
    case_bool_decide; [|done]. apply Forall_app. split; [done|].
    apply Forall_singleton. unfold size. simpl. lia.
Qed.

(** The loop [while queue:] only keeps blocks that are not empty. *)
Lemma queue_step_positive st :
  queue_ok st.1 → Forall (λ m, 0 < size m) st.2 →
  Forall (λ m, 0 < size m) (queue_step self st).2.
Proof.
  destruct st as [[|[[[alo ahi] blo] bhi] queue] blocks]; [done|].
  simpl. intros [[Ha Hb] _]%Forall_cons Hpos.
  pose proof (find_longest_match_ok self alo ahi blo bhi Hb2j Ha Hb) as [Hw _].
  destruct (find_longest_match self alo ahi blo bhi) as [[i j] k].
  unfold within in Hw. case_bool_decide as Hk; [|done]. simpl.
  apply Forall_app. split; [done|]. apply Forall_singleton. unfold size. simpl. lia.
Qed.

Lemma loop_blocks_positive :
  Forall (λ m, 0 < size m)
    (while (Z.to_nat (2 * la + 1)) queue_nonempty (queue_step self) ([(0, la, 0, lb)], [])).2.
Proof.
  apply (while_invariant (λ st, state_ok self la lb st ∧ Forall (λ m, 0 < size m) st.2)).
  - split; [|constructor]. unfold state_ok, span_a, span_b. simpl.
    split_and!; [apply Forall_singleton; lia|by apply Forall_nil|lia|lia].
  - intros st [Hok Hpos] Hc. split.
    + by destruct (queue_step_ok self Hb2j la lb st Hok Hc).
    + apply queue_step_positive; [apply Hok|done].
Qed.

(** [get_matching_blocks] returns blocks that are not empty, followed by the
    sentinel [(len(a), len(b), 0)]; the sizes are those the loop has found. *)
Lemma get_matching_blocks_shape :
  ∃ l, get_matching_blocks self = l ++ [(la, lb, 0)]
       ∧ Forall (λ m, 0 < size m) l
       ∧ sum_sizes l
         = sum_sizes (while (Z.to_nat (2 * la + 1)) queue_nonempty (queue_step self)
                        ([(0, la, 0, lb)], [])).2.
Proof.
  pose proof loop_blocks_positive as Hpos.
  destruct (queue_loop_ok self Hb2j la lb ltac:(lia) ltac:(lia)) as [(_ & Hbl & _) _].
  unfold get_matching_blocks.
  destruct (while _ _ _ _) as [queue blocks]. simpl in *.
  pose proof (merge_sort_Permutation Match_le blocks) as Hperm.
  assert (Hpos' : Forall (λ m, 0 < size m) (merge_sort Match_le blocks)) by by rewrite Hperm.
  assert (Hbl' : blocks_ok self (merge_sort Match_le blocks)).
  { unfold blocks_ok. by rewrite Hperm. }
  pose proof (collapse_positive (merge_sort Match_le blocks) (0, 0, 0) [] Hpos'
                ltac:(done) ltac:(constructor)) as [Hacc Hcur].
  pose proof (collapse_ok self (merge_sort Match_le blocks) 0 0 0 [] Hbl'
                ltac:(by apply Forall_nil) ltac:(intros t Ht; lia) ltac:(lia)) as Hc.
  destruct (foldl collapse_step _ _) as [[[i1 j1] k1] acc]. simpl in *.
  destruct Hc as (_ & _ & _ & Hsum).
  rewrite (sum_sizes_Permutation _ _ Hperm) in Hsum. unfold size in Hcur. simpl in Hcur.
  eexists. split; [done|]. case_bool_decide as Hk1.
  - split.
    + apply Forall_app. split; [done|]. apply Forall_singleton. unfold size. simpl. lia.
    + rewrite sum_sizes_app. unfold size. simpl. lia.
  - split; [done|]. lia.
Qed.

(** A block of [get_matching_blocks] lies inside both sequences. *)
Definition placed (p q : Z) (m : Match) : Prop :=
  let '(i, j, k) := m in
  p ≤ i ∧ q ≤ j ∧ 0 ≤ k ∧ i + k ≤ la ∧ j + k ≤ lb ∧ matching self (i, j, k).

Lemma get_matching_blocks_placed :
  Forall (placed 0 0) (get_matching_blocks self).
Proof.
  destruct (get_matching_blocks_ok self Hb2j) as (Hok & _).
  destruct get_matching_blocks_shape as (l & Heq & Hpos & _).
  rewrite Heq in Hok |- *. apply Forall_app in Hok as [Hok Hlast].
  apply Forall_app. split.
  - rewrite Forall_forall in Hok, Hpos |- *. intros [[i j] k] Hin.
    destruct (Hok _ Hin) as [Hm _]. specialize (Hpos _ Hin). unfold size in Hpos.
    simpl in Hpos. destruct (matching_bounds self i j k Hpos Hm) as (? & ? & ? & ?).
    unfold placed. split_and!; [lia..|done].
  - apply Forall_singleton. unfold placed. split_and!; [lia..|]. intros t Ht. lia.
Qed.

Lemma placed_after (x : Match) (l : list Match) p q :
  placed p q x → Forall (block_before x) l → Forall (placed p q) l →
  Forall (placed (x.1.1 + size x) (x.1.2 + size x)) l.
Proof.
  destruct x as [[i j] k]. unfold size. simpl. intros Hx Hb Hl.
  rewrite Forall_forall in Hb, Hl |- *. intros [[i' j'] k'] Hin.
  specialize (Hb _ Hin). specialize (Hl _ Hin).
  unfold block_before, before, placed in *. simpl in *. intuition lia.
Qed.

(** Blocks in ascending order that start at [p] and [q] or later cover no
    more than what is left of either sequence. *)
Lemma sum_sizes_placed (l : list Match) : ∀ p q,
  p ≤ la → q ≤ lb →
  StronglySorted block_before l → Forall (placed p q) l →
  sum_sizes l ≤ la - p ∧ sum_sizes l ≤ lb - q.
Proof.
  induction l as [|x l IH]; intros p q Hp Hq Hs Hl; simpl; [lia|].
  apply StronglySorted_cons in Hs as [Hxl Hs]. apply Forall_cons in Hl as [Hx Hl].
  pose proof (placed_after x l p q Hx Hxl Hl) as Hl'.
  destruct x as [[i j] k]. unfold size in *. simpl in *.
  destruct Hx as (? & ? & ? & ? & ? & _).
  destruct (IH (i + k) (j + k) ltac:(lia) ltac:(lia) Hs Hl'). lia.
Qed.

(** When such blocks cover all that is left of both sequences, the two
    remainders are equal, element by element. *)
Lemma full_cover (l : list Match) : ∀ p q,
  p ≤ la → q ≤ lb →
  StronglySorted block_before l → Forall (placed p q) l →
  sum_sizes l = la - p → sum_sizes l = lb - q →
  ∀ t, 0 ≤ t < la - p → item (sm_a self) (p + t) = item (sm_b self) (q + t).
Proof.
  induction l as [|x l IH]; intros p q Hp Hq Hs Hl Ha Hb t Ht; simpl in *; [lia|].
  apply StronglySorted_cons in Hs as [Hxl Hs]. apply Forall_cons in Hl as [Hx Hl].
  pose proof (placed_after x l p q Hx Hxl Hl) as Hl'.
  destruct x as [[i j] k]. unfold size in *. simpl in *.
  destruct Hx as (? & ? & ? & ? & ? & Hm).
  destruct (sum_sizes_placed l (i + k) (j + k) ltac:(lia) ltac:(lia) Hs Hl').
  assert (i = p) as -> by lia. assert (j = q) as -> by lia.
  destruct (decide (t < k)) as [Hlt|Hge]; [apply Hm; lia|].
  replace (p + t) with (p + k + (t - k)) by lia.
  replace (q + t) with (q + k + (t - k)) by lia.
  apply (IH (p + k) (q + k)); [lia..|done|done|lia|lia|lia].
Qed.

Lemma item_nat (s : list A) (i : nat) : item s (Z.of_nat i) = s !! i.
Proof. unfold item. rewrite bool_decide_eq_true_2 by lia. by rewrite Nat2Z.id. Qed.

(** Blocks that cover both sequences entirely: the sequences are equal. *)
Lemma full_cover_equal :
  sum_sizes (get_matching_blocks self) = la →
  sum_sizes (get_matching_blocks self) = lb →
  sm_a self = sm_b self.
Proof.
  intros Ha Hb.
  pose proof (full_cover (get_matching_blocks self) 0 0 ltac:(lia) ltac:(lia)
                (get_matching_blocks_ordered self Hb2j) get_matching_blocks_placed
                ltac:(lia) ltac:(lia)) as Heq.
  apply list_eq. intros n.
  destruct (decide (n < length (sm_a self))%nat) as [Hlt|Hge].
  - rewrite <- !item_nat. apply (Heq (Z.of_nat n)). lia.
  - rewrite !lookup_ge_None_2; [done|lia|lia].
Qed.


(** *** Blocks that are not empty come from a common element *)

Lemma positive_block (l : list Match) :
  Forall (λ m, 0 ≤ size m) l → 0 < sum_sizes l → ∃ m, m ∈ l ∧ 0 < size m.
Proof.
  induction 1 as [|x l Hx _ IH]; simpl; [lia|]. intros Hsum.
  destruct (decide (0 < size x)) as [Hpos|Hzero].
  - exists x. split; [left|done].
  - destruct IH as (m & Hm & Hk); [lia|]. exists m. split; [by right|done].
Qed.

Lemma positive_sum_common :
  0 < sum_sizes (get_matching_blocks self) →
  ∃ c, c ∈ sm_a self ∧ c ∈ sm_b self.
Proof.
  intros Hsum. destruct (get_matching_blocks_ok self Hb2j) as (Hok & _).
  destruct (positive_block (get_matching_blocks self)) as ([[i j] k] & Hin & Hk).
  { eapply Forall_impl; [exact Hok|]. by intros m [_ ?]. }
  { done. }
  unfold blocks_ok in Hok. rewrite Forall_forall in Hok. destruct (Hok _ Hin) as [Hm _].
  unfold size in Hk. simpl in Hk.
  destruct (Hm 0 ltac:(lia)) as [[c Ha] Hb]. rewrite Ha in Hb. symmetry in Hb.
  exists c. unfold item in Ha, Hb. repeat case_bool_decide; try done.
  split; by eapply list_elem_of_lookup_2.
Qed.

(** *** A common element that [b2j] lists gives a block that is not empty *)

Definition nonneg (j2len : gmap Z Z) : Prop := ∀ j k, j2len !! j = Some k → 0 ≤ k.

Lemma scan_row_grows blo bhi i j2len (js : list Z) : ∀ newj2len best,
  nonneg j2len → nonneg newj2len →
  nonneg (scan_row blo bhi i j2len js newj2len best).1
  ∧ size best ≤ size (scan_row blo bhi i j2len js newj2len best).2
  ∧ (js ≠ [] → (∀ j, j ∈ js → blo ≤ j < bhi) →
     1 ≤ size (scan_row blo bhi i j2len js newj2len best).2).
Proof.
  induction js as [|j js IH]; intros newj2len best Hprev Hnew; simpl.
  { split_and!; [done|reflexivity|done]. }
  case_bool_decide as Hlo.
  { destruct (IH newj2len best Hprev Hnew) as (? & ? & _). split_and!; [done..|].
    intros _ Hall. specialize (Hall j ltac:(left)). lia. }
  case_bool_decide as Hhi.
  { split_and!; [done|simpl; lia|]. intros _ Hall. specialize (Hall j ltac:(left)). lia. }
  assert (Hk : 1 ≤ default 0 (j2len !! (j - 1)) + 1).
  { destruct (j2len !! (j - 1)) as [k|] eqn:Hlk; simpl; [|lia].
    specialize (Hprev _ _ Hlk). lia. }
  match goal with |- context [scan_row _ _ _ _ js ?m ?b] =>
    destruct (IH m b Hprev) as (Hn & Hs & _)
  end.
  { intros j' k'. rewrite lookup_insert. case_decide; [intros [= <-]; lia|apply Hnew]. }
  split_and!; [done| |].
  - etrans; [|exact Hs]. case_bool_decide; unfold size in *; simpl; lia.
  - intros _ _. etrans; [|exact Hs]. case_bool_decide; unfold size in *; simpl; lia.
Qed.

Lemma scan_rows_grows blo bhi (rows : list Z) : ∀ st,
  nonneg st.1 →
  size st.2 ≤ size (scan_rows self blo bhi rows st).2
  ∧ (∀ i c js, i ∈ rows → item (sm_a self) i = Some c → b2j self !! c = Some js →
       js ≠ [] → (∀ j, j ∈ js → blo ≤ j < bhi) →
       1 ≤ size (scan_rows self blo bhi rows st).2).
Proof.
  induction rows as [|i rows IH]; intros [j2len best] Hnn; simpl in *.
  { split; [lia|]. intros i c js Hi. by apply elem_of_nil in Hi. }
  fold (scan_rows self blo bhi).
  pose proof (scan_row_grows blo bhi i j2len
                (default [] (item (sm_a self) i ≫= (b2j self !!.))) ∅ best Hnn
                ltac:(intros ??; by rewrite lookup_empty)) as (Hn & Hs & Hhit).
  destruct (scan_row _ _ _ _ _ _ _) as [j2len' best'] eqn:Hrow. simpl in *.
  destruct (IH (j2len', best') Hn) as [Hs' Hhit']. simpl in *.
  split; [lia|].
  intros i' c js [->|Hi']%elem_of_cons Hc Hjs Hne Hall.
  - rewrite Hc in Hhit. simpl in Hhit. rewrite Hjs in Hhit. simpl in Hhit.
    specialize (Hhit Hne Hall). lia.
  - by eapply Hhit'.
Qed.

Lemma extend_back_grows alo blo junk m :
  size m ≤ size (extend_back self alo blo junk m).
Proof.
  unfold extend_back. apply (while_invariant (λ m', size m ≤ size m')); [lia|].
  intros [[bi bj] bs] Hle _. unfold size in *. simpl in *. lia.
Qed.

Lemma extend_forth_grows ahi bhi junk m :
  size m ≤ size (extend_forth self ahi bhi junk m).
Proof.
  unfold extend_forth. apply (while_invariant (λ m', size m ≤ size m')); [lia|].
  intros [[bi bj] bs] Hle _. unfold size in *. simpl in *. lia.
Qed.

Lemma find_longest_match_positive alo ahi blo bhi i c js :
  alo ≤ i < ahi → item (sm_a self) i = Some c → b2j self !! c = Some js →
  js ≠ [] → (∀ j, j ∈ js → blo ≤ j < bhi) →
  1 ≤ size (find_longest_match self alo ahi blo bhi).
Proof.
  intros Hi Hc Hjs Hne Hall. unfold find_longest_match.
  etrans; [|apply extend_forth_grows]. etrans; [|apply extend_back_grows].
  etrans; [|apply extend_forth_grows]. etrans; [|apply extend_back_grows].
  destruct (scan_rows_grows blo bhi (seqZ alo (ahi - alo)) (∅, (alo, blo, 0))
              ltac:(intros ??; simpl; by rewrite lookup_empty)) as [_ Hhit].
  apply (Hhit i c js); [|done..]. apply elem_of_seqZ. lia.
Qed.

Lemma queue_step_sum st :
  state_ok self la lb st → sum_sizes st.2 ≤ sum_sizes (queue_step self st).2.
Proof.
  destruct st as [[|[[[alo ahi] blo] bhi] queue] blocks]; [done|].
  intros (Hq & _). apply Forall_cons in Hq as [[Ha Hb] _]. simpl.
  pose proof (find_longest_match_ok self alo ahi blo bhi Hb2j Ha Hb) as [Hw _].
  destruct (find_longest_match self alo ahi blo bhi) as [[i j] k].
  unfold within in Hw. case_bool_decide; simpl; [|lia].
  rewrite sum_sizes_app. unfold size. simpl. lia.
Qed.

(** The first block the loop finds stays in the list. *)
Lemma loop_sum_first :
  size (find_longest_match self 0 la 0 lb)
  ≤ sum_sizes (while (Z.to_nat (2 * la + 1)) queue_nonempty (queue_step self)
                 ([(0, la, 0, lb)], [])).2.
Proof.
  assert (Hinit : state_ok self la lb ([(0, la, 0, lb)], [])).
  { unfold state_ok, span_a, span_b. simpl.
    split_and!; [apply Forall_singleton; lia|by apply Forall_nil|lia|lia]. }
  destruct (Z.to_nat (2 * la + 1)) as [|n] eqn:Hn; [lia|].
  change (while (S n) queue_nonempty (queue_step self) ([(0, la, 0, lb)], []))
    with (while n queue_nonempty (queue_step self) (queue_step self ([(0, la, 0, lb)], []))).
  apply (while_invariant (λ st, state_ok self la lb st
           ∧ size (find_longest_match self 0 la 0 lb) ≤ sum_sizes st.2)).
  - split; [by destruct (queue_step_ok self Hb2j la lb _ Hinit eq_refl)|].
    pose proof (find_longest_match_ok self 0 la 0 lb Hb2j ltac:(lia) ltac:(lia)) as [Hw _].
    simpl. destruct (find_longest_match self 0 la 0 lb) as [[i j] k].
    unfold within in Hw. unfold size. simpl.
    case_bool_decide as Hk; simpl; [lia|]. simpl. lia.
  - intros st [Hok Hle] Hc. split.
    + by destruct (queue_step_ok self Hb2j la lb st Hok Hc).
    + etrans; [exact Hle|]. by apply queue_step_sum.
Qed.

Lemma common_positive_sum i c js :
  item (sm_a self) i = Some c → b2j self !! c = Some js → js ≠ [] →
  1 ≤ sum_sizes (get_matching_blocks self).
Proof.
  intros Hc Hjs Hne.
  destruct get_matching_blocks_shape as (l & -> & _ & Hsum).
  rewrite sum_sizes_app, Hsum. simpl.
  pose proof loop_sum_first as Hfirst.
  assert (1 ≤ size (find_longest_match self 0 la 0 lb)); [|lia].
  apply (find_longest_match_positive 0 la 0 lb i c js); [|done..|].
  - apply item_Some_range in Hc. lia.
  - intros j Hj. apply (item_Some_range (sm_b self) j c). by eapply Hb2j.
Qed.

End cover.

(** *** [find_longest_match] finds a longest block

    when [b2j] lists every position of [b] (nothing has been purged). *)
Section longest.
Context `{Countable A}.
Variable self : SequenceMatcher (A := A).
Hypothesis Hb2j : b2j_sound self.
Hypothesis Hcomplete :
  ∀ c j, item (sm_b self) j = Some c → ∃ js, b2j self !! c = Some js ∧ j ∈ js.

#[local] Abbreviation la := (Z.of_nat (length (sm_a self))).
#[local] Abbreviation lb := (Z.of_nat (length (sm_b self))).

(** [k = j2len.get(j-1, 0) + 1] *)
Definition next_length (j2len : gmap Z Z) (j : Z) : Z := default 0 (j2len !! (j - 1)) + 1.

(** A common block of length [k] that ends at [a[i]] and [b[j]]. *)
Definition ends_at (i j k : Z) : Prop := matching self (i - k + 1, j - k + 1, k).

Definition row_complete (i : Z) (j2len : gmap Z Z) : Prop :=
  nonneg j2len ∧ ∀ j k, 1 ≤ k → ends_at i j k → ∃ v, j2len !! j = Some v ∧ k ≤ v.

Definition best_complete (i : Z) (best : Match) : Prop :=
  ∀ i' j k, i' ≤ i → 1 ≤ k → ends_at i' j k → k ≤ size best.

Lemma ends_at_items i j k :
  1 ≤ k → ends_at i j k →
  is_Some (item (sm_a self) i) ∧ item (sm_a self) i = item (sm_b self) j.
Proof.
  intros Hk Hm. specialize (Hm (k - 1) ltac:(lia)).
  by replace (i - k + 1 + (k - 1)) with i in Hm by lia;
     replace (j - k + 1 + (k - 1)) with j in Hm by lia.
Qed.

Lemma ends_at_shorter i j k :
  2 ≤ k → ends_at i j k → ends_at (i - 1) (j - 1) (k - 1).
Proof.
  intros Hk Hm t Ht. specialize (Hm t ltac:(lia)).
  by replace (i - 1 - (k - 1) + 1 + t) with (i - k + 1 + t) by lia;
     replace (j - 1 - (k - 1) + 1 + t) with (j - k + 1 + t) by lia.
Qed.

(** The inner loop, when no position is skipped: every position of [js]
    gets its length, and [best] is at least as long. *)
Lemma scan_row_exact blo bhi i j2len (js : list Z) : ∀ newj2len best,
  (∀ j, j ∈ js → blo ≤ j < bhi) →
  (∀ j, j ∈ js →
     (scan_row blo bhi i j2len js newj2len best).1 !! j = Some (next_length j2len j)
     ∧ next_length j2len j ≤ size (scan_row blo bhi i j2len js newj2len best).2)
  ∧ (∀ j, j ∉ js → (scan_row blo bhi i j2len js newj2len best).1 !! j = newj2len !! j)
  ∧ size best ≤ size (scan_row blo bhi i j2len js newj2len best).2.
Proof.
  induction js as [|j js IH]; intros newj2len best Hall; simpl.
  { split_and!; [by intros j ?%elem_of_nil|done|lia]. }
  pose proof (Hall j ltac:(left)) as Hj.
  rewrite bool_decide_eq_false_2 by lia. rewrite bool_decide_eq_false_2 by lia.
  change (default 0 (j2len !! (j - 1)) + 1) with (next_length j2len j).
  set (best' := if bool_decide (size best < next_length j2len j)
                then (i - next_length j2len j + 1, j - next_length j2len j + 1,
                      next_length j2len j)
                else best).
  assert (Hbest : size best ≤ size best' ∧ next_length j2len j ≤ size best').
  { unfold best'. case_bool_decide; unfold size in *; simpl; lia. }
  destruct (IH (<[j := next_length j2len j]> newj2len) best'
              ltac:(intros; apply Hall; by right)) as (Hin & Hout & Hsize).
  split_and!.
  - intros j' Hj'. destruct (decide (j' ∈ js)) as [Hjs|Hjs]; [by apply Hin|].
    apply elem_of_cons in Hj' as [->|?]; [|done].
    rewrite (Hout j Hjs), lookup_insert_eq. split; [done|lia].
  - intros j' Hj'. apply not_elem_of_cons in Hj' as [Hne Hjs].
    rewrite (Hout j' Hjs). by rewrite lookup_insert_ne.
  - lia.
Qed.

Lemma row_step (i : Z) (j2len : gmap Z Z) (best : Match) :
  row_complete (i - 1) j2len → best_complete (i - 1) best →
  row_complete i (scan_row 0 lb i j2len
                    (default [] (item (sm_a self) i ≫= (b2j self !!.))) ∅ best).1
  ∧ best_complete i (scan_row 0 lb i j2len
                       (default [] (item (sm_a self) i ≫= (b2j self !!.))) ∅ best).2.
Proof.
  intros [Hnn Hrow] Hbest.
  set (js := default [] (item (sm_a self) i ≫= (b2j self !!.))).
  assert (Hjs : ∀ j, j ∈ js ↔ is_Some (item (sm_a self) i)
                               ∧ item (sm_a self) i = item (sm_b self) j).
  { intros j. unfold js. destruct (item (sm_a self) i) as [c|] eqn:Hc; simpl.
    - destruct (b2j self !! c) as [js'|] eqn:Hjs'; simpl.
      + split.
        * intros Hj. split; [done|]. symmetry. by eapply Hb2j.
        * intros [_ Heq]. symmetry in Heq.
          destruct (Hcomplete c j Heq) as (js'' & Hjs'' & Hin). congruence.
      + split; [by intros ?%elem_of_nil|]. intros [_ Heq]. symmetry in Heq.
        destruct (Hcomplete c j Heq) as (js'' & Hjs'' & Hin). congruence.
    - split; [by intros ?%elem_of_nil|]. by intros [[? ?] _]. }
  assert (Hrange : ∀ j, j ∈ js → 0 ≤ j < lb).
  { intros j [[c Hc] Heq]%Hjs. rewrite Hc in Heq. symmetry in Heq.
    by apply item_Some_range in Heq. }
  destruct (scan_row_exact 0 lb i j2len js ∅ best Hrange) as (Hin & _ & Hsize).
  destruct (scan_row_grows 0 lb i j2len js ∅ best Hnn
              ltac:(intros ??; by rewrite lookup_empty)) as (Hnn' & _).
  assert (Hlen : ∀ j k, 1 ≤ k → ends_at i j k → j ∈ js ∧ k ≤ next_length j2len j).
  { intros j k Hk Hm. split; [by apply Hjs, (ends_at_items i j k)|].
    unfold next_length. destruct (decide (k = 1)) as [->|Hne].
    - destruct (j2len !! (j - 1)) as [v|] eqn:Hv; simpl; [|lia].
      specialize (Hnn _ _ Hv). lia.
    - destruct (Hrow (j - 1) (k - 1) ltac:(lia)) as (v & -> & Hv);
        [apply ends_at_shorter; [lia|done]|]. simpl. lia. }
  split.
  - split; [done|]. intros j k Hk Hm. destruct (Hlen j k Hk Hm) as [Hj Hle].
    exists (next_length j2len j). by destruct (Hin j Hj).
  - intros i' j k Hi' Hk Hm. destruct (decide (i' = i)) as [->|Hne].
    + destruct (Hlen j k Hk Hm) as [Hj Hle]. destruct (Hin j Hj). lia.
    + etrans; [|exact Hsize]. apply (Hbest i' j k); [lia|done..].
Qed.

Lemma scan_rows_complete (n : nat) : ∀ lo st,
  row_complete (lo - 1) st.1 → best_complete (lo - 1) st.2 →
  best_complete (lo + Z.of_nat n - 1) (scan_rows self 0 lb (seqZ lo (Z.of_nat n)) st).2.
Proof.
  induction n as [|n IH]; intros lo [j2len best] Hrow Hbest; simpl in Hrow, Hbest.
  - rewrite seqZ_nil by lia. simpl. by replace (lo + Z.of_nat 0 - 1) with (lo - 1) by lia.
  - rewrite seqZ_cons by lia. unfold scan_rows. simpl. fold (scan_rows self 0 lb).
    replace (Z.pred (Z.of_nat (S n))) with (Z.of_nat n) by lia.
    replace (lo + Z.of_nat (S n) - 1) with (Z.succ lo + Z.of_nat n - 1) by lia.
    destruct (row_step lo j2len best Hrow Hbest) as [Hrow' Hbest'].
    destruct (scan_row _ _ _ _ _ _ _) as [j2len' best']. simpl in *.
    apply IH; simpl; by replace (Z.succ lo - 1) with lo by lia.
Qed.

(** The first block [get_matching_blocks] asks for is as long as any common
    block of the two sequences. *)
Lemma find_longest_match_longest i j k :
  1 ≤ k → matching self (i, j, k) → k ≤ size (find_longest_match self 0 la 0 lb).
Proof.
  intros Hk Hm. destruct (matching_bounds self i j k ltac:(lia) Hm) as (? & ? & ? & ?).
  unfold find_longest_match.
  etrans; [|apply extend_forth_grows]. etrans; [|apply extend_back_grows].
  etrans; [|apply extend_forth_grows]. etrans; [|apply extend_back_grows].
  assert (Hnone : ∀ j' k', 1 ≤ k' → ¬ ends_at (0 - 1) j' k').
  { intros j' k' Hk' Hends. destruct (ends_at_items _ _ _ Hk' Hends) as [[c Hc] _].
    apply item_Some_range in Hc. lia. }
  assert (Hrow : row_complete (0 - 1) (∅ : gmap Z Z)).
  { split; [intros ??; by rewrite lookup_empty|]. intros j' k' Hk' Hends.
    by destruct (Hnone j' k' Hk'). }
  assert (Hbest : best_complete (0 - 1) (0, 0, 0)).
  { intros i' j' k' Hi' Hk' Hends. destruct (ends_at_items _ _ _ Hk' Hends) as [[c Hc] _].
    apply item_Some_range in Hc. lia. }
  pose proof (scan_rows_complete (length (sm_a self)) 0 (∅, (0, 0, 0)) Hrow Hbest) as Hall.
  replace (la - 0) with la by lia.
  apply (Hall (i + k - 1) (j + k - 1) k); [lia|done|].
  unfold ends_at. by replace (i + k - 1 - k + 1) with i by lia;
                     replace (j + k - 1 - k + 1) with j by lia.
Qed.

Lemma common_block_sum i j k :
  0 ≤ k → matching self (i, j, k) → k ≤ sum_sizes (get_matching_blocks self).
Proof.
  intros Hk Hm. destruct (get_matching_blocks_ok self Hb2j) as (_ & H0 & _).
  destruct (decide (k = 0)) as [->|Hne]; [done|].
  destruct (get_matching_blocks_shape self Hb2j) as (l & Heq & _ & Hsum).
  rewrite Heq, sum_sizes_app, Hsum. simpl.
  pose proof (loop_sum_first self Hb2j).
  pose proof (find_longest_match_longest i j k ltac:(lia) Hm). lia.
Qed.

End longest.

(** What [ratio] says of the two sequences. *)
Section ratio_facts.
Context `{Countable A}.
Implicit Types (a b : list A).

Lemma calculate_ratio_one (matches length : Z) :
  0 ≤ matches → 2 * matches ≤ length →
  (calculate_ratio matches length == 1)%Q ↔ 2 * matches = length.
Proof.
  intros Hm Hl. unfold calculate_ratio. case_bool_decide as Hz.
  - unfold Qeq. simpl. rewrite Z2Pos.id by lia. lia.
  - split; [|done]. intros _. lia.
Qed.

Lemma calculate_ratio_positive (matches length : Z) :
  0 ≤ length → 0 ≤ matches →
  (0 < calculate_ratio matches length)%Q ↔ length = 0 ∨ 0 < matches.
Proof.
  intros Hl Hm. unfold calculate_ratio. case_bool_decide as Hz.
  - unfold Qlt. simpl. lia.
  - split; [intros _; lia|done].
Qed.

(** [ratio] is 1 exactly on equal sequences. *)
Lemma ratio_one a b : (ratio (new a b) == 1)%Q ↔ a = b.
Proof.
  split; [|intros ->; apply ratio_identical].
  destruct (get_matching_blocks_ok (new a b) (b2j_sound_new a b)) as (_ & H0 & Ha & Hb).
  unfold ratio. rewrite calculate_ratio_one by lia. intros Hsum.
  pose proof (full_cover_equal (new a b) (b2j_sound_new a b)) as Heq.
  rewrite sm_a_new in Heq, Ha, Hsum. rewrite sm_b_new in Heq, Hb, Hsum. apply Heq; lia.
Qed.

(** [ratio] is positive only on two empty sequences or on sequences with a
    common element. *)
Lemma ratio_positive a b :
  (0 < ratio (new a b))%Q → (a = [] ∧ b = []) ∨ ∃ c, c ∈ a ∧ c ∈ b.
Proof.
  destruct (get_matching_blocks_ok (new a b) (b2j_sound_new a b)) as (_ & H0 & Ha & Hb).
  unfold ratio. rewrite calculate_ratio_positive by lia. intros [Hlen|Hpos].
  - left. rewrite sm_a_new, sm_b_new in Hlen.
    split; apply length_zero_iff_nil; lia.
  - right. apply (positive_sum_common (new a b) (b2j_sound_new a b)) in Hpos.
    by rewrite sm_a_new, sm_b_new in Hpos.
Qed.

(** Below 200 elements of [b] nothing is purged from [b2j], and a common
    element makes [ratio] positive. *)
Lemma ratio_common a b c :
  (length b < 200)%nat → c ∈ a → c ∈ b → (0 < ratio (new a b))%Q.
Proof.
  intros Hlen [i Hi]%list_elem_of_lookup [j Hj]%list_elem_of_lookup.
  destruct (get_matching_blocks_ok (new a b) (b2j_sound_new a b)) as (_ & H0 & Ha & Hb).
  unfold ratio. rewrite calculate_ratio_positive by lia. right.
  assert (Hb2j : b2j (new a b) = index_elements b).
  { unfold new, chain_b. case_bool_decide; [lia|done]. }
  destruct (index_elements_spec b c) as [_ Hspec].
  assert (Hin : Z.of_nat j ∈ default [] (index_elements b !! c)).
  { apply Hspec. by rewrite item_nat. }
  destruct (index_elements b !! c) as [js|] eqn:Hjs; simpl in Hin;
    [|by apply elem_of_nil in Hin].
  assert (1 ≤ sum_sizes (get_matching_blocks (new a b))); [|lia].
  apply (common_positive_sum (new a b) (b2j_sound_new a b) (Z.of_nat i) c js).
  - by rewrite sm_a_new, item_nat.
  - by rewrite Hb2j.
  - intros ->. by apply elem_of_nil in Hin.
Qed.


Lemma calculate_ratio_mono (m m' length : Z) :
  m ≤ m' → (calculate_ratio m length <= calculate_ratio m' length)%Q.
Proof.
  intros Hm. unfold calculate_ratio. case_bool_decide; [|apply Qle_refl].
  unfold Qle. simpl. nia.
Qed.

Lemma matching_substring a b (pre m post pre' post' : list A) :
  a = pre ++ m ++ post → b = pre' ++ m ++ post' →
  matching (new a b) (Z.of_nat (length pre), Z.of_nat (length pre'), Z.of_nat (length m)).
Proof.
  intros -> -> t Ht. rewrite sm_a_new, sm_b_new.
  replace (Z.of_nat (length pre) + t) with (Z.of_nat (length pre + Z.to_nat t)) by lia.
  replace (Z.of_nat (length pre') + t) with (Z.of_nat (length pre' + Z.to_nat t)) by lia.
  rewrite !item_nat, (lookup_app_r pre), (lookup_app_r pre') by lia.
  replace (length pre + Z.to_nat t - length pre)%nat with (Z.to_nat t) by lia.
  replace (length pre' + Z.to_nat t - length pre')%nat with (Z.to_nat t) by lia.
  rewrite !lookup_app_l by lia. split; [|done]. apply lookup_lt_is_Some. lia.
Qed.

(** Below 200 elements of [b], a common block of the two sequences bounds
    [ratio] from below by what this block alone would give. *)
Lemma ratio_common_block a b (pre m post pre' post' : list A) :
  (length b < 200)%nat →
  a = pre ++ m ++ post → b = pre' ++ m ++ post' →
  (calculate_ratio (Z.of_nat (length m)) (Z.of_nat (length a) + Z.of_nat (length b))
   <= ratio (new a b))%Q.
Proof.
  intros Hlen Ha Hb. unfold ratio. rewrite sm_a_new, sm_b_new.
  apply calculate_ratio_mono.
  apply (common_block_sum (new a b) (b2j_sound_new a b)) with
    (i := Z.of_nat (length pre)) (j := Z.of_nat (length pre')); [|lia|].
  - intros c j Hj. rewrite sm_b_new in Hj.
    assert (Hb2j : b2j (new a b) = index_elements b).
    { unfold new, chain_b. case_bool_decide; [lia|done]. }
    destruct (index_elements_spec b c) as [_ Hspec]. apply Hspec in Hj.
    rewrite Hb2j. destruct (index_elements b !! c) as [js|]; simpl in Hj;
      [by exists js|by apply elem_of_nil in Hj].
  - by apply (matching_substring a b pre m post pre' post').
Qed.

End ratio_facts.
End Similarity_facts.

Lemma chars_inj (s s' : string) : Str.chars s = Str.chars s' → s = s'.
Proof.
  intros Heq. rewrite <- (string_of_list_ascii_of_string s),
    <- (string_of_list_ascii_of_string s'). unfold Str.chars in Heq. by rewrite Heq.
Qed.

Lemma lowered_nil (s : string) : lowered s = [] ↔ s = "".
Proof.
  unfold lowered, Str.lower. rewrite chars_of_chars. split.
  - intros Hnil%fmap_nil_inv. by apply chars_inj.
  - by intros ->.
Qed.

Lemma similarity_one_iff (a b : string) :
  (calculate_similarity a b == 1)%Q ↔ Str.lower a = Str.lower b.
Proof.
  unfold calculate_similarity. rewrite Similarity_facts.ratio_one.
  split; [apply chars_inj|by intros ->].
Qed.

Lemma similarity_positive_inv (a b : string) :
  (0 < calculate_similarity a b)%Q → (a = "" ∧ b = "") ∨ common_character a b.
Proof.
  intros [[Ha Hb]|Hc]%Similarity_facts.ratio_positive; [left|by right].
  split; by apply lowered_nil.
Qed.

Lemma common_character_positive (a b : string) :
  (length (lowered b) < 200)%nat → common_character a b →
  (0 < calculate_similarity a b)%Q.
Proof.
  intros Hlen (c & Ha & Hb). unfold calculate_similarity.
  by apply (Similarity_facts.ratio_common _ _ c).
Qed.

(** ** The claim on the similarity metric *)








(** X10: the similarity is 1 exactly when the two strings are equal, case
    apart. *)
Theorem similarity_one_iff_equal_ignoring_case (a b : string) :
  (calculate_similarity a b == 1)%Q ↔ Str.lower a = Str.lower b.
Proof. apply similarity_one_iff. Qed.

(** X11: a positive similarity needs a common character (case apart), or two
    empty strings; so a string that is not empty has similarity 0 to the
    empty string, in either order, and the empty string has similarity 1 to
    itself. *)
Theorem positive_similarity_needs_common_character (a b : string) :
  ((0 < calculate_similarity a b)%Q → (a = "" ∧ b = "") ∨ common_character a b)
  ∧ (a ≠ "" → (calculate_similarity a "" == 0)%Q ∧ (calculate_similarity "" a == 0)%Q)
  ∧ (calculate_similarity "" "" == 1)%Q.
Proof.
  pose proof similarity_positive_inv as Hpos.
  assert (Hzero : ∀ x y, ¬ (0 < calculate_similarity x y)%Q →
                         (calculate_similarity x y == 0)%Q).
  { intros x y Hnot. apply Qle_antisym; [by apply Qnot_lt_le|].
    apply Difflib_facts.ratio_bounds. }
  split_and!; [apply Hpos| |done].
  intros Ha. split; apply Hzero; intros [[? ?]|(c & Hc1 & Hc2)]%Hpos; try done.
  - by apply elem_of_nil in Hc2.
  - by apply elem_of_nil in Hc1.
Qed.

(** X14: for a song that is not empty and candidate names that have fewer
    than 200 characters in lower case, [rank] returns none exactly when no
    candidate of the (artist-filtered) list has a character in common with
    the song. *)
Theorem rank_none_iff_no_common_character
    (parsed_query : ParsedQuery) (tracks fs : list Track) :
  filtered_tracks parsed_query tracks = Ok fs →
  song parsed_query ≠ "" →
  (∀ t, t ∈ fs → (length (lowered (track_name t)) < 200)%nat) →
  rank parsed_query tracks = Ok None ↔
  ∀ t, t ∈ fs → ¬ common_character (song parsed_query) (track_name t).
Proof.
  intros Hfs Hsong Hshort. unfold rank. rewrite Hfs.
  pose proof (select_spec (song parsed_query) fs) as Hinv. unfold select_inv in Hinv.
  destruct (select (song parsed_query) fs).1 as [c|].
  - split; [done|]. intros Hnone. exfalso.
    destruct Hinv as (_ & Hpos & i & Hi & _). apply list_elem_of_lookup_2 in Hi.
    apply (Hnone c Hi).
    by destruct (similarity_positive_inv _ _ Hpos) as [[? _]|?].
  - destruct Hinv as [_ Hzero]. split; [|done]. intros _ t Ht Hcommon.
    apply (Qle_not_lt _ _ (Hzero t Ht)).
    apply common_character_positive; [by apply Hshort|done].
Qed.

Lemma rank_exact_match
    (parsed_query : ParsedQuery) (tracks fs : list Track) (i : nat) (c : Track) :
  filtered_tracks parsed_query tracks = Ok fs →
  fs !! i = Some c →
  Str.lower (track_name c) = Str.lower (song parsed_query) →
  (∀ (j : nat) t, (j < i)%nat → fs !! j = Some t →
     Str.lower (track_name t) ≠ Str.lower (song parsed_query)) →
  rank parsed_query tracks = Ok (Some c).
Proof.
  intros Hfs Hi Hc Hfirst. unfold rank. rewrite Hfs.
  assert (Hone : (calculate_similarity (song parsed_query) (track_name c) == 1)%Q).
  { by apply similarity_one_iff. }
  pose proof (select_spec (song parsed_query) fs) as Hinv. unfold select_inv in Hinv.
  destruct (select (song parsed_query) fs).1 as [c'|].
  2:{ destruct Hinv as [_ Hzero]. exfalso.
      specialize (Hzero c (list_elem_of_lookup_2 _ _ _ Hi)).
      rewrite Hone in Hzero. by apply Qle_not_lt in Hzero. }
  destruct Hinv as (_ & _ & i' & Hi' & Hmax & Hbefore).
  assert (Hone' : (calculate_similarity (song parsed_query) (track_name c') == 1)%Q).
  { apply Qle_antisym; [apply Difflib_facts.ratio_bounds|].
    rewrite <- Hone. apply Hmax. by eapply list_elem_of_lookup_2. }
  destruct (lt_eq_lt_dec i i') as [[Hlt|<-]|Hgt].
  - exfalso. specialize (Hbefore i c Hlt Hi). rewrite Hone, Hone' in Hbefore.
    by apply Qlt_irrefl in Hbefore.
  - congruence.
  - exfalso. apply (Hfirst i' c' Hgt Hi'). symmetry. by apply similarity_one_iff.
Qed.

(** X15: a candidate whose name is the song, case apart, wins: [rank] returns
    the first such candidate of the (artist-filtered) list. *)
Theorem rank_prefers_exact_match
    (parsed_query : ParsedQuery) (tracks fs : list Track) (i : nat) (c : Track) :
  filtered_tracks parsed_query tracks = Ok fs →
  fs !! i = Some c →
  Str.lower (track_name c) = Str.lower (song parsed_query) →
  (∀ (j : nat) t, (j < i)%nat → fs !! j = Some t →
     Str.lower (track_name t) ≠ Str.lower (song parsed_query)) →
  rank parsed_query tracks = Ok (Some c).
Proof. apply rank_exact_match. Qed.

(** X12: for a second string that has fewer than 200 characters in lower
    case, a substring of [k] characters that the two strings in lower case
    have in common bounds the similarity from below by
    [2k / (len(a.lower()) + len(b.lower()))]. *)
Theorem common_substring_bounds_similarity (a b : string)
    (pre m post pre' post' : list ascii) :
  (length (lowered b) < 200)%nat →
  lowered a = pre ++ m ++ post → lowered b = pre' ++ m ++ post' →
  (2 * Z.of_nat (length m) # Pos.of_nat (length (lowered a) + length (lowered b))
   <= calculate_similarity a b)%Q.
Proof.
  intros Hlen Ha Hb.
  pose proof (Similarity_facts.ratio_common_block (lowered a) (lowered b)
                pre m post pre' post' Hlen Ha Hb) as Hbound.
  eapply Qle_trans; [|exact Hbound].
  unfold Difflib.calculate_ratio. case_bool_decide as Hz.
  - replace (Z.to_pos (Z.of_nat (length (lowered a)) + Z.of_nat (length (lowered b))))
      with (Pos.of_nat (length (lowered a) + length (lowered b))) by lia.
    apply Qle_refl.
  - assert (length (lowered a) = 0%nat) as Hnil by lia.
    rewrite Ha, !length_app in Hnil.
    replace (length m) with 0%nat by lia. done.
Qed.

(** The similarity is at most what the shorter string allows. *)
Lemma similarity_length_bound (a b : string) :
  (calculate_similarity a b
   <= Difflib.calculate_ratio
        (Z.of_nat (length (lowered a)) `min` Z.of_nat (length (lowered b)))
        (Z.of_nat (length (lowered a)) + Z.of_nat (length (lowered b))))%Q.
Proof.
  destruct (Difflib_facts.get_matching_blocks_ok (Difflib.new (lowered a) (lowered b))
              (Difflib_facts.b2j_sound_new _ _)) as (_ & _ & Hla & Hlb).
  rewrite Difflib_facts.sm_a_new in Hla. rewrite Difflib_facts.sm_b_new in Hlb.
  unfold calculate_similarity, Difflib.ratio.
  rewrite Difflib_facts.sm_a_new, Difflib_facts.sm_b_new.
  fold (lowered a) (lowered b).
  apply Similarity_facts.calculate_ratio_mono. lia.
Qed.

(** X13: the artist filter (run for an artist that is not empty) only keeps
    candidates whose first artist's name has, in lower case, a length
    comparable to that of the parsed artist in lower case: the longer of
    the two is less than 7/3 times the shorter. *)
Theorem artist_filter_needs_comparable_length
    (a : string) (tracks kept : list Track) (t : Track) :
  a ≠ "" → filter_by_artist a tracks = Ok kept → t ∈ kept →
  ∃ n, primary_artist_name t = Ok n
       ∧ (3 * Z.of_nat (length (lowered a) `max` length (lowered n))
          < 7 * Z.of_nat (length (lowered a) `min` length (lowered n))).
Proof.
  intros Ha Hf Hin.
  destruct (filter_by_artist_elem a tracks kept t Hf Hin) as (_ & n & Hn & Hsim).
  exists n. split; [done|].
  pose proof (Qlt_le_trans _ _ _ Hsim (similarity_length_bound a n)) as Hlt.
  unfold Difflib.calculate_ratio in Hlt. case_bool_decide as Hz.
  - unfold Qlt in Hlt. simpl in Hlt. rewrite Z2Pos.id in Hlt by lia. lia.
  - assert (lowered a = []) as Hnil%lowered_nil; [|done].
    apply length_zero_iff_nil. lia.
Qed.

(** ** Errors of the candidate selection *)

(** The comprehension of lines 85-88 raises exactly when a track has no
    artist: [track['artists'][0]] is then out of range. *)
Lemma filter_by_artist_Err (a : string) (tracks : list Track) (e : exn) :
  filter_by_artist a tracks = Err e ↔
  e = IndexError ∧ ∃ t, t ∈ tracks ∧ track_artists t = [].
Proof.
  revert e. induction tracks as [|x tracks IH]; intros e; simpl.
  - split; [done|]. intros (_ & t & Ht & _). by apply elem_of_nil in Ht.
  - unfold primary_artist_name. destruct (track_artists x) as [|y ys] eqn:Hx.
    + split.
      * intros [= <-]. split; [done|]. exists x. split; [left|done].
      * by intros [-> _].
    + destruct (filter_by_artist a tracks) as [kept|e'].
      * split; [done|]. intros (He & t & [->|Ht]%elem_of_cons & Hnil); [congruence|].
        assert (Ok kept = Err e) as Habs; [|done]. apply IH. eauto.
      * split.
        -- intros [= ->]. destruct (proj1 (IH e) eq_refl) as (-> & t & Ht & Hnil).
           split; [done|]. exists t. split; [by right|done].
        -- intros (-> & _). f_equal. by destruct (proj1 (IH e') eq_refl).
Qed.

(** X8: [rank] raises exactly when the artist filter is on (the parsed
    artist is neither null nor empty) and some candidate has an empty
    [artists] list; the exception is an [IndexError].  Without the filter
    [rank] always returns. *)
Theorem rank_raises_iff_artist_missing (parsed_query : ParsedQuery)
    (tracks : list Track) (e : exn) :
  rank parsed_query tracks = Err e ↔
  e = IndexError
  ∧ (∃ a, artist parsed_query = Some a ∧ a ≠ "")
  ∧ ∃ t, t ∈ tracks ∧ track_artists t = [].
Proof.
  unfold rank, filtered_tracks, artist_filter.
  destruct (artist parsed_query) as [a|].
  2:{ split; [done|]. by intros (_ & (a & ? & _) & _). }
  destruct a as [|c a]; simpl.
  { split; [done|]. by intros (_ & (a & [= <-] & ?) & _). }
  pose proof (filter_by_artist_Err (String c a) tracks e) as Hiff.
  destruct (filter_by_artist (String c a) tracks) as [kept|e'].
  - split; [done|]. intros (He & _ & Ht).
    assert (Ok kept = Err e) as Habs; [by apply Hiff|done].
  - split.
    + intros [= ->]. destruct (proj1 Hiff eq_refl) as [-> Ht].
      split; [done|]. split; [|done]. by exists (String c a).
    + intros (He & _ & Ht). f_equal.
      assert (@Err (list Track) e' = Err e) as [= ->]; [by apply Hiff|done].
Qed.

(** ** From the query to the play command *)

Section end_to_end.
Context {World : Type} `{!Collaborators World}.
Implicit Types (s : state World) (track : Track) (d : Device).

(** X20: a query of whitespace only is searched as the empty song, and when
    every candidate has a name, none is selected: the tool prints that no
    track matches and returns false, without asking for the devices. *)
Theorem blank_query_finds_nothing (query : string) (t : option string)
    (retrying : bool) s (tracks : list Track) (w1 : World) :
  spaces (Str.chars query) →
  sp_search "" "track" 20 (world s) = (Ok tracks, w1) →
  (∀ c, c ∈ tracks → track_name c ≠ "") →
  search_and_play query t retrying s
  = (Return false,
     mkState w1 (log s ++ [Invoke query retrying; Search "" "track" 20;
                           Print (no_track_message query)])).
Proof.
  intros Hblank Hs Hnames.
  pose proof (parse_query_blank query Hblank) as Hparse.
  pose proof (search_and_play_cases query t retrying s) as Hc.
  cbv zeta in Hc. rewrite Hparse in Hc. cbn [song] in Hc. rewrite Hs in Hc.
  assert (Hrank : rank {| song := ""; artist := None; search_type := "track" |} tracks
                  = Ok None).
  { unfold rank, filtered_tracks, artist_filter. simpl.
    pose proof (select_spec "" tracks) as Hinv. unfold select_inv in Hinv.
    destruct (select "" tracks).1 as [c|]; [|done]. exfalso.
    destruct Hinv as (_ & Hpos & i & Hi & _). apply list_elem_of_lookup_2 in Hi.
    apply similarity_positive_inv in Hpos as [[_ Hname]|(x & Hx & _)].
    - by apply (Hnames c).
    - by apply elem_of_nil in Hx. }
  by rewrite Hrank in Hc.
Qed.

(** X21: when a candidate's name is the parsed song, case apart, the first
    such candidate of the (artist-filtered) answer is the one played: with
    a device listed and a play command that returns, the run plays it on
    the target device, prints it and returns true. *)
Theorem exact_title_is_played (query : string) (t : option string)
    (retrying : bool) s (tracks fs : list Track) (w1 : World) (i : nat) (c : Track)
    (a : string) (dev : Device) (devs : list Device) (w2 : World) (d : Device) (w3 : World) :
  sp_search (song (parse_query query)) "track" 20 (world s) = (Ok tracks, w1) →
  filtered_tracks (parse_query query) tracks = Ok fs →
  fs !! i = Some c →
  Str.lower (track_name c) = Str.lower (song (parse_query query)) →
  (∀ (j : nat) c', (j < i)%nat → fs !! j = Some c' →
     Str.lower (track_name c') ≠ Str.lower (song (parse_query query))) →
  primary_artist_name c = Ok a →
  sp_devices w1 = (Ok (dev :: devs), w2) →
  target_device (dev :: devs) d →
  sp_start_playback (device_id d) [track_uri c] w2 = (Ok tt, w3) →
  search_and_play query t retrying s
  = (Return true,
     mkState w3 (log s ++ [Invoke query retrying;
                           Search (song (parse_query query)) "track" 20; ListDevices;
                           StartPlayback (device_id d) [track_uri c];
                           Print (playing_text (track_name c) a d)])).
Proof.
  intros Hs Hfs Hi Hname Hfirst Ha Hd Ht Hp.
  pose proof (rank_exact_match _ _ _ _ _ Hfs Hi Hname Hfirst) as Hrank.
  pose proof (search_and_play_cases query t retrying s) as Hc.
  cbv zeta in Hc. rewrite Hs, Hrank, Hd in Hc. specialize (Hc d Ht). rewrite Hp in Hc.
  unfold primary_artist_name in Ha.
  destruct (track_artists c) as [|x l]; [done|]. by injection Ha as <-.
Qed.

End end_to_end.

(** *** Runs on scripted answers, continued *)

Lemma rank_none_iff_no_common_character_witness :
  rank (parse_query "abc") [xyz] = Ok None ↔
  ∀ t, t ∈ [xyz] → ¬ common_character (song (parse_query "abc")) (track_name t).
Proof.
  apply (rank_none_iff_no_common_character (parse_query "abc") [xyz] [xyz]).
  - vm_compute; reflexivity.
  - vm_compute; discriminate.
  - intros t ->%list_elem_of_singleton. vm_compute. lia.
Defined.

Lemma rank_prefers_exact_match_witness :
  rank (parse_query "Imagine") [imagine_live; imagine; imagine_cover] = Ok (Some imagine).
Proof.
  apply (rank_prefers_exact_match (parse_query "Imagine")
           [imagine_live; imagine; imagine_cover] [imagine_live; imagine; imagine_cover]
           1 imagine).
  - vm_compute; reflexivity.
  - reflexivity.
  - vm_compute; reflexivity.
  - intros [|j] t Hj Ht; [|lia]. vm_compute in Ht. injection Ht as <-.
    vm_compute. discriminate.
Defined.

Lemma common_substring_bounds_similarity_witness :
  (2 * Z.of_nat (length (Str.chars "imagine"))
     # Pos.of_nat (length (lowered "Imagine") + length (lowered "Imagine - Live"))
   <= calculate_similarity "Imagine" "Imagine - Live")%Q.
Proof.
  apply (common_substring_bounds_similarity "Imagine" "Imagine - Live"
           [] (Str.chars "imagine") [] [] (Str.chars " - live")).
  - vm_compute. lia.
  - vm_compute; reflexivity.
  - vm_compute; reflexivity.
Defined.

Lemma artist_filter_needs_comparable_length_witness :
  ∃ n, primary_artist_name imagine = Ok n
       ∧ (3 * Z.of_nat (length (lowered "John Lennon") `max` length (lowered n))
          < 7 * Z.of_nat (length (lowered "John Lennon") `min` length (lowered n))).
Proof.
  apply (artist_filter_needs_comparable_length "John Lennon" [imagine; xyz] [imagine]).
  - discriminate.
  - vm_compute; reflexivity.
  - left.
Defined.

Lemma parse_query_by_round_trip_witness :
  parse_query ("Stand by me" +:+ " " +:+ "BY" +:+ " " +:+ "Oasis")
  = {| song := Str.strip "Stand by me"; artist := Some "Oasis"; search_type := "track" |}.
Proof.
  apply (parse_query_by_round_trip "Stand by me" "BY" "Oasis").
  - discriminate.
  - by repeat constructor.
  - apply keyword_lower. left. vm_compute; reflexivity.
  - discriminate.
  - by_computation.
Defined.

Lemma parse_query_dash_round_trip_witness :
  parse_query ("Anti-Hero" +:+ " - " +:+ "Taylor")
  = {| song := "Anti-Hero"; artist := Some "Taylor"; search_type := "track" |}.
Proof.
  apply (parse_query_dash_round_trip "Anti-Hero" "Taylor").
  - discriminate.
  - by_computation.
  - discriminate.
  - by_computation.
  - vm_compute. intros Hin. repeat (apply elem_of_cons in Hin as [Hin|Hin]; [discriminate|]).
    by apply elem_of_nil in Hin.
Defined.

Lemma blank_query_finds_nothing_witness :
  search_and_play "  " None false (start (mkScript [Ok [imagine]] [] [] []))
  = (Return false,
     mkState (mkScript [] [] [] [])
       ([] ++ [Invoke "  " false; Search "" "track" 20; Print (no_track_message "  ")])).
Proof.
  apply (blank_query_finds_nothing "  " None false
           (start (mkScript [Ok [imagine]] [] [] [])) [imagine] (mkScript [] [] [] [])).
  - by_computation.
  - reflexivity.
  - intros c ->%list_elem_of_singleton. discriminate.
Defined.

Lemma exact_title_is_played_witness :
  search_and_play "imagine" None false
    (start (mkScript [Ok [imagine_live; imagine]] [Ok [d1; d2]] [Ok tt] []))
  = (Return true,
     mkState (mkScript [] [] [] [])
       ([] ++ [Invoke "imagine" false; Search (song (parse_query "imagine")) "track" 20;
               ListDevices; StartPlayback (device_id d2) [track_uri imagine];
               Print (playing_text (track_name imagine) "John Lennon" d2)])).
Proof.
  apply (exact_title_is_played "imagine" None false
           (start (mkScript [Ok [imagine_live; imagine]] [Ok [d1; d2]] [Ok tt] []))
           [imagine_live; imagine] [imagine_live; imagine]
           (mkScript [] [Ok [d1; d2]] [Ok tt] []) 1 imagine "John Lennon"
           d1 [d2] (mkScript [] [] [Ok tt] []) d2 (mkScript [] [] [] [])).
  - vm_compute; reflexivity.
  - vm_compute; reflexivity.
  - reflexivity.
  - vm_compute; reflexivity.
  - intros [|j] c' Hj Hc'; [|lia]. vm_compute in Hc'. injection Hc' as <-.
    vm_compute. discriminate.
  - reflexivity.
  - reflexivity.
  - left. exists 1%nat. split; [done|]. split; [done|].
    intros [|j] d' Hj Hd'; [by injection Hd' as <-|lia].
  - reflexivity.
Defined.
